(** * libobs/callback/signal.c : the signal handler (named-event registry)

    A shallow embedding of [signal.c] and the verification of its
    specification.  The C heap is a finite map from locations to the two
    kinds of structures the file allocates; every function of the file is a
    computation in a small state monad whose outcomes distinguish a normal
    return, a thread that waits forever on a held mutex, undefined behaviour
    and a loop that never ends. *)

From Stdlib Require Import ZArith String List Lia.
From stdpp Require Import gmap strings list fin_maps.

Local Open Scope Z_scope.

(** ** Data model *)

(** Locations of heap-allocated structures.  A C pointer is either [NULL]
    or the location of a structure. *)
Definition loc := positive.
Definition ptr := option loc.
Abbreviation NULL := (@None loc).

(** Function pointers, [void *] user data and the [calldata_t] handle are
    opaque machine words: the file only stores, compares and passes them. *)
Definition fn_ptr := Z.
Definition void_ptr := Z.
Definition calldata_t := Z.

(** [struct signal_callback]; the fields are [callback] and [data] in the
    source. *)
Record signal_callback := mk_signal_callback {
  sc_callback : fn_ptr;
  sc_data : void_ptr
}.

(** [pthread_mutex_t]: the storage before [pthread_mutex_init], then free or
    held. *)
Inductive pthread_mutex_t := MutexUninit | MutexUnlocked | MutexLocked.

(** [struct signal_info]; the fields are [name], [callbacks], [mutex] and
    [next] in the source. *)
Record signal_info := mk_signal_info {
  si_name : string;
  si_callbacks : list signal_callback;
  si_mutex : pthread_mutex_t;
  si_next : ptr
}.

(** [struct signal_handler]; the fields are [first] and [mutex] in the
    source. *)
Record signal_handler := mk_signal_handler {
  sh_first : ptr;
  sh_mutex : pthread_mutex_t
}.

Inductive object :=
| OHandler (h : signal_handler)
| OSignal (si : signal_info).

(** One invocation [cb->callback(params, cb->data)] of a connected
    callback.  Callbacks are code outside this file: the model records each
    invocation with its arguments, in order. *)
Record call := mk_call {
  call_fn : fn_ptr;
  call_params : calldata_t;
  call_data : void_ptr
}.

Inductive log_level := LOG_ERROR.

(** The machine state: the heap, the lines written through [blog], the
    results the coming calls of [pthread_mutex_init] will return (0 once the
    list is used up) and the callback invocations made so far. *)
Record state := mk_state {
  heap : gmap loc object;
  log : list (log_level * string);
  mutex_init_results : list Z;
  calls : list call
}.

Definition set_heap (f : gmap loc object -> gmap loc object) (s : state) : state :=
  mk_state (f (heap s)) (log s) (mutex_init_results s) (calls s).

#[global] Instance signal_callback_eq_dec : EqDecision signal_callback.
Proof. solve_decision. Defined.
#[global] Instance pthread_mutex_eq_dec : EqDecision pthread_mutex_t.
Proof. solve_decision. Defined.
#[global] Instance signal_info_eq_dec : EqDecision signal_info.
Proof. solve_decision. Defined.
#[global] Instance signal_handler_eq_dec : EqDecision signal_handler.
Proof. solve_decision. Defined.
#[global] Instance object_eq_dec : EqDecision object.
Proof. solve_decision. Defined.

(** ** The monad of C computations *)

Inductive outcome (A : Type) :=
| Ret (a : A) (s : state)   (* the call returns [a] in state [s] *)
| Blocks (s : state)        (* the thread waits on a mutex that stays held *)
| Fault                     (* undefined behaviour *)
| Diverges.                 (* a loop that does not end *)
Arguments Ret {A} a s.
Arguments Blocks {A} s.
Arguments Fault {A}.
Arguments Diverges {A}.

Definition M (A : Type) := state -> outcome A.

Definition ret {A} (a : A) : M A := fun s => Ret a s.

Definition bind {A B} (m : M A) (k : A -> M B) : M B :=
  fun s =>
    match m s with
    | Ret a s' => k a s'
    | Blocks s' => Blocks s'
    | Fault => Fault
    | Diverges => Diverges
    end.

Declare Scope c_scope.
Delimit Scope c_scope with C.
Notation "x <- m ;; k" := (bind m (fun x => k))
  (at level 100, m at next level, k at level 200, right associativity) : c_scope.
Notation "m ;; k" := (bind m (fun _ => k))
  (at level 100, k at level 200, right associativity) : c_scope.
Local Open Scope c_scope.

Definition fault {A} : M A := fun _ => Fault.

(** ** Memory *)

(** Modelled from the spec: [bmalloc] (util/bmem) is the allocation
    facility, "allocate-zeroed"; the block is new, and the fields hold what
    [z] gives them until the caller stores into them. *)
Definition bmalloc (z : object) : M ptr :=
  fun s =>
    let a := fresh (dom (heap s)) in
    Ret (Some a) (set_heap (insert a z) s).

(** Modelled from the spec: [bfree] (util/bmem) releases a block; [NULL] is
    accepted, a block that is not allocated is undefined behaviour. *)
Definition bfree (p : ptr) : M unit :=
  fun s =>
    match p with
    | None => Ret tt s
    | Some a =>
        match heap s !! a with
        | Some _ => Ret tt (set_heap (delete a) s)
        | None => Fault
        end
    end.

(** Reading and writing through a pointer to a [struct signal_handler]. *)
Definition load_handler (p : ptr) : M signal_handler :=
  fun s =>
    match p with
    | Some a => match heap s !! a with
                | Some (OHandler h) => Ret h s
                | _ => Fault
                end
    | None => Fault
    end.

Definition store_handler (p : ptr) (h : signal_handler) : M unit :=
  fun s =>
    match p with
    | Some a => match heap s !! a with
                | Some (OHandler _) => Ret tt (set_heap (insert a (OHandler h)) s)
                | _ => Fault
                end
    | None => Fault
    end.

(** Reading and writing through a pointer to a [struct signal_info]. *)
Definition load_signal (p : ptr) : M signal_info :=
  fun s =>
    match p with
    | Some a => match heap s !! a with
                | Some (OSignal si) => Ret si s
                | _ => Fault
                end
    | None => Fault
    end.

Definition store_signal (p : ptr) (si : signal_info) : M unit :=
  fun s =>
    match p with
    | Some a => match heap s !! a with
                | Some (OSignal _) => Ret tt (set_heap (insert a (OSignal si)) s)
                | _ => Fault
                end
    | None => Fault
    end.

(** [handler->first = v] *)
Definition set_first (handler : ptr) (v : ptr) : M unit :=
  h <- load_handler handler ;;
  store_handler handler (mk_signal_handler v (sh_mutex h)).

(** [si->name = v] *)
Definition set_name (p : ptr) (v : string) : M unit :=
  si <- load_signal p ;;
  store_signal p (mk_signal_info v (si_callbacks si) (si_mutex si) (si_next si)).

(** [si->next = v] *)
Definition set_next (p : ptr) (v : ptr) : M unit :=
  si <- load_signal p ;;
  store_signal p (mk_signal_info (si_name si) (si_callbacks si) (si_mutex si) v).

(** [si->callbacks = v] (the array as a whole) *)
Definition set_callbacks (p : ptr) (v : list signal_callback) : M unit :=
  si <- load_signal p ;;
  store_signal p (mk_signal_info (si_name si) v (si_mutex si) (si_next si)).

(** ** Mutexes *)

(** The two mutex addresses of the file: [&handler->mutex], [&si->mutex]. *)
Inductive mutex_ref :=
| handler_mutex (handler : ptr)
| signal_mutex (si : ptr).

Definition load_mutex (m : mutex_ref) : M pthread_mutex_t :=
  match m with
  | handler_mutex p => h <- load_handler p ;; ret (sh_mutex h)
  | signal_mutex p => si <- load_signal p ;; ret (si_mutex si)
  end.

Definition store_mutex (m : mutex_ref) (v : pthread_mutex_t) : M unit :=
  match m with
  | handler_mutex p =>
      h <- load_handler p ;; store_handler p (mk_signal_handler (sh_first h) v)
  | signal_mutex p =>
      si <- load_signal p ;;
      store_signal p (mk_signal_info (si_name si) (si_callbacks si) v (si_next si))
  end.

(** The result of the next [pthread_mutex_init]. *)
Definition next_init_result (s : state) : Z :=
  match mutex_init_results s with
  | [] => 0
  | rc :: _ => rc
  end.

Definition pop_init_result : M Z :=
  fun s =>
    Ret (next_init_result s)
        (mk_state (heap s) (log s) (tail (mutex_init_results s)) (calls s)).

(** [pthread_mutex_init(m, NULL)]: 0 and a free mutex, or an error code and
    the storage left as it was. *)
Definition pthread_mutex_init (m : mutex_ref) : M Z :=
  load_mutex m ;;
  rc <- pop_init_result ;;
  if rc =? 0 then store_mutex m MutexUnlocked ;; ret rc else ret rc.

(** [pthread_mutex_lock(m)]: a held mutex is waited for; with no other
    thread to release it the call never returns. *)
Definition pthread_mutex_lock (m : mutex_ref) : M unit :=
  v <- load_mutex m ;;
  match v with
  | MutexUnlocked => store_mutex m MutexLocked
  | MutexLocked => fun s => Blocks s
  | MutexUninit => fault
  end.

(** [pthread_mutex_unlock(m)] *)
Definition pthread_mutex_unlock (m : mutex_ref) : M unit :=
  v <- load_mutex m ;;
  match v with
  | MutexLocked => store_mutex m MutexUnlocked
  | _ => fault
  end.

(** [pthread_mutex_destroy(m)]: destroying a held or an uninitialised mutex
    is undefined. *)
Definition pthread_mutex_destroy (m : mutex_ref) : M unit :=
  v <- load_mutex m ;;
  match v with
  | MutexUnlocked => store_mutex m MutexUninit
  | _ => fault
  end.

(** ** Logging and callbacks *)

(** Modelled from the spec: [blog] (util/base) is the reporting hook; it
    appends one line to the log. *)
Definition blog (level : log_level) (msg : string) : M unit :=
  fun s =>
    Ret tt (mk_state (heap s) (log s ++ [(level, msg)]) (mutex_init_results s) (calls s)).

(** [cb->callback(params, cb->data)].  The callback is the caller's code: it
    is taken to return and to leave the structures of this file alone (the
    mutex held around it is not recursive), so its trace in the model is
    the record of the invocation. *)
Definition invoke (cb : signal_callback) (params : calldata_t) : M unit :=
  fun s =>
    Ret tt (mk_state (heap s) (log s) (mutex_init_results s)
                     (calls s ++ [mk_call (sc_callback cb) params (sc_data cb)])).

(** ** Dynamic arrays

    The array of callbacks is a [DARRAY] of util/darray.h.  In the model the
    array is the list of its elements: [num] is its length and [array + i]
    its [i]-th element. *)

(** Modelled from the spec: [da_init] (util/darray.h) makes the array of
    the growable-array container empty. *)
Definition da_init (si : ptr) : M unit := set_callbacks si [].

(** Modelled from the spec: [da_push_back] (util/darray.h) is the "append"
    of the growable-array container, at the end, so that iteration is "in
    insertion order". *)
Definition da_push_back (si : ptr) (item : signal_callback) : M unit :=
  i <- load_signal si ;;
  set_callbacks si (si_callbacks i ++ [item]).

(** Modelled from the spec: [da_erase] (util/darray.h) is the
    "remove-by-index" of the growable-array container; the elements behind
    the index move down by one, in their order. *)
Definition da_erase (si : ptr) (idx : Z) : M unit :=
  i <- load_signal si ;;
  set_callbacks si (delete (Z.to_nat idx) (si_callbacks i)).

(** Modelled from the spec: [da_free] (util/darray.h) releases the storage
    of the array. *)
Definition da_free (si : ptr) : M unit := set_callbacks si [].

(** [strcmp], as far as its sign. *)
Definition strcmp (a b : string) : Z :=
  match String.compare a b with
  | Eq => 0
  | Lt => -1
  | Gt => 1
  end.

Section Signal.

(** [DARRAY_INVALID] is a macro of util/darray.h, the value that no index
    takes; the file only compares indices with it. *)
Variable DARRAY_INVALID : Z.

(** ** signal.c *)

(** [signal_info_create].  The name is an owned copy ([bstrdup]); the model
    keeps the string by value inside the structure, so that
    [bfree(si->name)] has no block of its own to release. *)
Definition signal_info_create (name : string) : M ptr :=
  si <- bmalloc (OSignal (mk_signal_info EmptyString [] MutexUninit NULL)) ;;
  set_name si name ;;
  set_next si NULL ;;
  da_init si ;;
  rc <- pthread_mutex_init (signal_mutex si) ;;
  if negb (rc =? 0) then
    blog LOG_ERROR "Could not create signal!" ;;
    bfree si ;;
    ret NULL
  else
    ret si.

(** [signal_info_destroy] *)
Definition signal_info_destroy (si : ptr) : M unit :=
  match si with
  | Some _ =>
      pthread_mutex_destroy (signal_mutex si) ;;
      da_free si ;;
      bfree si
  | None => ret tt
  end.

(** The loop of [signal_get_callback_idx], from index [i] on, over the
    elements [array + i ..] that are left. *)
Fixpoint signal_get_callback_idx_from (rest : list signal_callback) (i : Z)
    (callback : fn_ptr) (data : void_ptr) : Z :=
  match rest with
  | [] => DARRAY_INVALID
  | sc :: rest' =>
      if (sc_callback sc =? callback) && (sc_data sc =? data) then i
      else signal_get_callback_idx_from rest' (i + 1) callback data
  end.

(** [signal_get_callback_idx] *)
Definition signal_get_callback_idx (si : ptr) (callback : fn_ptr) (data : void_ptr)
    : M Z :=
  i <- load_signal si ;;
  ret (signal_get_callback_idx_from (si_callbacks i) 0 callback data).

(** The [while] loop of [getsignal]; [fuel] bounds the number of nodes
    visited. *)
Fixpoint getsignal_loop (fuel : nat) (name : string) (signal last : ptr)
    : M (ptr * ptr) :=
  match signal with
  | None => ret (signal, last)
  | Some _ =>
      match fuel with
      | O => fun _ => Diverges
      | S fuel' =>
          i <- load_signal signal ;;
          if strcmp (si_name i) name =? 0 then ret (signal, last)
          else getsignal_loop fuel' name (si_next i) signal
      end
  end.

(** [getsignal]: the signal found (or [NULL]) and, for [p_last], the node
    before it (the last node when nothing is found); a caller that passes
    [NULL] for [p_last] drops the second component.  The chain of a
    registry has at most as many nodes as the heap has blocks
    ([chain_length] below), so the loop is given one step more than that
    and never runs out on a registry. *)
Definition getsignal (handler : ptr) (name : string) : M (ptr * ptr) :=
  h <- load_handler handler ;;
  fun s => getsignal_loop (S (size (heap s))) name (sh_first h) NULL s.

(** [signal_handler_create] *)
Definition signal_handler_create : M ptr :=
  handler <- bmalloc (OHandler (mk_signal_handler NULL MutexUninit)) ;;
  set_first handler NULL ;;
  rc <- pthread_mutex_init (handler_mutex handler) ;;
  if negb (rc =? 0) then
    blog LOG_ERROR "Couldn't create signal handler!" ;;
    bfree handler ;;
    ret NULL
  else
    ret handler.

(** The [while] loop of [signal_handler_destroy]. *)
Fixpoint signal_handler_destroy_loop (fuel : nat) (sig : ptr) : M unit :=
  match sig with
  | None => ret tt
  | Some _ =>
      match fuel with
      | O => fun _ => Diverges
      | S fuel' =>
          i <- load_signal sig ;;
          signal_info_destroy sig ;;
          signal_handler_destroy_loop fuel' (si_next i)
      end
  end.

(** [signal_handler_destroy] *)
Definition signal_handler_destroy (handler : ptr) : M unit :=
  match handler with
  | Some _ =>
      h <- load_handler handler ;;
      (fun s => signal_handler_destroy_loop (S (size (heap s))) (sh_first h) s) ;;
      pthread_mutex_destroy (handler_mutex handler) ;;
      bfree handler
  | None => ret tt
  end.

(** The second half of [signal_handler_connect], below the dashed comment:
    the registration on the signal found or made. *)
Definition signal_handler_connect_register (sig : ptr)
    (callback : fn_ptr) (data : void_ptr) : M unit :=
  let cb_data := mk_signal_callback callback data in
  pthread_mutex_lock (signal_mutex sig) ;;
  idx <- signal_get_callback_idx sig callback data ;;
  (if idx =? DARRAY_INVALID then da_push_back sig cb_data else ret tt) ;;
  pthread_mutex_unlock (signal_mutex sig).

(** [signal_handler_connect] *)
Definition signal_handler_connect (handler : ptr) (signal : string)
    (callback : fn_ptr) (data : void_ptr) : M unit :=
  pthread_mutex_lock (handler_mutex handler) ;;
  r <- getsignal handler signal ;;
  let (sig, last) := (r : ptr * ptr) in
  match sig with
  | None =>
      sig <- signal_info_create signal ;;
      match last with
      | None => set_first handler sig
      | Some _ => set_next last sig
      end ;;
      match sig with
      | None => ret tt
      | Some _ =>
          pthread_mutex_unlock (handler_mutex handler) ;;
          signal_handler_connect_register sig callback data
      end
  | Some _ =>
      pthread_mutex_unlock (handler_mutex handler) ;;
      signal_handler_connect_register sig callback data
  end.

(** [getsignal_locked] *)
Definition getsignal_locked (handler : ptr) (name : string) : M ptr :=
  pthread_mutex_lock (handler_mutex handler) ;;
  r <- getsignal handler name ;;
  pthread_mutex_unlock (handler_mutex handler) ;;
  ret (fst r).

(** [signal_handler_disconnect] *)
Definition signal_handler_disconnect (handler : ptr) (signal : string)
    (callback : fn_ptr) (data : void_ptr) : M unit :=
  sig <- getsignal_locked handler signal ;;
  match sig with
  | None => ret tt
  | Some _ =>
      pthread_mutex_lock (signal_mutex sig) ;;
      idx <- signal_get_callback_idx sig callback data ;;
      (if negb (idx =? DARRAY_INVALID) then da_erase sig idx else ret tt) ;;
      pthread_mutex_unlock (signal_mutex sig)
  end.

(** The [for] loop of [signal_handler_signal] over the elements that are
    left. *)
Fixpoint signal_handler_signal_loop (rest : list signal_callback)
    (params : calldata_t) : M unit :=
  match rest with
  | [] => ret tt
  | cb :: rest' => invoke cb params ;; signal_handler_signal_loop rest' params
  end.

(** [signal_handler_signal] *)
Definition signal_handler_signal (handler : ptr) (signal : string)
    (params : calldata_t) : M unit :=
  sig <- getsignal_locked handler signal ;;
  match sig with
  | None => ret tt
  | Some _ =>
      pthread_mutex_lock (signal_mutex sig) ;;
      i <- load_signal sig ;;
      signal_handler_signal_loop (si_callbacks i) params ;;
      pthread_mutex_unlock (signal_mutex sig)
  end.

(** ** The registry as a data structure *)

(** [chain h p l]: in the heap [h] the [next]-linked chain that starts at
    [p] and ends in [NULL] consists of the nodes [l], given with their
    locations, in order. *)
Fixpoint chain (h : gmap loc object) (p : ptr) (l : list (loc * signal_info)) : Prop :=
  match l with
  | [] => p = NULL
  | (a, i) :: l' => p = Some a ∧ h !! a = Some (OSignal i) ∧ chain h (si_next i) l'
  end.

(** [registry s handler m l]: [handler] points to a [struct signal_handler]
    whose mutex is in state [m] and whose [first] starts the chain [l]. *)
Definition registry (s : state) (handler : loc) (m : pthread_mutex_t)
    (l : list (loc * signal_info)) : Prop :=
  ∃ p, heap s !! handler = Some (OHandler (mk_signal_handler p m)) ∧
       chain (heap s) p l.

Definition names (l : list (loc * signal_info)) : list string :=
  map (fun e => si_name (snd e)) l.

Definition locs (l : list (loc * signal_info)) : list loc := map fst l.

(** The pointer to the last node of [l], [last] when there is none. *)
Fixpoint last_ptr (last : ptr) (l : list (loc * signal_info)) : ptr :=
  match l with
  | [] => last
  | e :: l' => last_ptr (Some (fst e)) l'
  end.

(** The pair [(callback, data)] is an element of the array. *)
Definition connected (callback : fn_ptr) (data : void_ptr)
    (array : list signal_callback) : Prop :=
  mk_signal_callback callback data ∈ array.

(** [DARRAY_INVALID] is not an index of the array: the array has at most
    [DARRAY_INVALID] elements (its [num] is a [size_t], [DARRAY_INVALID] the
    largest of them). *)
Definition darray_ok (array : list signal_callback) : Prop :=
  ¬ (0 <= DARRAY_INVALID < Z.of_nat (length array)).

(** The pointer to the first node of [l]. *)
Definition first_ptr (l : list (loc * signal_info)) : ptr :=
  match l with
  | [] => NULL
  | e :: _ => Some (fst e)
  end.

(** What [getsignal] finds for [name] in the nodes [l]: the first node of
    that name. *)
Fixpoint find_signal (name : string) (l : list (loc * signal_info)) : ptr :=
  match l with
  | [] => NULL
  | (a, i) :: l' => if decide (si_name i = name) then Some a else find_signal name l'
  end.

(** The invocation of [cb] with the payload [params]. *)
Definition call_of (params : calldata_t) (cb : signal_callback) : call :=
  mk_call (sc_callback cb) params (sc_data cb).

(** The state after the invocations [cs]. *)
Definition add_calls (cs : list call) (s : state) : state :=
  mk_state (heap s) (log s) (mutex_init_results s) (calls s ++ cs).

(** The node [i] with another array, another [next]. *)
Definition with_callbacks (i : signal_info) (v : list signal_callback) : signal_info :=
  mk_signal_info (si_name i) v (si_mutex i) (si_next i).

Definition with_next (i : signal_info) (v : ptr) : signal_info :=
  mk_signal_info (si_name i) (si_callbacks i) (si_mutex i) v.

(** The nodes [l] after [last->next = v] on the last of them. *)
Fixpoint set_last_next (l : list (loc * signal_info)) (v : ptr)
    : list (loc * signal_info) :=
  match l with
  | [] => []
  | e :: l' =>
      match l' with
      | [] => [(fst e, with_next (snd e) v)]
      | _ :: _ => e :: set_last_next l' v
      end
  end.

(** The node that [signal_info_create] makes for [name]. *)
Definition new_signal (name : string) : signal_info :=
  mk_signal_info name [] MutexUnlocked NULL.

(** The state after a call of [pthread_mutex_init]. *)
Definition pop_result (s : state) : state :=
  mk_state (heap s) (log s) (tail (mutex_init_results s)) (calls s).

(** The state after a line of log. *)
Definition add_log (level : log_level) (msg : string) (s : state) : state :=
  mk_state (heap s) (log s ++ [(level, msg)]) (mutex_init_results s) (calls s).

(** The array after [signal_handler_connect] of the pair on it. *)
Definition connect_array (array : list signal_callback)
    (callback : fn_ptr) (data : void_ptr) : list signal_callback :=
  if signal_get_callback_idx_from array 0 callback data =? DARRAY_INVALID
  then array ++ [mk_signal_callback callback data]
  else array.

(** The array after [signal_handler_disconnect] of the pair on it. *)
Definition disconnect_array (array : list signal_callback)
    (callback : fn_ptr) (data : void_ptr) : list signal_callback :=
  let idx := signal_get_callback_idx_from array 0 callback data in
  if negb (idx =? DARRAY_INVALID) then delete (Z.to_nat idx) array else array.

(** The conditional of [signal_handler_connect] that links [sig] behind
    [last], or at [handler->first] when there is no [last]. *)
Definition link (handler : ptr) (last sig : ptr) : M unit :=
  match last with
  | None => set_first handler sig
  | Some _ => set_next last sig
  end.

(** Every signal lock of the nodes [l] is free: no call is under way on
    them. *)
Definition quiescent (l : list (loc * signal_info)) : Prop :=
  Forall (fun e => si_mutex (snd e) = MutexUnlocked) l.

(** The array of the signal [name] in the nodes [l], empty when there is no
    such signal. *)
Fixpoint callbacks_of (name : string) (l : list (loc * signal_info))
    : list signal_callback :=
  match l with
  | [] => []
  | (a, i) :: l' => if decide (si_name i = name) then si_callbacks i else callbacks_of name l'
  end.

(** The signals of a registry as the registry's users know them: where each
    one is and what its name is. *)
Definition entries (l : list (loc * signal_info)) : list (loc * string) :=
  map (fun e => (fst e, si_name (snd e))) l.

(** ** Sequences of calls on one registry *)

Inductive operation :=
| Connect (signal : string) (callback : fn_ptr) (data : void_ptr)
| Disconnect (signal : string) (callback : fn_ptr) (data : void_ptr)
| Signal (signal : string) (params : calldata_t).

Definition run_operation (handler : ptr) (op : operation) : M unit :=
  match op with
  | Connect signal callback data => signal_handler_connect handler signal callback data
  | Disconnect signal callback data => signal_handler_disconnect handler signal callback data
  | Signal signal params => signal_handler_signal handler signal params
  end.

Fixpoint run_operations (handler : ptr) (ops : list operation) : M unit :=
  match ops with
  | [] => ret tt
  | op :: ops' => run_operation handler op ;; run_operations handler ops'
  end.

Definition is_connect (op : operation) : bool :=
  match op with
  | Connect _ _ _ => true
  | _ => false
  end.

(** The state of the lock of the registry at [handler]. *)
Definition handler_lock (s : state) (handler : loc) : option pthread_mutex_t :=
  match heap s !! handler with
  | Some (OHandler h) => Some (sh_mutex h)
  | _ => None
  end.

(** ** Threads

    [signal_handler_connect] statement by statement, for calls that run at
    the same time on one registry.  A thread is a call of the function with
    its arguments and the place it has reached; the places carry the values
    of the local variables [sig] and [last] (and of [signal] and [last]
    inside [getsignal]).  One step of a thread is one statement: a lock or
    unlock, one test or iteration of the loop of [getsignal], the call of
    [signal_info_create] (the block it works on is its own until it is
    linked), the link, the test of [sig], the registration. *)

Inductive connect_pc :=
| at_lock                                  (* pthread_mutex_lock(&handler->mutex) *)
| at_getsignal                             (* signal = handler->first, last = NULL *)
| at_getsignal_loop (signal last : ptr)    (* while (signal != NULL) ... *)
| at_create (last : ptr)                   (* sig = signal_info_create(signal) *)
| at_link (sig last : ptr)                 (* if (!last) ... else ... *)
| at_check (sig : ptr)                     (* if (!sig) return *)
| at_unlock (sig : ptr)                    (* pthread_mutex_unlock(&handler->mutex) *)
| at_lock_sig (sig : ptr)                  (* pthread_mutex_lock(&sig->mutex) *)
| at_register (sig : ptr)                  (* idx = ...; if (...) da_push_back *)
| at_unlock_sig (sig : ptr)                (* pthread_mutex_unlock(&sig->mutex) *)
| returned.

Record thread := mk_thread {
  th_signal : string;
  th_callback : fn_ptr;
  th_data : void_ptr;
  th_pc : connect_pc
}.

Definition set_pc (t : thread) (pc : connect_pc) : thread :=
  mk_thread (th_signal t) (th_callback t) (th_data t) pc.

(** What a thread can do next: take a step, wait (for a mutex; it can try
    again when the state has changed), nothing because the call has
    returned, or undefined behaviour. *)
Inductive step_result :=
| Next (pc : connect_pc) (s : state)
| Waits
| Halted
| Crash.

(** The statement [m], then the place [pc] computed from its result. *)
Definition step_of {A} (m : M A) (pc : A -> connect_pc) (s : state) : step_result :=
  match m s with
  | Ret a s' => Next (pc a) s'
  | Blocks _ => Waits
  | Fault => Crash
  | Diverges => Crash
  end.

Definition connect_step (handler : ptr) (t : thread) (s : state) : step_result :=
  match th_pc t with
  | at_lock =>
      step_of (pthread_mutex_lock (handler_mutex handler)) (fun _ => at_getsignal) s
  | at_getsignal =>
      step_of (load_handler handler) (fun h => at_getsignal_loop (sh_first h) NULL) s
  | at_getsignal_loop signal last =>
      match signal with
      | None => Next (at_create last) s
      | Some _ =>
          step_of (load_signal signal)
            (fun i => if strcmp (si_name i) (th_signal t) =? 0 then at_unlock signal
                      else at_getsignal_loop (si_next i) signal) s
      end
  | at_create last =>
      step_of (signal_info_create (th_signal t)) (fun sig => at_link sig last) s
  | at_link sig last =>
      step_of (link handler last sig) (fun _ => at_check sig) s
  | at_check sig =>
      match sig with
      | None => Next returned s
      | Some _ => Next (at_unlock sig) s
      end
  | at_unlock sig =>
      step_of (pthread_mutex_unlock (handler_mutex handler)) (fun _ => at_lock_sig sig) s
  | at_lock_sig sig =>
      step_of (pthread_mutex_lock (signal_mutex sig)) (fun _ => at_register sig) s
  | at_register sig =>
      step_of (idx <- signal_get_callback_idx sig (th_callback t) (th_data t) ;;
               if idx =? DARRAY_INVALID
               then da_push_back sig (mk_signal_callback (th_callback t) (th_data t))
               else ret tt)
              (fun _ => at_unlock_sig sig) s
  | at_unlock_sig sig =>
      step_of (pthread_mutex_unlock (signal_mutex sig)) (fun _ => returned) s
  | returned => Halted
  end.

(** The places between the lock and the unlock of the registry lock. *)
Definition in_cs (pc : connect_pc) : bool :=
  match pc with
  | at_getsignal | at_getsignal_loop _ _ | at_create _ | at_link _ _
  | at_check _ | at_unlock _ => true
  | _ => false
  end.

(** The threads of a program take their steps in any order, one at a
    time. *)
Inductive sched_step (handler : ptr) : state * list thread -> state * list thread -> Prop :=
| sched_thread s ts k t pc' s' :
    ts !! k = Some t ->
    connect_step handler t s = Next pc' s' ->
    sched_step handler (s, ts) (s', <[k := set_pc t pc']> ts).

(** What a thread at its place knows of the nodes [l] of the registry. *)
Definition thread_inv (hp : gmap loc object) (l : list (loc * signal_info))
    (t : thread) : Prop :=
  match th_pc t with
  | at_getsignal_loop signal last =>
      ∃ l1 l2, l = l1 ++ l2 ∧ (th_signal t ∉ names l1) ∧
               signal = first_ptr l2 ∧ last = last_ptr NULL l1
  | at_create last =>
      (th_signal t ∉ names l) ∧ last = last_ptr NULL l
  | at_link sig last =>
      (th_signal t ∉ names l) ∧ last = last_ptr NULL l ∧
      match sig with
      | None => True
      | Some b => hp !! b = Some (OSignal (new_signal (th_signal t))) ∧ (b ∉ locs l)
      end
  | at_check sig =>
      match sig with
      | None => True
      | Some b => b ∈ locs l
      end
  | at_unlock sig | at_lock_sig sig | at_register sig | at_unlock_sig sig =>
      ∃ b, sig = Some b ∧ b ∈ locs l
  | _ => True
  end.

(** The threads [ts] on a registry with lock state [m] and nodes [l]: each
    knows what its place says, a thread between lock and unlock holds the
    lock, and there is at most one such thread. *)
Definition threads_ok (hp : gmap loc object) (m : pthread_mutex_t)
    (l : list (loc * signal_info)) (ts : list thread) : Prop :=
  (∀ k t, ts !! k = Some t ->
     thread_inv hp l t ∧ (in_cs (th_pc t) = true -> m = MutexLocked)) ∧
  (∀ k1 k2 t1 t2, ts !! k1 = Some t1 -> ts !! k2 = Some t2 ->
     in_cs (th_pc t1) = true -> in_cs (th_pc t2) = true -> k1 = k2).

(** The invariant of the concurrent runs. *)
Definition concurrent_inv (handler : loc) (s : state) (ts : list thread) : Prop :=
  ∃ m l, registry s handler m l ∧ NoDup (names l) ∧ threads_ok (heap s) m l ts.

(** What is left of [signal_handler_connect] once [getsignal] has given
    [r]: the function is the lock, [getsignal], then this. *)
Definition signal_handler_connect_rest (handler : ptr) (signal : string)
    (callback : fn_ptr) (data : void_ptr) (r : ptr * ptr) : M unit :=
  let (sig, last) := r in
  match sig with
  | None =>
      sig <- signal_info_create signal ;;
      match last with
      | None => set_first handler sig
      | Some _ => set_next last sig
      end ;;
      match sig with
      | None => ret tt
      | Some _ =>
          pthread_mutex_unlock (handler_mutex handler) ;;
          signal_handler_connect_register sig callback data
      end
  | Some _ =>
      pthread_mutex_unlock (handler_mutex handler) ;;
      signal_handler_connect_register sig callback data
  end.

(** A thread that runs alone: it takes its steps until the call returns;
    when it has to wait there is nobody to wake it.  [fuel] bounds the
    number of steps. *)
Fixpoint run_thread (fuel : nat) (handler : ptr) (t : thread) (s : state)
    : outcome unit :=
  match fuel with
  | O => Diverges
  | S fuel' =>
      match connect_step handler t s with
      | Next pc' s' => run_thread fuel' handler (set_pc t pc') s'
      | Waits => Blocks s
      | Halted => Ret tt s
      | Crash => Fault
      end
  end.

(** The run in which the threads [sched] take one step each, in that
    order; a thread that cannot step is passed over. *)
Fixpoint run_schedule (handler : ptr) (sched : list nat) (c : state * list thread)
    : state * list thread :=
  match sched with
  | [] => c
  | k :: sched' =>
      match snd c !! k with
      | Some t =>
          match connect_step handler t (fst c) with
          | Next pc' s' => run_schedule handler sched' (s', <[k := set_pc t pc']> (snd c))
          | _ => run_schedule handler sched' c
          end
      | None => run_schedule handler sched' c
      end
  end.

(** ** States and programs of the examples *)

(** The callback [f] and the payload [P] of the scenario of the
    specification. *)
Definition f : fn_ptr := 100.
Definition P : calldata_t := 7.

(** A registry at location 1 without signals. *)
Definition empty_registry : state :=
  mk_state (<[1%positive := OHandler (mk_signal_handler NULL MutexUnlocked)]> ∅) [] [] [].

(** The same registry when the next [pthread_mutex_init] fails (with
    [ENOMEM]). *)
Definition empty_registry_failing : state :=
  mk_state (<[1%positive := OHandler (mk_signal_handler NULL MutexUnlocked)]> ∅) [] [12] [].

(** The signal ["changed"] with [(f, 1)] and [(f, 2)] connected. *)
Definition changed : signal_info :=
  mk_signal_info "changed" [mk_signal_callback f 1; mk_signal_callback f 2]
                 MutexUnlocked NULL.

(** A registry at location 1 with the signal ["changed"] at location 2. *)
Definition one_signal : state :=
  mk_state (<[2%positive := OSignal changed]>
              (<[1%positive := OHandler (mk_signal_handler (Some 2%positive) MutexUnlocked)]> ∅))
           [] [] [].

Definition one_signal_failing : state :=
  mk_state (heap one_signal) [] [12] [].

(** The scenario of the specification: create a registry, connect [(f, 1)]
    and [(f, 2)] to ["changed"], emit, disconnect [(f, 1)], emit again,
    destroy the registry. *)
Definition scenario : M unit :=
  handler <- signal_handler_create ;;
  signal_handler_connect handler "changed" f 1 ;;
  signal_handler_connect handler "changed" f 2 ;;
  signal_handler_signal handler "changed" P ;;
  signal_handler_disconnect handler "changed" f 1 ;;
  signal_handler_signal handler "changed" P ;;
  signal_handler_destroy handler.

(** Two threads that connect [(f, 1)] and [(f, 2)] to the same new name. *)
Definition two_threads : list thread :=
  [mk_thread "changed" f 1 at_lock; mk_thread "changed" f 2 at_lock].

(** A schedule of the two threads: they take turns, one statement at a
    time, until both calls have returned; the thread that finds the lock
    held is passed over until the lock is free. *)
Definition interleaving : list nat :=
  [0; 1; 0; 1; 0; 1; 0; 1; 0; 1; 0; 1; 0; 1; 0; 1; 0; 1; 0; 1;
   0; 1; 0; 1; 0; 1; 0; 1; 0; 1; 0; 1; 0; 1; 0; 1; 0; 1; 0; 1]%nat.

(** ** Further notions *)

(** The nodes [l] after the array of the first node named [name] has become
    [f] of what it was. *)
Fixpoint update_callbacks (name : string)
    (f : list signal_callback -> list signal_callback)
    (l : list (loc * signal_info)) : list (loc * signal_info) :=
  match l with
  | [] => []
  | (a, i) :: l' =>
      if decide (si_name i = name)
      then (a, with_callbacks i (f (si_callbacks i))) :: l'
      else (a, i) :: update_callbacks name f l'
  end.

(** No pair is twice on an array of the nodes [l]. *)
Definition arrays_nodup (l : list (loc * signal_info)) : Prop :=
  Forall (fun e => NoDup (si_callbacks (snd e))) l.

(** Every array of the nodes [l] can take [n] more elements before its
    number of elements reaches [DARRAY_INVALID], and so can a new array. *)
Definition room (n : nat) (l : list (loc * signal_info)) : Prop :=
  Z.of_nat n <= DARRAY_INVALID ∧
  Forall (fun e => Z.of_nat (length (si_callbacks (snd e))) + Z.of_nat n <= DARRAY_INVALID) l.

(** The whole life of a registry: it is created, used and destroyed. *)
Definition lifetime (ops : list operation) : M unit :=
  handler <- signal_handler_create ;;
  run_operations handler ops ;;
  signal_handler_destroy handler.

(** Between the states [s0] and [s] the heap has changed in the registry
    at [handler] with the nodes [l] only, and the blocks of that registry
    were free in [s0]. *)
Definition owned (s0 s : state) (handler : loc) (l : list (loc * signal_info)) : Prop :=
  (∀ a, a ∈ handler :: locs l -> heap s0 !! a = None) ∧
  (∀ a, a ∉ handler :: locs l -> heap s !! a = heap s0 !! a).

(** Every coming [pthread_mutex_init] succeeds. *)
Definition inits_succeed (s : state) : Prop :=
  Forall (fun rc => rc = 0) (mutex_init_results s).

(** The signal ["changed"] while a call holds its lock, and the registry
    with it. *)
Definition changed_held : signal_info :=
  mk_signal_info "changed" [mk_signal_callback f 1; mk_signal_callback f 2]
                 MutexLocked NULL.

Definition one_signal_held : state :=
  mk_state (<[2%positive := OSignal changed_held]>
              (<[1%positive := OHandler (mk_signal_handler (Some 2%positive) MutexUnlocked)]> ∅))
           [] [] [].

(** ** Threads and the locks of the signals *)

(** The signal whose lock a thread at its place holds: the places between
    the lock and the unlock of [sig->mutex]. *)
Definition holds (pc : connect_pc) : ptr :=
  match pc with
  | at_register sig | at_unlock_sig sig => sig
  | _ => NULL
  end.

(** The signal that a thread at its place has found or linked for its
    name. *)
Definition target (pc : connect_pc) : ptr :=
  match pc with
  | at_check sig | at_unlock sig | at_lock_sig sig | at_register sig
  | at_unlock_sig sig => sig
  | _ => NULL
  end.

(** What one step of the thread [t] does to the [struct signal_info] at
    [x], [i] before the step and [i'] after it: the name stays; the lock
    goes from free to held in the step that locks this signal and back in
    the step that unlocks it; the array changes in the registration on this
    signal, the way [signal_handler_connect] changes it. *)
Definition node_step (t : thread) (x : loc) (i i' : signal_info) : Prop :=
  si_name i' = si_name i ∧
  match th_pc t with
  | at_lock_sig (Some y) =>
      si_callbacks i' = si_callbacks i ∧
      if decide (y = x) then si_mutex i = MutexUnlocked ∧ si_mutex i' = MutexLocked
      else si_mutex i' = si_mutex i
  | at_unlock_sig (Some y) =>
      si_callbacks i' = si_callbacks i ∧
      if decide (y = x) then si_mutex i = MutexLocked ∧ si_mutex i' = MutexUnlocked
      else si_mutex i' = si_mutex i
  | at_register (Some y) =>
      si_mutex i' = si_mutex i ∧
      si_callbacks i' =
        if decide (y = x)
        then connect_array (si_callbacks i) (th_callback t) (th_data t)
        else si_callbacks i
  | _ => si_callbacks i' = si_callbacks i ∧ si_mutex i' = si_mutex i
  end.

(** The locks of the signals at [ls] and the threads [ts]: every lock is
    initialised, the lock that a thread holds is held, and no lock is held
    by two threads. *)
Definition locks_ok (hp : gmap loc object) (ls : list loc) (ts : list thread) : Prop :=
  (∀ x, x ∈ ls -> ∃ i, hp !! x = Some (OSignal i) ∧ si_mutex i ≠ MutexUninit) ∧
  (∀ k t b, ts !! k = Some t -> holds (th_pc t) = Some b ->
     ∃ i, hp !! b = Some (OSignal i) ∧ si_mutex i = MutexLocked) ∧
  (∀ k1 k2 t1 t2 b, ts !! k1 = Some t1 -> ts !! k2 = Some t2 ->
     holds (th_pc t1) = Some b -> holds (th_pc t2) = Some b -> k1 = k2).

(** What the threads [ts] have reached: the signal that a thread has found
    or linked has the thread's name, and once the thread has made its
    registration its pair is on the array of that signal. *)
Definition registered (hp : gmap loc object) (ts : list thread) : Prop :=
  ∀ k t b, ts !! k = Some t ->
    (target (th_pc t) = Some b ->
     ∃ i, hp !! b = Some (OSignal i) ∧ si_name i = th_signal t) ∧
    (th_pc t = at_unlock_sig (Some b) ->
     ∃ i, hp !! b = Some (OSignal i) ∧
          connected (th_callback t) (th_data t) (si_callbacks i)).

(** The invariant of the concurrent runs with the locks of the signals. *)
Definition connect_inv (handler : loc) (s : state) (ts : list thread) : Prop :=
  ∃ m l, registry s handler m l ∧ NoDup (names l) ∧ m ≠ MutexUninit ∧
         threads_ok (heap s) m l ts ∧ locks_ok (heap s) (locs l) ts.

(** The locks of the signals [l] have been initialised. *)
Definition initialised (l : list (loc * signal_info)) : Prop :=
  Forall (fun e => si_mutex (snd e) ≠ MutexUninit) l.

(** The places of a call whose [signal_info_create] has given [NULL]. *)
Definition failed (pc : connect_pc) : bool :=
  match pc with
  | at_link None _ | at_check None => true
  | _ => false
  end.

(** Every held lock has its thread: a thread between the lock and the
    unlock of the registry lock [m] if that is held, and for each signal at
    [ls] whose lock is held a thread that holds it. *)
Definition lock_holders (m : pthread_mutex_t) (hp : gmap loc object)
    (ls : list loc) (ts : list thread) : Prop :=
  (m = MutexLocked -> ∃ k t, ts !! k = Some t ∧ in_cs (th_pc t) = true) ∧
  (∀ x i, x ∈ ls -> hp !! x = Some (OSignal i) -> si_mutex i = MutexLocked ->
     ∃ k t, ts !! k = Some t ∧ holds (th_pc t) = Some x).

(** The invariant of the runs in which every [pthread_mutex_init]
    succeeds. *)
Definition progress_inv (handler : loc) (s : state) (ts : list thread) : Prop :=
  inits_succeed s ∧
  (∀ k t, ts !! k = Some t -> failed (th_pc t) = false) ∧
  ∃ m l, registry s handler m l ∧ lock_holders m (heap s) (locs l) ts.

(** ** The length of the runs *)

(** The number of the nodes at [ls] from [a] on. *)
Fixpoint nodes_from (a : loc) (ls : list loc) : nat :=
  match ls with
  | [] => 0
  | x :: ls' => if decide (x = a) then length ls else nodes_from a ls'
  end.

(** A bound on the statements that a call at its place has still to take,
    on a registry with the nodes [ls] that never has more than [K] nodes:
    the loop of [getsignal] goes once through each node from [signal]
    on. *)
Definition steps_left (K : nat) (ls : list loc) (pc : connect_pc) : nat :=
  match pc with
  | at_lock => K + 12
  | at_getsignal => K + 11
  | at_getsignal_loop signal _ =>
      match signal with
      | None => 10
      | Some a => nodes_from a ls + 10
      end
  | at_create _ => 9
  | at_link _ _ => 8
  | at_check _ => 7
  | at_unlock _ => 6
  | at_lock_sig _ => 5
  | at_register _ => 4
  | at_unlock_sig _ => 3
  | returned => 0
  end.

(** The nodes that a call at its place can still add to the registry. *)
Definition links_left (pc : connect_pc) : nat :=
  match pc with
  | at_lock | at_getsignal | at_getsignal_loop _ _ | at_create _ | at_link _ _ => 1
  | _ => 0
  end.

(** The sum of [f] over the places of the threads. *)
Definition total (f : connect_pc -> nat) (ts : list thread) : nat :=
  sum_list_with (fun t => f (th_pc t)) ts.

(** The number of the steps that [run_schedule] takes. *)
Fixpoint run_length (handler : ptr) (sched : list nat) (c : state * list thread)
    : nat :=
  match sched with
  | [] => 0
  | k :: sched' =>
      match snd c !! k with
      | Some t =>
          match connect_step handler t (fst c) with
          | Next pc' s' =>
              S (run_length handler sched' (s', <[k := set_pc t pc']> (snd c)))
          | _ => run_length handler sched' c
          end
      | None => run_length handler sched' c
      end
  end.

(** ** Running a computation *)

Lemma bind_Ret {A B} (m : M A) (k : A -> M B) s a s1 o :
  m s = Ret a s1 -> k a s1 = o -> bind m k s = o.
Proof. intros Hm Hk. unfold bind. now rewrite Hm. Qed.

Lemma bind_Blocks {A B} (m : M A) (k : A -> M B) s s1 :
  m s = Blocks s1 -> bind m k s = Blocks s1.
Proof. intros Hm. unfold bind. now rewrite Hm. Qed.

Lemma bind_Fault {A B} (m : M A) (k : A -> M B) s :
  m s = Fault -> bind m k s = Fault.
Proof. intros Hm. unfold bind. now rewrite Hm. Qed.

Lemma set_heap_id s : set_heap (fun h => h) s = s.
Proof. now destruct s. Qed.

Lemma state_eq s h :
  h = heap s -> mk_state h (log s) (mutex_init_results s) (calls s) = s.
Proof. intros ->. now destruct s. Qed.

Lemma load_handler_eq s a h :
  heap s !! a = Some (OHandler h) -> load_handler (Some a) s = Ret h s.
Proof. intros H. unfold load_handler. now rewrite H. Qed.

Lemma store_handler_eq s a h h' :
  heap s !! a = Some (OHandler h) ->
  store_handler (Some a) h' s = Ret tt (set_heap (insert a (OHandler h')) s).
Proof. intros H. unfold store_handler. now rewrite H. Qed.

Lemma load_signal_eq s a i :
  heap s !! a = Some (OSignal i) -> load_signal (Some a) s = Ret i s.
Proof. intros H. unfold load_signal. now rewrite H. Qed.

Lemma store_signal_eq s a i i' :
  heap s !! a = Some (OSignal i) ->
  store_signal (Some a) i' s = Ret tt (set_heap (insert a (OSignal i')) s).
Proof. intros H. unfold store_signal. now rewrite H. Qed.

Lemma heap_set_heap f s : heap (set_heap f s) = f (heap s).
Proof. reflexivity. Qed.

Lemma set_heap_set_heap f g s :
  set_heap f (set_heap g s) = set_heap (fun h => f (g h)) s.
Proof. reflexivity. Qed.

Ltac run_prim H :=
  unfold pthread_mutex_lock, pthread_mutex_unlock, pthread_mutex_destroy,
    load_mutex, store_mutex, set_first, set_next, set_name, set_callbacks,
    bind, ret, load_handler, store_handler, load_signal, store_signal;
  simpl; rewrite ?H; simpl; rewrite ?H; simpl; try reflexivity.

(** Locking and unlocking [&handler->mutex]. *)
Lemma lock_handler_eq s a p :
  heap s !! a = Some (OHandler (mk_signal_handler p MutexUnlocked)) ->
  pthread_mutex_lock (handler_mutex (Some a)) s =
  Ret tt (set_heap (insert a (OHandler (mk_signal_handler p MutexLocked))) s).
Proof. intros H. run_prim H. Qed.

Lemma lock_handler_held s a p :
  heap s !! a = Some (OHandler (mk_signal_handler p MutexLocked)) ->
  pthread_mutex_lock (handler_mutex (Some a)) s = Blocks s.
Proof. intros H. run_prim H. Qed.

Lemma unlock_handler_eq s a p :
  heap s !! a = Some (OHandler (mk_signal_handler p MutexLocked)) ->
  pthread_mutex_unlock (handler_mutex (Some a)) s =
  Ret tt (set_heap (insert a (OHandler (mk_signal_handler p MutexUnlocked))) s).
Proof. intros H. run_prim H. Qed.

(** Locking and unlocking [&si->mutex]. *)
Lemma lock_signal_eq s a n cbs nx :
  heap s !! a = Some (OSignal (mk_signal_info n cbs MutexUnlocked nx)) ->
  pthread_mutex_lock (signal_mutex (Some a)) s =
  Ret tt (set_heap (insert a (OSignal (mk_signal_info n cbs MutexLocked nx))) s).
Proof. intros H. run_prim H. Qed.

Lemma lock_signal_held s a n cbs nx :
  heap s !! a = Some (OSignal (mk_signal_info n cbs MutexLocked nx)) ->
  pthread_mutex_lock (signal_mutex (Some a)) s = Blocks s.
Proof. intros H. run_prim H. Qed.

Lemma unlock_signal_eq s a n cbs nx :
  heap s !! a = Some (OSignal (mk_signal_info n cbs MutexLocked nx)) ->
  pthread_mutex_unlock (signal_mutex (Some a)) s =
  Ret tt (set_heap (insert a (OSignal (mk_signal_info n cbs MutexUnlocked nx))) s).
Proof. intros H. run_prim H. Qed.

Lemma set_first_eq s a h v :
  heap s !! a = Some (OHandler h) ->
  set_first (Some a) v s =
  Ret tt (set_heap (insert a (OHandler (mk_signal_handler v (sh_mutex h)))) s).
Proof. intros H. run_prim H. Qed.

Lemma set_next_eq s a i v :
  heap s !! a = Some (OSignal i) ->
  set_next (Some a) v s =
  Ret tt (set_heap (insert a (OSignal
    (mk_signal_info (si_name i) (si_callbacks i) (si_mutex i) v))) s).
Proof. intros H. run_prim H. Qed.

Lemma set_callbacks_eq s a i v :
  heap s !! a = Some (OSignal i) ->
  set_callbacks (Some a) v s =
  Ret tt (set_heap (insert a (OSignal
    (mk_signal_info (si_name i) v (si_mutex i) (si_next i)))) s).
Proof. intros H. run_prim H. Qed.

Lemma string_compare_refl a : String.compare a a = Eq.
Proof.
  pose proof (String.compare_antisym a a) as H.
  destruct (String.compare a a); simpl in H; congruence.
Qed.

Lemma strcmp_eq a b : (strcmp a b =? 0) = true <-> a = b.
Proof.
  unfold strcmp. split.
  - intros H. apply String.compare_eq_iff.
    destruct (String.compare a b); [reflexivity | discriminate H | discriminate H].
  - intros ->. now rewrite string_compare_refl.
Qed.

Lemma strcmp_neq a b : (strcmp a b =? 0) = false <-> a <> b.
Proof.
  rewrite <- strcmp_eq. destruct (strcmp a b =? 0); split; congruence.
Qed.

(** ** Chains *)

Lemma chain_lookup h p l a i :
  chain h p l -> (a, i) ∈ l -> h !! a = Some (OSignal i).
Proof.
  revert p. induction l as [|[b j] l IH]; intros p Hc Hin.
  - inversion Hin.
  - destruct Hc as (-> & Hb & Hc). apply elem_of_cons in Hin as [Heq | Hin].
    + now inversion Heq; subst.
    + eauto.
Qed.

Lemma chain_lookup_loc h p l a :
  chain h p l -> a ∈ locs l -> ∃ i, (a, i) ∈ l ∧ h !! a = Some (OSignal i).
Proof.
  intros Hc Hin. unfold locs in Hin. apply list_elem_of_fmap in Hin as ([b i] & -> & Hin).
  exists i. split; [exact Hin | eapply chain_lookup; eauto].
Qed.

Lemma chain_functional h p l1 l2 : chain h p l1 -> chain h p l2 -> l1 = l2.
Proof.
  revert p l2. induction l1 as [|[a i] l1 IH]; intros p [|[b j] l2] H1 H2; simpl in *.
  - reflexivity.
  - destruct H2 as (-> & _). discriminate.
  - destruct H1 as (-> & _). discriminate.
  - destruct H1 as (-> & Ha & H1), H2 as (Hb & Hb' & H2).
    inversion Hb; subst b. rewrite Ha in Hb'. inversion Hb'; subst j.
    f_equal. eauto.
Qed.

(** The part of a chain from one of its nodes on is a chain. *)
Lemma chain_suffix h p l1 l2 :
  chain h p (l1 ++ l2) ->
  chain h (match l2 with [] => NULL | e :: _ => Some (fst e) end) l2.
Proof.
  revert p. induction l1 as [|[a i] l1 IH]; intros p Hc; simpl in *.
  - destruct l2 as [|[b j] l2]; simpl in *; [reflexivity|].
    destruct Hc as (_ & Hb & Hc). auto.
  - destruct Hc as (_ & _ & Hc). eauto.
Qed.

(** A chain that ends in [NULL] visits no node twice. *)
Lemma chain_NoDup h p l : chain h p l -> NoDup (locs l).
Proof.
  revert p. induction l as [|[a i] l IH]; intros p Hc; simpl.
  - constructor.
  - destruct Hc as (-> & Ha & Hc). constructor; [|eauto].
    intros Hin. unfold locs in Hin.
    apply list_elem_of_fmap in Hin as ([b j] & Hb & Hin). simpl in Hb. subst b.
    apply list_elem_of_split in Hin as (l1 & l2 & ->).
    pose proof (chain_suffix _ _ _ _ Hc) as Hs. simpl in Hs.
    destruct Hs as (_ & Ha' & Hs). rewrite Ha in Ha'. inversion Ha'; subst j.
    pose proof (chain_functional _ _ _ _ Hc Hs) as Heq.
    apply (f_equal length) in Heq. rewrite length_app in Heq. simpl in Heq. lia.
Qed.

(** A store outside the chain leaves it as it is. *)
Lemma chain_insert_frame h p l a o :
  a ∉ locs l -> chain h p l -> chain (<[a:=o]> h) p l.
Proof.
  revert p. induction l as [|[b j] l IH]; intros p Hn Hc; simpl in *; [exact Hc|].
  destruct Hc as (-> & Hb & Hc). apply not_elem_of_cons in Hn as [Hne Hn].
  split; [reflexivity|]. split; [|eauto].
  now rewrite lookup_insert_ne.
Qed.

Lemma chain_delete_frame h p l a :
  a ∉ locs l -> chain h p l -> chain (delete a h) p l.
Proof.
  revert p. induction l as [|[b j] l IH]; intros p Hn Hc; simpl in *; [exact Hc|].
  destruct Hc as (-> & Hb & Hc). apply not_elem_of_cons in Hn as [Hne Hn].
  split; [reflexivity|]. split; [|eauto].
  now rewrite lookup_delete_ne.
Qed.

(** A store into a node that keeps its [next] keeps the chain, with the
    node's new contents. *)
Lemma chain_update h p l1 a i l2 i' :
  si_next i' = si_next i ->
  chain h p (l1 ++ (a, i) :: l2) ->
  chain (<[a:=OSignal i']> h) p (l1 ++ (a, i') :: l2).
Proof.
  intros Hnx Hc. pose proof (chain_NoDup _ _ _ Hc) as Hnd.
  revert p Hc Hnd. induction l1 as [|[b j] l1 IH]; intros p Hc Hnd; simpl in *.
  - destruct Hc as (-> & Ha & Hc). split; [reflexivity|].
    split; [apply lookup_insert_eq|]. rewrite Hnx.
    apply chain_insert_frame; [|exact Hc]. now inversion Hnd.
  - destruct Hc as (-> & Hb & Hc). inversion Hnd as [|? ? Hnb Hnd']; subst.
    split; [reflexivity|]. split; [|eauto].
    rewrite lookup_insert_ne; [exact Hb|].
    intros ->. apply Hnb. unfold locs. rewrite fmap_app. apply elem_of_app. right. simpl. left.
Qed.

(** Linking a new node behind the last one. *)
Lemma chain_snoc h p l a i b j :
  chain h p (l ++ [(a, i)]) ->
  b ∉ locs (l ++ [(a, i)]) ->
  si_next j = NULL ->
  chain (<[a:=OSignal (mk_signal_info (si_name i) (si_callbacks i) (si_mutex i) (Some b))]>
           (<[b:=OSignal j]> h)) p
        (l ++ [(a, mk_signal_info (si_name i) (si_callbacks i) (si_mutex i) (Some b)); (b, j)]).
Proof.
  intros Hc Hb Hj. pose proof (chain_NoDup _ _ _ Hc) as Hnd.
  revert p Hc Hnd Hb. induction l as [|[c k] l IH]; intros p Hc Hnd Hb; simpl in *.
  - destruct Hc as (-> & Ha & Hc). apply not_elem_of_cons in Hb as [Hne _].
    split; [reflexivity|]. split; [apply lookup_insert_eq|]. simpl.
    split; [reflexivity|]. split; [|exact Hj].
    rewrite lookup_insert_ne by congruence. apply lookup_insert_eq.
  - destruct Hc as (-> & Hk & Hc). inversion Hnd as [|? ? Hnc Hnd']; subst.
    apply not_elem_of_cons in Hb as [Hne Hb].
    split; [reflexivity|]. split; [|eauto].
    rewrite !lookup_insert_ne; [exact Hk| congruence |].
    intros ->. apply Hnc. unfold locs. rewrite fmap_app. apply elem_of_app. right. simpl. left.
Qed.

(** Every node of a chain is a block of the heap, so a chain is no longer
    than the heap is large. *)
Lemma chain_length h p l : chain h p l -> (length l <= size h)%nat.
Proof.
  intros Hc. pose proof (chain_NoDup _ _ _ Hc) as Hnd.
  assert (Hsub : locs l ⊆ elements (dom h)).
  { intros a Ha. apply elem_of_elements, elem_of_dom.
    destruct (chain_lookup_loc _ _ _ _ Hc Ha) as (i & _ & Hi). eauto. }
  pose proof (submseteq_length _ _ (NoDup_submseteq _ _ Hnd Hsub)) as Hlen.
  unfold locs in Hlen. rewrite length_fmap in Hlen.
  rewrite <- size_dom. exact Hlen.
Qed.

(** ** [getsignal] *)

Lemma last_ptr_snoc last l e : last_ptr last (l ++ [e]) = Some (fst e).
Proof. revert last. induction l as [|x l IH]; intros last; simpl; auto. Qed.

Lemma names_app l1 l2 : names (l1 ++ l2) = names l1 ++ names l2.
Proof. unfold names. apply map_app. Qed.

Lemma locs_app l1 l2 : locs (l1 ++ l2) = locs l1 ++ locs l2.
Proof. unfold locs. apply map_app. Qed.

(** The name is not in the chain: the loop runs to its end. *)
Lemma getsignal_loop_absent fuel s name p last l :
  chain (heap s) p l -> name ∉ names l -> (length l <= fuel)%nat ->
  getsignal_loop fuel name p last s = Ret (NULL, last_ptr last l) s.
Proof.
  revert fuel p last. induction l as [|[a i] l IH]; intros fuel p last Hc Hn Hf; simpl in *.
  - subst p. now destruct fuel.
  - destruct Hc as (-> & Ha & Hc). destruct fuel as [|fuel]; [lia|]. simpl.
    apply not_elem_of_cons in Hn as [Hne Hn].
    eapply bind_Ret; [apply load_signal_eq; eassumption|].
    assert (He : (strcmp (si_name i) name =? 0) = false) by (apply strcmp_neq; congruence).
    rewrite He. apply IH; [exact Hc | exact Hn | lia].
Qed.

(** The name is in the chain: the loop stops at the first node that has
    it. *)
Lemma getsignal_loop_found fuel s name p last l1 a i l2 :
  chain (heap s) p (l1 ++ (a, i) :: l2) -> name ∉ names l1 -> si_name i = name ->
  (length l1 < fuel)%nat ->
  getsignal_loop fuel name p last s = Ret (Some a, last_ptr last l1) s.
Proof.
  revert fuel p last. induction l1 as [|[b j] l1 IH]; intros fuel p last Hc Hn Hi Hf; simpl in *.
  - destruct Hc as (-> & Ha & Hc). destruct fuel as [|fuel]; [lia|]. simpl.
    eapply bind_Ret; [apply load_signal_eq; eassumption|].
    assert (He : (strcmp (si_name i) name =? 0) = true) by now apply strcmp_eq.
    now rewrite He.
  - destruct Hc as (-> & Hb & Hc). destruct fuel as [|fuel]; [lia|]. simpl.
    apply not_elem_of_cons in Hn as [Hne Hn].
    eapply bind_Ret; [apply load_signal_eq; eassumption|].
    assert (He : (strcmp (si_name j) name =? 0) = false) by (apply strcmp_neq; congruence).
    rewrite He. apply IH; [exact Hc | exact Hn | exact Hi | lia].
Qed.

Lemma getsignal_absent s handler m l name :
  registry s handler m l -> name ∉ names l ->
  getsignal (Some handler) name s = Ret (NULL, last_ptr NULL l) s.
Proof.
  intros (p & Hh & Hc) Hn. unfold getsignal.
  eapply bind_Ret; [apply load_handler_eq; eassumption|]. cbv beta.
  change (sh_first (mk_signal_handler p m)) with p.
  apply getsignal_loop_absent; [exact Hc | exact Hn |].
  pose proof (chain_length _ _ _ Hc). lia.
Qed.

Lemma getsignal_found s handler m l1 a i l2 name :
  registry s handler m (l1 ++ (a, i) :: l2) -> name ∉ names l1 -> si_name i = name ->
  getsignal (Some handler) name s = Ret (Some a, last_ptr NULL l1) s.
Proof.
  intros (p & Hh & Hc) Hn Hi. unfold getsignal.
  eapply bind_Ret; [apply load_handler_eq; eassumption|]. cbv beta.
  change (sh_first (mk_signal_handler p m)) with p.
  eapply getsignal_loop_found; [exact Hc | exact Hn | exact Hi |].
  pose proof (chain_length _ _ _ Hc) as Hl. rewrite length_app in Hl. simpl in Hl. lia.
Qed.

(** A name is either absent from a list of nodes or has a first node. *)
Lemma names_split name l :
  name ∉ names l ∨
  (∃ l1 a i l2, l = l1 ++ (a, i) :: l2 ∧ (name ∉ names l1) ∧ si_name i = name).
Proof.
  induction l as [|[a i] l IH]; simpl.
  - left. apply not_elem_of_nil.
  - destruct (decide (si_name i = name)) as [He | Hne].
    + right. exists [], a, i, l. split; [reflexivity|]. split; [apply not_elem_of_nil | exact He].
    + destruct IH as [Hn | (l1 & b & j & l2 & -> & Hn & Hj)].
      * left. apply not_elem_of_cons. split; [congruence | exact Hn].
      * right. exists ((a, i) :: l1), b, j, l2. split; [reflexivity|].
        split; [|exact Hj]. simpl. apply not_elem_of_cons. split; [congruence | exact Hn].
Qed.

(** The handler is not one of its nodes. *)
Lemma registry_handler_fresh s handler m l :
  registry s handler m l -> handler ∉ locs l.
Proof.
  intros (p & Hh & Hc) Hin.
  destruct (chain_lookup_loc _ _ _ _ Hc Hin) as (i & _ & Hi). congruence.
Qed.

(** ** The registry lock around a lookup *)

Lemma chain_first h p l : chain h p l -> p = first_ptr l.
Proof. destruct l as [|[a i] l]; simpl; [auto | now intros (-> & _)]. Qed.

Lemma registry_lookup s handler m l :
  registry s handler m l ->
  heap s !! handler = Some (OHandler (mk_signal_handler (first_ptr l) m)).
Proof. intros (p & Hh & Hc). now rewrite <- (chain_first _ _ _ Hc). Qed.

Lemma registry_chain s handler m l :
  registry s handler m l -> chain (heap s) (first_ptr l) l.
Proof. intros (p & Hh & Hc). now rewrite <- (chain_first _ _ _ Hc). Qed.

(** Changing the state of the registry lock keeps the registry. *)
Lemma registry_set_mutex s handler m m' l :
  registry s handler m l ->
  registry (set_heap (insert handler (OHandler (mk_signal_handler (first_ptr l) m'))) s)
           handler m' l.
Proof.
  intros Hr. exists (first_ptr l). simpl. split; [apply lookup_insert_eq|].
  apply chain_insert_frame; [eapply registry_handler_fresh; eauto|].
  eapply registry_chain; eauto.
Qed.

Lemma set_heap_insert_cancel s a o o' :
  heap s !! a = Some o ->
  set_heap (insert a o) (set_heap (insert a o') s) = s.
Proof.
  intros H. destruct s as [h lg rs cs]; unfold set_heap; simpl in *.
  f_equal. rewrite insert_insert_eq. now apply insert_id.
Qed.

Lemma find_signal_absent name l : name ∉ names l -> find_signal name l = NULL.
Proof.
  induction l as [|[a i] l IH]; simpl; [reflexivity|]. intros Hn.
  apply not_elem_of_cons in Hn as [Hne Hn]. destruct (decide (si_name i = name)); [congruence | auto].
Qed.

Lemma find_signal_found name l1 a i l2 :
  name ∉ names l1 -> si_name i = name -> find_signal name (l1 ++ (a, i) :: l2) = Some a.
Proof.
  induction l1 as [|[b j] l1 IH]; simpl; intros Hn Hi.
  - destruct (decide (si_name i = name)); [reflexivity | congruence].
  - apply not_elem_of_cons in Hn as [Hne Hn].
    destruct (decide (si_name j = name)); [congruence | auto].
Qed.

Lemma getsignal_fst s handler m l name :
  registry s handler m l ->
  ∃ last, getsignal (Some handler) name s = Ret (find_signal name l, last) s.
Proof.
  intros Hr. destruct (names_split name l) as [Hn | (l1 & a & i & l2 & -> & Hn & Hi)].
  - rewrite (find_signal_absent _ _ Hn). eexists. eapply getsignal_absent; eauto.
  - rewrite (find_signal_found _ _ _ _ _ Hn Hi). eexists. eapply getsignal_found; eauto.
Qed.

(** [getsignal_locked] on a registry whose lock is free: the lookup, and the
    state as it was. *)
Lemma getsignal_locked_eq s handler l name :
  registry s handler MutexUnlocked l ->
  getsignal_locked (Some handler) name s = Ret (find_signal name l) s.
Proof.
  intros Hr. pose proof (registry_lookup _ _ _ _ Hr) as Hh. unfold getsignal_locked.
  eapply bind_Ret; [apply lock_handler_eq; exact Hh|].
  pose proof (registry_set_mutex _ _ _ MutexLocked _ Hr) as Hr'.
  destruct (getsignal_fst _ _ _ _ name Hr') as (last & Hg).
  eapply bind_Ret; [exact Hg|].
  eapply bind_Ret; [apply unlock_handler_eq; apply (registry_lookup _ _ _ _ Hr')|].
  unfold ret. simpl fst. f_equal. now apply set_heap_insert_cancel.
Qed.

(** [getsignal_locked] on a registry whose lock is held never returns. *)
Lemma getsignal_locked_held s handler l name :
  registry s handler MutexLocked l ->
  getsignal_locked (Some handler) name s = Blocks s.
Proof.
  intros Hr. pose proof (registry_lookup _ _ _ _ Hr) as Hh. unfold getsignal_locked.
  apply bind_Blocks. eapply lock_handler_held; eauto.
Qed.

(** ** [signal_get_callback_idx] *)

Lemma callback_match sc callback data :
  (sc_callback sc =? callback) && (sc_data sc =? data) = true <->
  sc = mk_signal_callback callback data.
Proof.
  destruct sc as [c d]; simpl. rewrite andb_true_iff, !Z.eqb_eq.
  split; [intros [-> ->]; reflexivity | intros H; inversion H; auto].
Qed.

Lemma signal_get_callback_idx_from_found c1 c2 k callback data :
  mk_signal_callback callback data ∉ c1 ->
  signal_get_callback_idx_from (c1 ++ mk_signal_callback callback data :: c2) k callback data
  = k + Z.of_nat (length c1).
Proof.
  revert k. induction c1 as [|sc c1 IH]; intros k Hn; simpl.
  - rewrite !Z.eqb_refl. simpl. lia.
  - apply not_elem_of_cons in Hn as [Hne Hn].
    destruct ((sc_callback sc =? callback) && (sc_data sc =? data)) eqn:E.
    + apply callback_match in E. congruence.
    + rewrite IH by exact Hn. lia.
Qed.

Lemma signal_get_callback_idx_from_absent array k callback data :
  mk_signal_callback callback data ∉ array ->
  signal_get_callback_idx_from array k callback data = DARRAY_INVALID.
Proof.
  revert k. induction array as [|sc c1 IH]; intros k Hn; simpl; [reflexivity|].
  apply not_elem_of_cons in Hn as [Hne Hn].
  destruct ((sc_callback sc =? callback) && (sc_data sc =? data)) eqn:E.
  - apply callback_match in E. congruence.
  - now apply IH.
Qed.

(** An array splits at the first occurrence of an element. *)
Lemma first_occurrence (x : signal_callback) array :
  x ∈ array -> ∃ c1 c2, array = c1 ++ x :: c2 ∧ x ∉ c1.
Proof.
  induction array as [|y array IH]; intros Hin; [inversion Hin|].
  destruct (decide (y = x)) as [-> | Hne].
  - exists [], array. split; [reflexivity | apply not_elem_of_nil].
  - apply elem_of_cons in Hin as [-> | Hin]; [congruence|].
    destruct (IH Hin) as (c1 & c2 & -> & Hn). exists (y :: c1), c2.
    split; [reflexivity|]. apply not_elem_of_cons. split; [congruence | exact Hn].
Qed.

Lemma signal_get_callback_idx_eq s a i callback data :
  heap s !! a = Some (OSignal i) ->
  signal_get_callback_idx (Some a) callback data s =
  Ret (signal_get_callback_idx_from (si_callbacks i) 0 callback data) s.
Proof.
  intros H. unfold signal_get_callback_idx.
  eapply bind_Ret; [apply load_signal_eq; exact H | reflexivity].
Qed.

Lemma set_heap_insert_insert s a o o' :
  set_heap (insert a o) (set_heap (insert a o') s) = set_heap (insert a o) s.
Proof.
  destruct s as [h lg rs cs]; unfold set_heap; simpl. f_equal. apply insert_insert_eq.
Qed.

Lemma set_heap_insert_id s a o :
  heap s !! a = Some o -> set_heap (insert a o) s = s.
Proof.
  intros H. destruct s as [h lg rs cs]; unfold set_heap; simpl in *. f_equal.
  now apply insert_id.
Qed.

(** ** [signal_handler_signal] *)

Lemma signal_handler_signal_loop_eq array params s :
  signal_handler_signal_loop array params s = Ret tt (add_calls (map (call_of params) array) s).
Proof.
  revert s. induction array as [|cb array IH]; intros s; simpl.
  - unfold ret, add_calls. rewrite app_nil_r. now destruct s.
  - eapply bind_Ret; [reflexivity|]. rewrite IH. f_equal.
    unfold add_calls; simpl. now rewrite <- app_assoc.
Qed.

(** The signal exists and its lock is free. *)
Lemma signal_handler_signal_found s handler l1 a i l2 name params :
  registry s handler MutexUnlocked (l1 ++ (a, i) :: l2) ->
  name ∉ names l1 -> si_name i = name -> si_mutex i = MutexUnlocked ->
  signal_handler_signal (Some handler) name params s =
  Ret tt (add_calls (map (call_of params) (si_callbacks i)) s).
Proof.
  intros Hr Hn Hi Hm. unfold signal_handler_signal.
  eapply bind_Ret; [eapply getsignal_locked_eq; exact Hr|].
  rewrite (find_signal_found _ _ _ _ _ Hn Hi).
  assert (Ha : heap s !! a = Some (OSignal i)).
  { eapply chain_lookup; [eapply registry_chain; exact Hr|].
    apply elem_of_app. right. left. }
  destruct i as [n cbs m nx]; simpl in *; subst m.
  eapply bind_Ret; [eapply lock_signal_eq; exact Ha|].
  eapply bind_Ret; [apply load_signal_eq; simpl; apply lookup_insert_eq|].
  simpl si_callbacks.
  eapply bind_Ret; [apply signal_handler_signal_loop_eq|].
  erewrite unlock_signal_eq; [|simpl; apply lookup_insert_eq].
  f_equal. destruct s as [h lg rs cs]; unfold add_calls, set_heap; simpl in *. f_equal.
  rewrite insert_insert_eq. now apply insert_id.
Qed.

(** No signal of that name: nothing happens. *)
Lemma signal_handler_signal_absent s handler l name params :
  registry s handler MutexUnlocked l -> name ∉ names l ->
  signal_handler_signal (Some handler) name params s = Ret tt s.
Proof.
  intros Hr Hn. unfold signal_handler_signal.
  eapply bind_Ret; [eapply getsignal_locked_eq; exact Hr|].
  now rewrite (find_signal_absent _ _ Hn).
Qed.

(** ** [signal_handler_disconnect] *)

Lemma signal_handler_disconnect_absent s handler l name callback data :
  registry s handler MutexUnlocked l -> name ∉ names l ->
  signal_handler_disconnect (Some handler) name callback data s = Ret tt s.
Proof.
  intros Hr Hn. unfold signal_handler_disconnect.
  eapply bind_Ret; [eapply getsignal_locked_eq; exact Hr|].
  now rewrite (find_signal_absent _ _ Hn).
Qed.

(** The signal exists and its lock is free: the array after the call. *)
Lemma signal_handler_disconnect_found s handler l1 a i l2 name callback data :
  registry s handler MutexUnlocked (l1 ++ (a, i) :: l2) ->
  name ∉ names l1 -> si_name i = name -> si_mutex i = MutexUnlocked ->
  let idx := signal_get_callback_idx_from (si_callbacks i) 0 callback data in
  signal_handler_disconnect (Some handler) name callback data s =
  Ret tt (set_heap (insert a (OSignal (mk_signal_info (si_name i)
            (if negb (idx =? DARRAY_INVALID) then delete (Z.to_nat idx) (si_callbacks i)
             else si_callbacks i)
            MutexUnlocked (si_next i)))) s).
Proof.
  intros Hr Hn Hi Hm idx. unfold signal_handler_disconnect.
  eapply bind_Ret; [eapply getsignal_locked_eq; exact Hr|].
  rewrite (find_signal_found _ _ _ _ _ Hn Hi).
  assert (Ha : heap s !! a = Some (OSignal i)).
  { eapply chain_lookup; [eapply registry_chain; exact Hr|].
    apply elem_of_app. right. left. }
  destruct i as [n cbs m nx]; simpl in *; subst m.
  eapply bind_Ret; [eapply lock_signal_eq; exact Ha|].
  eapply bind_Ret; [apply signal_get_callback_idx_eq; simpl; apply lookup_insert_eq|].
  simpl si_callbacks. fold idx.
  destruct (negb (idx =? DARRAY_INVALID)).
  - eapply bind_Ret.
    { unfold da_erase. eapply bind_Ret; [apply load_signal_eq; simpl; apply lookup_insert_eq|].
      apply set_callbacks_eq. simpl. apply lookup_insert_eq. }
    simpl. erewrite unlock_signal_eq; [|simpl; apply lookup_insert_eq].
    now rewrite !set_heap_insert_insert.
  - eapply bind_Ret; [reflexivity|].
    erewrite unlock_signal_eq; [|simpl; apply lookup_insert_eq].
    now rewrite !set_heap_insert_insert.
Qed.

(** ** [pthread_mutex_init] and [signal_info_create] *)

Lemma set_name_eq s a i v :
  heap s !! a = Some (OSignal i) ->
  set_name (Some a) v s =
  Ret tt (set_heap (insert a (OSignal
    (mk_signal_info v (si_callbacks i) (si_mutex i) (si_next i)))) s).
Proof. intros H. run_prim H. Qed.

Lemma pthread_mutex_init_signal s a i :
  heap s !! a = Some (OSignal i) ->
  pthread_mutex_init (signal_mutex (Some a)) s =
  Ret (next_init_result s)
      (if next_init_result s =? 0
       then set_heap (insert a (OSignal (mk_signal_info (si_name i) (si_callbacks i)
                                           MutexUnlocked (si_next i)))) (pop_result s)
       else pop_result s).
Proof.
  intros H. unfold pthread_mutex_init.
  eapply bind_Ret.
  { unfold load_mutex. eapply bind_Ret; [apply load_signal_eq; exact H | reflexivity]. }
  eapply bind_Ret; [reflexivity|].
  destruct (next_init_result s =? 0); [|reflexivity].
  eapply bind_Ret; [|reflexivity].
  unfold store_mutex. eapply bind_Ret; [apply load_signal_eq; exact H|].
  eapply store_signal_eq. exact H.
Qed.

Lemma pthread_mutex_init_handler s a h :
  heap s !! a = Some (OHandler h) ->
  pthread_mutex_init (handler_mutex (Some a)) s =
  Ret (next_init_result s)
      (if next_init_result s =? 0
       then set_heap (insert a (OHandler (mk_signal_handler (sh_first h) MutexUnlocked)))
                     (pop_result s)
       else pop_result s).
Proof.
  intros H. unfold pthread_mutex_init.
  eapply bind_Ret.
  { unfold load_mutex. eapply bind_Ret; [apply load_handler_eq; exact H | reflexivity]. }
  eapply bind_Ret; [reflexivity|].
  destruct (next_init_result s =? 0); [|reflexivity].
  eapply bind_Ret; [|reflexivity].
  unfold store_mutex. eapply bind_Ret; [apply load_handler_eq; exact H|].
  eapply store_handler_eq. exact H.
Qed.

Lemma fresh_heap (h : gmap loc object) : h !! fresh (dom h) = None.
Proof. apply not_elem_of_dom. apply is_fresh. Qed.

Lemma signal_info_create_eq s name :
  signal_info_create name s =
  if next_init_result s =? 0
  then Ret (Some (fresh (dom (heap s))))
           (set_heap (insert (fresh (dom (heap s))) (OSignal (new_signal name))) (pop_result s))
  else Ret NULL (add_log LOG_ERROR "Could not create signal!" (pop_result s)).
Proof.
  unfold signal_info_create. set (b := fresh (dom (heap s))).
  eapply bind_Ret; [reflexivity|].
  eapply bind_Ret; [apply set_name_eq; simpl; apply lookup_insert_eq|].
  eapply bind_Ret; [apply set_next_eq; simpl; apply lookup_insert_eq|].
  eapply bind_Ret; [apply set_callbacks_eq; simpl; apply lookup_insert_eq|].
  eapply bind_Ret; [eapply pthread_mutex_init_signal; simpl; apply lookup_insert_eq|].
  change (next_init_result _) with (next_init_result s).
  destruct (next_init_result s =? 0); simpl negb; cbv iota.
  - unfold ret. f_equal.
    destruct s as [h lg rs cs]; unfold set_heap, pop_result, new_signal; simpl. f_equal.
    now rewrite !insert_insert_eq.
  - eapply bind_Ret; [reflexivity|].
    eapply bind_Ret.
    { unfold bfree. simpl. rewrite lookup_insert_eq. reflexivity. }
    unfold ret. f_equal.
    destruct s as [h lg rs cs]; unfold set_heap, pop_result, add_log; simpl. f_equal.
    rewrite !insert_insert_eq. rewrite delete_insert_eq. apply delete_id. apply fresh_heap.
Qed.

(** ** [signal_handler_connect] *)

(** The registration on a signal whose lock is free. *)
Lemma signal_handler_connect_register_eq s a i callback data :
  heap s !! a = Some (OSignal i) -> si_mutex i = MutexUnlocked ->
  signal_handler_connect_register (Some a) callback data s =
  Ret tt (set_heap (insert a (OSignal
            (with_callbacks i (connect_array (si_callbacks i) callback data)))) s).
Proof.
  intros Ha Hm. destruct i as [n cbs m nx]; simpl in *; subst m.
  unfold signal_handler_connect_register.
  eapply bind_Ret; [eapply lock_signal_eq; exact Ha|].
  eapply bind_Ret; [apply signal_get_callback_idx_eq; simpl; apply lookup_insert_eq|].
  simpl si_callbacks. unfold with_callbacks, connect_array. simpl.
  destruct (signal_get_callback_idx_from cbs 0 callback data =? DARRAY_INVALID).
  - eapply bind_Ret.
    { unfold da_push_back. eapply bind_Ret; [apply load_signal_eq; simpl; apply lookup_insert_eq|].
      apply set_callbacks_eq. simpl. apply lookup_insert_eq. }
    simpl. erewrite unlock_signal_eq; [|simpl; apply lookup_insert_eq].
    now rewrite !set_heap_insert_insert.
  - eapply bind_Ret; [reflexivity|].
    erewrite unlock_signal_eq; [|simpl; apply lookup_insert_eq].
    now rewrite !set_heap_insert_insert.
Qed.

Lemma signal_handler_connect_register_held s a i callback data :
  heap s !! a = Some (OSignal i) -> si_mutex i = MutexLocked ->
  signal_handler_connect_register (Some a) callback data s = Blocks s.
Proof.
  intros Ha Hm. destruct i as [n cbs m nx]; simpl in *; subst m.
  unfold signal_handler_connect_register.
  apply bind_Blocks. eapply lock_signal_held; exact Ha.
Qed.

(** A store into a node of the registry that keeps its [next]. *)
Lemma registry_update s handler m l1 a i l2 i' :
  si_next i' = si_next i ->
  registry s handler m (l1 ++ (a, i) :: l2) ->
  registry (set_heap (insert a (OSignal i')) s) handler m (l1 ++ (a, i') :: l2).
Proof.
  intros Hnx Hr. pose proof (registry_handler_fresh _ _ _ _ Hr) as Hf.
  destruct Hr as (p & Hh & Hc). exists p. simpl. split.
  - rewrite lookup_insert_ne; [exact Hh|]. intros ->. apply Hf.
    rewrite locs_app. apply elem_of_app. right. left.
  - now apply chain_update with (i := i).
Qed.

(** The signal exists and both locks are free. *)
Lemma signal_handler_connect_found s handler l1 a i l2 name callback data :
  registry s handler MutexUnlocked (l1 ++ (a, i) :: l2) ->
  name ∉ names l1 -> si_name i = name -> si_mutex i = MutexUnlocked ->
  signal_handler_connect (Some handler) name callback data s =
  Ret tt (set_heap (insert a (OSignal
            (with_callbacks i (connect_array (si_callbacks i) callback data)))) s).
Proof.
  intros Hr Hn Hi Hm. pose proof (registry_lookup _ _ _ _ Hr) as Hh.
  unfold signal_handler_connect.
  eapply bind_Ret; [apply lock_handler_eq; exact Hh|].
  pose proof (registry_set_mutex _ _ _ MutexLocked _ Hr) as Hr'.
  eapply bind_Ret; [eapply getsignal_found; eauto|]. cbv beta iota.
  eapply bind_Ret; [apply unlock_handler_eq; apply (registry_lookup _ _ _ _ Hr')|].
  rewrite set_heap_insert_cancel by exact Hh.
  apply signal_handler_connect_register_eq; [|exact Hm].
  eapply chain_lookup; [eapply registry_chain; exact Hr|].
  apply elem_of_app. right. left.
Qed.

(** The registry lock is held: the call never returns. *)
Lemma signal_handler_connect_held s handler l name callback data :
  registry s handler MutexLocked l ->
  signal_handler_connect (Some handler) name callback data s = Blocks s.
Proof.
  intros Hr. unfold signal_handler_connect.
  apply bind_Blocks. eapply lock_handler_held. eapply registry_lookup; eauto.
Qed.

(** ** Linking a node behind the chain *)

Lemma list_nil_or_snoc {A} (l : list A) : l = [] ∨ (∃ l0 e, l = l0 ++ [e]).
Proof.
  induction l as [|x l IH] using rev_ind; [now left | right; eauto].
Qed.

Lemma set_last_next_cons e l v :
  l <> [] -> set_last_next (e :: l) v = e :: set_last_next l v.
Proof. destruct l; [congruence | reflexivity]. Qed.

Lemma set_last_next_snoc l0 t it v :
  set_last_next (l0 ++ [(t, it)]) v = l0 ++ [(t, with_next it v)].
Proof.
  induction l0 as [|e l0 IH]; [reflexivity|].
  change ((e :: l0) ++ [(t, it)]) with (e :: (l0 ++ [(t, it)])).
  rewrite set_last_next_cons; [now rewrite IH | destruct l0; discriminate].
Qed.

Lemma names_set_last_next l v : names (set_last_next l v) = names l.
Proof.
  destruct (list_nil_or_snoc l) as [-> | (l0 & [t it] & ->)]; [reflexivity|].
  rewrite set_last_next_snoc, !names_app. reflexivity.
Qed.

Lemma locs_set_last_next l v : locs (set_last_next l v) = locs l.
Proof.
  destruct (list_nil_or_snoc l) as [-> | (l0 & [t it] & ->)]; [reflexivity|].
  rewrite set_last_next_snoc, !locs_app. reflexivity.
Qed.

(** The last node of a chain has a [NULL] [next]. *)
Lemma chain_last h p l0 t it :
  chain h p (l0 ++ [(t, it)]) -> h !! t = Some (OSignal it) ∧ si_next it = NULL.
Proof.
  revert p. induction l0 as [|[a i] l0 IH]; intros p Hc; simpl in *.
  - destruct Hc as (_ & Ht & Hn). auto.
  - destruct Hc as (_ & _ & Hc). eauto.
Qed.

Lemma registry_heap s s' handler m l :
  heap s' = heap s -> registry s handler m l -> registry s' handler m l.
Proof. intros He (p & Hh & Hc). exists p. rewrite He. auto. Qed.

(** Linking [NULL]: the stores write what was there. *)
Lemma link_null s handler m l :
  registry s handler m l ->
  link (Some handler) (last_ptr NULL l) NULL s = Ret tt s.
Proof.
  intros Hr. pose proof (registry_lookup _ _ _ _ Hr) as Hh.
  destruct (list_nil_or_snoc l) as [-> | (l0 & [t it] & ->)].
  - simpl. erewrite set_first_eq by exact Hh. simpl. f_equal.
    now apply set_heap_insert_id.
  - rewrite last_ptr_snoc. simpl.
    destruct (chain_last _ _ _ _ _ (registry_chain _ _ _ _ Hr)) as [Ht Hnx].
    erewrite set_next_eq by exact Ht. f_equal.
    apply set_heap_insert_id. rewrite Ht. destruct it; simpl in *. now subst.
Qed.

(** A new block is no node of the registry, and the registry is not
    touched by its allocation. *)
Lemma registry_alloc s handler m l b o :
  registry s handler m l -> heap s !! b = None ->
  registry (set_heap (insert b o) s) handler m l ∧ (b ∉ locs l).
Proof.
  intros Hr Hb. pose proof (registry_lookup _ _ _ _ Hr) as Hh.
  pose proof (registry_chain _ _ _ _ Hr) as Hc.
  assert (Hbl : b ∉ locs l).
  { intros Hin. destruct (chain_lookup_loc _ _ _ _ Hc Hin) as (i & _ & Hi). congruence. }
  split; [|exact Hbl]. exists (first_ptr l). simpl. split.
  - rewrite lookup_insert_ne by congruence. exact Hh.
  - now apply chain_insert_frame.
Qed.

(** Linking a node that is not yet in the chain: the chain is one node
    longer. *)
Lemma link_node s handler m l b j :
  registry s handler m l -> heap s !! b = Some (OSignal j) -> b ∉ locs l ->
  si_next j = NULL ->
  ∃ s', link (Some handler) (last_ptr NULL l) (Some b) s = Ret tt s' ∧
        registry s' handler m (set_last_next l (Some b) ++ [(b, j)]) ∧
        (∀ c, c ≠ handler -> c ∉ locs l -> heap s' !! c = heap s !! c) ∧
        log s' = log s ∧ calls s' = calls s ∧
        mutex_init_results s' = mutex_init_results s.
Proof.
  intros Hr Hb Hbl Hj. pose proof (registry_lookup _ _ _ _ Hr) as Hh.
  pose proof (registry_chain _ _ _ _ Hr) as Hc.
  assert (Hbh : b ≠ handler) by congruence.
  destruct (list_nil_or_snoc l) as [-> | (l0 & [t it] & ->)].
  - simpl. eexists. split; [eapply set_first_eq; exact Hh|].
    simpl. split; [|split; [|auto]].
    + exists (Some b). simpl. split; [apply lookup_insert_eq|].
      split; [reflexivity|]. split; [|exact Hj].
      rewrite lookup_insert_ne by congruence. exact Hb.
    + intros c Hc1 _. now rewrite lookup_insert_ne by congruence.
  - rewrite last_ptr_snoc, set_last_next_snoc. simpl fst.
    destruct (chain_last _ _ _ _ _ Hc) as [Ht Hnx].
    assert (Htb : t ≠ b).
    { intros ->. apply Hbl. rewrite locs_app. apply elem_of_app. right. left. }
    assert (Hth : t ≠ handler) by congruence.
    eexists. split; [eapply set_next_eq; exact Ht|].
    split; [|split; [|auto]].
    + exists (first_ptr (l0 ++ [(t, it)])). simpl. split.
      * rewrite !lookup_insert_ne by congruence. exact Hh.
      * rewrite <- app_assoc. simpl.
        rewrite <- (insert_id (heap s) b (OSignal j)) at 1 by exact Hb.
        apply chain_snoc; auto.
    + intros c _ Hcl. simpl. rewrite lookup_insert_ne; [reflexivity|].
      intros ->. apply Hcl. rewrite locs_app. apply elem_of_app. right. left.
Qed.

(** ** [signal_handler_connect] on a name without a signal *)

(** [signal_info_create] fails: the call returns from inside the branch, the
    registry lock still held. *)
Lemma signal_handler_connect_absent_fail s handler l name callback data :
  registry s handler MutexUnlocked l -> name ∉ names l ->
  next_init_result s <> 0 ->
  signal_handler_connect (Some handler) name callback data s =
  Ret tt (add_log LOG_ERROR "Could not create signal!"
            (pop_result (set_heap
               (insert handler (OHandler (mk_signal_handler (first_ptr l) MutexLocked))) s))).
Proof.
  intros Hr Hn Hrc. pose proof (registry_lookup _ _ _ _ Hr) as Hh.
  unfold signal_handler_connect.
  eapply bind_Ret; [apply lock_handler_eq; exact Hh|].
  pose proof (registry_set_mutex _ _ _ MutexLocked _ Hr) as Hr1.
  eapply bind_Ret; [eapply getsignal_absent; eauto|]. cbv beta iota.
  eapply bind_Ret.
  { rewrite signal_info_create_eq. change (next_init_result _) with (next_init_result s).
    apply Z.eqb_neq in Hrc. rewrite Hrc. reflexivity. }
  eapply bind_Ret; [|reflexivity].
  eapply (link_null _ handler MutexLocked l).
  eapply registry_heap; [|exact Hr1]. reflexivity.
Qed.

(** [signal_info_create] succeeds: a node for the name is linked behind the
    chain and the pair registered on it. *)
Lemma signal_handler_connect_absent_ok s handler l name callback data :
  registry s handler MutexUnlocked l -> name ∉ names l ->
  next_init_result s = 0 ->
  ∃ b s',
    signal_handler_connect (Some handler) name callback data s = Ret tt s' ∧
    heap s !! b = None ∧
    registry s' handler MutexUnlocked
      (set_last_next l (Some b) ++
       [(b, with_callbacks (new_signal name) [mk_signal_callback callback data])]) ∧
    log s' = log s ∧ calls s' = calls s ∧
    mutex_init_results s' = tail (mutex_init_results s).
Proof.
  intros Hr Hn Hrc. pose proof (registry_lookup _ _ _ _ Hr) as Hh.
  pose proof (registry_set_mutex _ _ _ MutexLocked _ Hr) as Hr1.
  set (s1 := set_heap (insert handler (OHandler (mk_signal_handler (first_ptr l) MutexLocked))) s) in *.
  set (b := fresh (dom (heap s1))).
  assert (Hb1 : heap s1 !! b = None) by apply fresh_heap.
  assert (Hbh : b ≠ handler).
  { intros E. rewrite E in Hb1. rewrite (registry_lookup _ _ _ _ Hr1) in Hb1. discriminate. }
  assert (Hb : heap s !! b = None).
  { simpl in Hb1. now rewrite lookup_insert_ne in Hb1 by congruence. }
  destruct (registry_alloc (pop_result s1) handler MutexLocked l b
              (OSignal (new_signal name))) as [Hr2 Hbl];
    [eapply registry_heap; [|exact Hr1]; reflexivity | exact Hb1 |].
  destruct (link_node _ handler MutexLocked l b (new_signal name) Hr2)
    as (s3 & Hlink & Hr3 & _ & Hlog & Hcalls & Hrcs);
    [simpl; apply lookup_insert_eq | exact Hbl | reflexivity |].
  pose proof (registry_lookup _ _ _ _ Hr3) as Hh3.
  pose proof (registry_set_mutex _ _ _ MutexUnlocked _ Hr3) as Hr4.
  set (l3 := set_last_next l (Some b)) in *.
  set (s4 := set_heap (insert handler
              (OHandler (mk_signal_handler (first_ptr (l3 ++ [(b, new_signal name)])) MutexUnlocked))) s3) in *.
  assert (Hb4 : heap s4 !! b = Some (OSignal (new_signal name))).
  { eapply chain_lookup; [eapply registry_chain; exact Hr4|].
    apply elem_of_app. right. left. }
  exists b. eexists. split; [|split; [exact Hb|split]].
  - unfold signal_handler_connect.
    eapply bind_Ret; [apply lock_handler_eq; exact Hh|]. fold s1.
    eapply bind_Ret; [eapply getsignal_absent; eauto|]. cbv beta iota.
    eapply bind_Ret.
    { rewrite signal_info_create_eq. change (next_init_result s1) with (next_init_result s).
      rewrite Hrc. simpl. reflexivity. }
    fold b. eapply bind_Ret; [exact Hlink|].
    eapply bind_Ret; [apply unlock_handler_eq; exact Hh3|]. fold s4.
    apply signal_handler_connect_register_eq; [exact Hb4 | reflexivity].
  - assert (Hca : connect_array (si_callbacks (new_signal name)) callback data
                  = [mk_signal_callback callback data]).
    { unfold connect_array. simpl. now rewrite Z.eqb_refl. }
    rewrite Hca.
    apply (registry_update s4 handler MutexUnlocked l3 b (new_signal name) []);
      [reflexivity | exact Hr4].
  - simpl. rewrite Hlog, Hcalls, Hrcs. auto.
Qed.

(** * The claims *)

(** ** Creation *)

(** C6.  [signal_handler_create] returns in every state.  When the lock can
    be initialised the result is a new block that holds an empty registry
    (no signal, [first] is [NULL]) with an initialised, free lock, and
    nothing else changes in the heap.  When the initialisation fails the
    result is [NULL], the block allocated for the registry has been freed
    again (the heap is what it was) and the failure is the one new line of
    the log. *)
Theorem signal_handler_create_spec (s : state) :
  let h := fresh (dom (heap s)) in
  ∃ s',
    signal_handler_create s =
      Ret (if next_init_result s =? 0 then Some h else NULL) s' ∧
    calls s' = calls s ∧
    mutex_init_results s' = tail (mutex_init_results s) ∧
    if next_init_result s =? 0 then
      heap s !! h = None ∧
      heap s' = <[h := OHandler (mk_signal_handler NULL MutexUnlocked)]> (heap s) ∧
      registry s' h MutexUnlocked [] ∧
      log s' = log s
    else
      heap s' = heap s ∧
      log s' = log s ++ [(LOG_ERROR, "Couldn't create signal handler!"%string)].
Proof.
  intros h. unfold signal_handler_create. fold h.
  destruct (next_init_result s =? 0) eqn:Hrc.
  - eexists. split; [|split; [|split]].
    + eapply bind_Ret; [reflexivity|]. fold h.
      eapply bind_Ret; [eapply set_first_eq; simpl; apply lookup_insert_eq|].
      eapply bind_Ret; [eapply pthread_mutex_init_handler; simpl; apply lookup_insert_eq|].
      change (next_init_result _) with (next_init_result s). rewrite Hrc. reflexivity.
    + reflexivity.
    + reflexivity.
    + simpl. rewrite !insert_insert_eq. split; [apply fresh_heap|].
      split; [reflexivity|]. split; [|reflexivity].
      exists NULL. simpl. rewrite !insert_insert_eq. split; [apply lookup_insert_eq | reflexivity].
  - eexists. split; [|split; [|split]].
    + eapply bind_Ret; [reflexivity|]. fold h.
      eapply bind_Ret; [eapply set_first_eq; simpl; apply lookup_insert_eq|].
      eapply bind_Ret; [eapply pthread_mutex_init_handler; simpl; apply lookup_insert_eq|].
      change (next_init_result _) with (next_init_result s). rewrite Hrc. simpl negb. cbv iota.
      eapply bind_Ret; [reflexivity|].
      eapply bind_Ret; [|reflexivity].
      unfold bfree. simpl. rewrite lookup_insert_eq. reflexivity.
    + reflexivity.
    + reflexivity.
    + simpl. split; [|reflexivity].
      rewrite !insert_insert_eq, delete_insert_eq. apply delete_id, fresh_heap.
Qed.

(** ** The handle *)

(** C9.  [signal_handler_connect], [signal_handler_disconnect] and
    [signal_handler_signal] read through the handle without a test: on a
    [NULL] handle each of them is undefined behaviour, in every state and
    for all other arguments.  [signal_handler_destroy] tests the handle and
    returns at once on [NULL], the state untouched. *)
Theorem null_handler (s : state) (name : string) (callback : fn_ptr)
    (data : void_ptr) (params : calldata_t) :
  signal_handler_connect NULL name callback data s = Fault ∧
  signal_handler_disconnect NULL name callback data s = Fault ∧
  signal_handler_signal NULL name params s = Fault ∧
  signal_handler_destroy NULL s = Ret tt s.
Proof. repeat split. Qed.


(** ** Arrays of callbacks *)

Lemma darray_ok_app c1 c2 : darray_ok (c1 ++ c2) -> darray_ok c1.
Proof. unfold darray_ok. rewrite length_app. lia. Qed.

Lemma connect_array_new array callback data :
  ¬ connected callback data array ->
  connect_array array callback data = array ++ [mk_signal_callback callback data].
Proof.
  intros Hn. unfold connect_array.
  rewrite signal_get_callback_idx_from_absent by exact Hn. now rewrite Z.eqb_refl.
Qed.

Lemma connect_array_connected array callback data :
  darray_ok array -> connected callback data array ->
  connect_array array callback data = array.
Proof.
  intros Hok Hin. unfold connect_array.
  destruct (first_occurrence _ _ Hin) as (c1 & c2 & -> & Hn).
  rewrite signal_get_callback_idx_from_found by exact Hn.
  unfold darray_ok in Hok. rewrite length_app in Hok. simpl in Hok.
  destruct (0 + Z.of_nat (length c1) =? DARRAY_INVALID) eqn:E; [|reflexivity].
  apply Z.eqb_eq in E. lia.
Qed.

Lemma disconnect_array_connected c1 c2 callback data :
  darray_ok (c1 ++ mk_signal_callback callback data :: c2) ->
  mk_signal_callback callback data ∉ c1 ->
  disconnect_array (c1 ++ mk_signal_callback callback data :: c2) callback data = c1 ++ c2.
Proof.
  intros Hok Hn. unfold disconnect_array.
  rewrite signal_get_callback_idx_from_found by exact Hn.
  unfold darray_ok in Hok. rewrite length_app in Hok. simpl in Hok.
  destruct (0 + Z.of_nat (length c1) =? DARRAY_INVALID) eqn:E.
  - apply Z.eqb_eq in E. lia.
  - simpl. replace (Z.to_nat (0 + Z.of_nat (length c1))) with (length c1) by lia.
    rewrite delete_middle. reflexivity.
Qed.

Lemma disconnect_array_absent array callback data :
  ¬ connected callback data array ->
  disconnect_array array callback data = array.
Proof.
  intros Hn. unfold disconnect_array.
  rewrite signal_get_callback_idx_from_absent by exact Hn. now rewrite Z.eqb_refl.
Qed.

Lemma callbacks_of_found name l1 a i l2 :
  name ∉ names l1 -> si_name i = name ->
  callbacks_of name (l1 ++ (a, i) :: l2) = si_callbacks i.
Proof.
  induction l1 as [|[b j] l1 IH]; simpl; intros Hn Hi.
  - destruct (decide (si_name i = name)); [reflexivity | congruence].
  - apply not_elem_of_cons in Hn as [Hne Hn].
    destruct (decide (si_name j = name)); [congruence | auto].
Qed.

Lemma callbacks_of_absent name l : name ∉ names l -> callbacks_of name l = [].
Proof.
  induction l as [|[a i] l IH]; simpl; [reflexivity|]. intros Hn.
  apply not_elem_of_cons in Hn as [Hne Hn].
  destruct (decide (si_name i = name)); [congruence | auto].
Qed.

Lemma registry_node s handler m l1 a i l2 :
  registry s handler m (l1 ++ (a, i) :: l2) -> heap s !! a = Some (OSignal i).
Proof.
  intros Hr. eapply chain_lookup; [eapply registry_chain; exact Hr|].
  apply elem_of_app. right. left.
Qed.

Lemma with_callbacks_id i : with_callbacks i (si_callbacks i) = i.
Proof. now destruct i. Qed.

(** ** Signals without a node *)

(** C5.  On a registry (its lock free, as it is between calls) that has no
    signal of the given name, [signal_handler_disconnect] and
    [signal_handler_signal] both return normally and leave the whole state
    as it was: the heap with the registry in it, the log, and the record
    of the callback invocations, to which nothing is added. *)
Theorem unknown_signal_is_noop (s : state) (handler : loc)
    (l : list (loc * signal_info)) (name : string) (callback : fn_ptr)
    (data : void_ptr) (params : calldata_t) :
  registry s handler MutexUnlocked l ->
  name ∉ names l ->
  signal_handler_disconnect (Some handler) name callback data s = Ret tt s ∧
  signal_handler_signal (Some handler) name params s = Ret tt s.
Proof.
  intros Hr Hn. split.
  - eapply signal_handler_disconnect_absent; eauto.
  - eapply signal_handler_signal_absent; eauto.
Qed.

(** ** Emission *)

(** C2.  On a registry with a signal of the emitted name,
    [signal_handler_signal] returns, changes nothing in the heap, and adds
    to the record of invocations exactly one invocation per element of the
    signal's array, in the order of the array, each with the emitted
    [params] and the element's own [data].  The order of the array is the
    order of connection: a pair connected to the signal when it is not yet
    on it is invoked after all the pairs that were there. *)
Theorem signal_invokes_callbacks_in_order (s : state) (handler : loc)
    (l1 l2 : list (loc * signal_info)) (a : loc) (i : signal_info)
    (name : string) (params : calldata_t) :
  registry s handler MutexUnlocked (l1 ++ (a, i) :: l2) ->
  name ∉ names l1 -> si_name i = name -> si_mutex i = MutexUnlocked ->
  signal_handler_signal (Some handler) name params s =
    Ret tt (add_calls (map (call_of params) (si_callbacks i)) s) ∧
  ∀ callback data,
    ¬ connected callback data (si_callbacks i) ->
    (signal_handler_connect (Some handler) name callback data ;;
     signal_handler_signal (Some handler) name params) s =
    Ret tt (add_calls (map (call_of params) (si_callbacks i) ++
                       [mk_call callback params data])
              (set_heap (insert a (OSignal (with_callbacks i
                  (si_callbacks i ++ [mk_signal_callback callback data])))) s)).
Proof.
  intros Hr Hn Hi Hm. split.
  - eapply signal_handler_signal_found; eauto.
  - intros callback data Hnc.
    eapply bind_Ret; [eapply signal_handler_connect_found; eauto|].
    rewrite (connect_array_new _ _ _ Hnc).
    set (i' := with_callbacks i (si_callbacks i ++ [mk_signal_callback callback data])).
    change [mk_call callback params data]
      with (map (call_of params) [mk_signal_callback callback data]).
    rewrite <- map_app.
    apply (signal_handler_signal_found _ handler l1 a i' l2);
      [eapply registry_update; [|exact Hr]; reflexivity | exact Hn | exact Hi | exact Hm].
Qed.


(** ** Disconnection *)

(** C4.  On a registry with a signal of the given name (and an array that
    is a valid array), [signal_handler_disconnect] returns.  When the pair
    is on the signal's array, the array splits at the first element equal
    to the pair into [c1], the pair and [c2], and after the call the array
    is [c1 ++ c2]: one matching element is gone, every other element is
    still there, in the same order; nothing else changes.  When the pair is
    not on the array the whole state is as it was. *)
Theorem disconnect_removes_one (s : state) (handler : loc)
    (l1 l2 : list (loc * signal_info)) (a : loc) (i : signal_info)
    (name : string) (callback : fn_ptr) (data : void_ptr) :
  registry s handler MutexUnlocked (l1 ++ (a, i) :: l2) ->
  name ∉ names l1 -> si_name i = name -> si_mutex i = MutexUnlocked ->
  darray_ok (si_callbacks i) ->
  (connected callback data (si_callbacks i) ->
   ∃ c1 c2,
     si_callbacks i = c1 ++ mk_signal_callback callback data :: c2 ∧
     (mk_signal_callback callback data ∉ c1) ∧
     signal_handler_disconnect (Some handler) name callback data s =
       Ret tt (set_heap (insert a (OSignal (with_callbacks i (c1 ++ c2)))) s)) ∧
  (¬ connected callback data (si_callbacks i) ->
   signal_handler_disconnect (Some handler) name callback data s = Ret tt s).
Proof.
  intros Hr Hn Hi Hm Hok.
  pose proof (signal_handler_disconnect_found _ _ _ _ _ _ _ callback data Hr Hn Hi Hm) as Hd.
  cbv zeta in Hd. fold (disconnect_array (si_callbacks i) callback data) in Hd.
  split.
  - intros Hin. destruct (first_occurrence _ _ Hin) as (c1 & c2 & Hsplit & Hn1).
    exists c1, c2. split; [exact Hsplit|]. split; [exact Hn1|].
    rewrite Hd. rewrite Hsplit in Hok |- *.
    rewrite (disconnect_array_connected _ _ _ _ Hok Hn1).
    unfold with_callbacks. now rewrite Hm.
  - intros Hnc. rewrite Hd, (disconnect_array_absent _ _ _ Hnc).
    f_equal. apply set_heap_insert_id.
    rewrite (registry_node _ _ _ _ _ _ _ Hr). destruct i; simpl in *. now subst.
Qed.

(** ** Connection *)

Lemma connect_array_idem array callback data :
  darray_ok (array ++ [mk_signal_callback callback data]) ->
  connect_array (connect_array array callback data) callback data =
  connect_array array callback data.
Proof.
  intros Hok. destruct (decide (mk_signal_callback callback data ∈ array)) as [Hin | Hn].
  - rewrite (connect_array_connected array); auto.
    + apply connect_array_connected; [eapply darray_ok_app; eauto | exact Hin].
    + eapply darray_ok_app; eauto.
  - rewrite (connect_array_new _ _ _ Hn).
    apply connect_array_connected; [exact Hok|].
    apply elem_of_app. right. left.
Qed.

Lemma quiescent_node l1 a i l2 : quiescent (l1 ++ (a, i) :: l2) -> si_mutex i = MutexUnlocked.
Proof.
  intros Hq. apply Forall_app in Hq as [_ Hq]. now inversion Hq.
Qed.

(** C3.  On a registry with no call under way, connecting a pair that is
    already on the array of the signal (a valid array) returns and leaves
    the whole state, and so the array with its size and contents, as it
    was.  And whenever the first call registers the pair (the signal
    exists, or it can be created) and the array has room for one more
    element, two calls in a row with the same pair end in the same state as
    one call. *)
Theorem connect_is_idempotent (s : state) (handler : loc)
    (l : list (loc * signal_info)) (name : string)
    (callback : fn_ptr) (data : void_ptr) :
  registry s handler MutexUnlocked l ->
  quiescent l ->
  (darray_ok (callbacks_of name l) ->
   connected callback data (callbacks_of name l) ->
   signal_handler_connect (Some handler) name callback data s = Ret tt s) ∧
  (darray_ok (callbacks_of name l ++ [mk_signal_callback callback data]) ->
   name ∈ names l ∨ next_init_result s = 0 ->
   (signal_handler_connect (Some handler) name callback data ;;
    signal_handler_connect (Some handler) name callback data) s =
   signal_handler_connect (Some handler) name callback data s).
Proof.
  intros Hr Hq.
  destruct (names_split name l) as [Hn | (l1 & a & i & l2 & -> & Hn & Hi)].
  - rewrite (callbacks_of_absent _ _ Hn) in *. split.
    + intros _ Hin. inversion Hin.
    + intros Hok [Hin | Hrc]; [contradiction|].
      destruct (signal_handler_connect_absent_ok _ _ _ _ callback data Hr Hn Hrc)
        as (b & s' & Hc & Hb & Hr' & _).
      eapply bind_Ret; [exact Hc|]. rewrite Hc.
      erewrite signal_handler_connect_found;
        [| exact Hr' | now rewrite names_set_last_next | reflexivity | reflexivity].
      f_equal. apply set_heap_insert_id.
      rewrite (registry_node _ _ _ _ _ _ _ Hr'). simpl si_callbacks.
      rewrite connect_array_connected; [reflexivity | exact Hok | left].
  - rewrite (callbacks_of_found _ _ _ _ _ Hn Hi) in *.
    pose proof (quiescent_node _ _ _ _ Hq) as Hm.
    pose proof (signal_handler_connect_found _ _ _ _ _ _ _ callback data Hr Hn Hi Hm) as Hc.
    split.
    + intros Hok Hin. rewrite Hc.
      rewrite connect_array_connected; [| exact Hok | exact Hin].
      rewrite with_callbacks_id. f_equal. apply set_heap_insert_id.
      eapply registry_node; eauto.
    + intros Hok _. eapply bind_Ret; [exact Hc|]. rewrite Hc.
      erewrite signal_handler_connect_found;
        [| eapply registry_update; [|exact Hr]; reflexivity | exact Hn | exact Hi | exact Hm].
      simpl si_callbacks. rewrite (connect_array_idem _ _ _ Hok).
      now rewrite set_heap_insert_insert.
Qed.

Lemma registry_handler_lock s handler m l :
  registry s handler m l -> handler_lock s handler = Some m.
Proof.
  intros Hr. unfold handler_lock. now rewrite (registry_lookup _ _ _ _ Hr).
Qed.

(** C1.  The state of the registry lock when [signal_handler_connect]
    returns, on a registry with no call under way.  The call always
    returns.  The lock is free again when the signal exists and when it is
    created; when [signal_info_create] fails the function returns from
    inside the branch and the lock is left held, so that the registry is
    unchanged but every later call on it waits for ever.  The claim holds
    on the first two paths and the code departs from it on the third. *)
Theorem connect_lock_on_return (s : state) (handler : loc)
    (l : list (loc * signal_info)) (name : string)
    (callback : fn_ptr) (data : void_ptr) :
  registry s handler MutexUnlocked l ->
  quiescent l ->
  ∃ s',
    signal_handler_connect (Some handler) name callback data s = Ret tt s' ∧
    handler_lock s' handler =
      Some (if decide (name ∈ names l) then MutexUnlocked
            else if next_init_result s =? 0 then MutexUnlocked
            else MutexLocked) ∧
    (name ∉ names l -> next_init_result s <> 0 ->
     registry s' handler MutexLocked l ∧
     ∀ name' callback' data' params',
       signal_handler_connect (Some handler) name' callback' data' s' = Blocks s' ∧
       signal_handler_disconnect (Some handler) name' callback' data' s' = Blocks s' ∧
       signal_handler_signal (Some handler) name' params' s' = Blocks s').
Proof.
  intros Hr Hq.
  destruct (names_split name l) as [Hn | (l1 & a & i & l2 & -> & Hn & Hi)].
  - destruct (decide (name ∈ names l)) as [Hin | _]; [contradiction|].
    destruct (next_init_result s =? 0) eqn:Hrc.
    + apply Z.eqb_eq in Hrc.
      destruct (signal_handler_connect_absent_ok _ _ _ _ callback data Hr Hn Hrc)
        as (b & s' & Hc & Hb & Hr' & _).
      exists s'. split; [exact Hc|]. split; [eapply registry_handler_lock; eauto|].
      intros _ Hne. contradiction.
    + apply Z.eqb_neq in Hrc. eexists. split; [eapply signal_handler_connect_absent_fail; eauto|].
      assert (Hr' : registry (add_log LOG_ERROR "Could not create signal!"
                 (pop_result (set_heap (insert handler
                    (OHandler (mk_signal_handler (first_ptr l) MutexLocked))) s)))
                 handler MutexLocked l).
      { eapply registry_heap; [|eapply registry_set_mutex; exact Hr]. reflexivity. }
      split; [eapply registry_handler_lock; eauto|].
      intros _ _. split; [exact Hr'|]. intros name' callback' data' params'.
      split; [eapply signal_handler_connect_held; eauto|].
      split.
      * unfold signal_handler_disconnect. apply bind_Blocks.
        eapply getsignal_locked_held; eauto.
      * unfold signal_handler_signal. apply bind_Blocks.
        eapply getsignal_locked_held; eauto.
  - assert (Hin : name ∈ names (l1 ++ (a, i) :: l2)).
    { rewrite names_app. apply elem_of_app. right. simpl. rewrite Hi. left. }
    destruct (decide (name ∈ names (l1 ++ (a, i) :: l2))) as [_ | Hnin]; [|contradiction].
    pose proof (quiescent_node _ _ _ _ Hq) as Hm.
    eexists. split; [eapply signal_handler_connect_found; eauto|].
    split.
    + eapply registry_handler_lock. eapply registry_update; [|exact Hr]. reflexivity.
    + intros Hnin. contradiction.
Qed.

(** C10.  When the creation of the signal fails inside
    [signal_handler_connect] (a registry with a free lock, a name that no
    signal has, a [pthread_mutex_init] that fails), the call returns and the
    collection of signals is what it was, as the claim says: the same nodes
    at the same places, with the same names, arrays, locks and [next]
    pointers, [first] the same pointer, and no callback is invoked.  The
    link that the failed call makes writes [NULL] where [NULL] already is:
    on any registry with these nodes it leaves the state as it was.  But
    the registry is not left as it was: its lock, free before the call, is
    held when the call returns, the [return] of lines 147-148 coming before
    the unlock of line 151. *)
Theorem failed_connect_keeps_entries (s : state) (handler : loc)
    (l : list (loc * signal_info)) (name : string)
    (callback : fn_ptr) (data : void_ptr) :
  registry s handler MutexUnlocked l ->
  name ∉ names l ->
  next_init_result s <> 0 ->
  (∃ s',
     signal_handler_connect (Some handler) name callback data s = Ret tt s' ∧
     registry s' handler MutexLocked l ∧
     handler_lock s handler = Some MutexUnlocked ∧
     handler_lock s' handler = Some MutexLocked ∧
     calls s' = calls s) ∧
  (∀ s1 m, registry s1 handler m l ->
     link (Some handler) (last_ptr NULL l) NULL s1 = Ret tt s1).
Proof.
  intros Hr Hn Hrc. split.
  - eexists.
    split; [eapply signal_handler_connect_absent_fail; eauto|].
    assert (Hr' : registry
              (set_heap (insert handler (OHandler (mk_signal_handler (first_ptr l) MutexLocked)))
                 (add_log LOG_ERROR "Could not create signal!" (pop_result s)))
              handler MutexLocked l).
    { eapply registry_heap; [|eapply registry_set_mutex; exact Hr]; reflexivity. }
    split; [exact Hr'|].
    split; [eapply registry_handler_lock; exact Hr|].
    split; [eapply registry_handler_lock; exact Hr' | reflexivity].
  - intros s1 m Hr1. eapply link_null; eauto.
Qed.


(** ** The collection of signals over time *)

Lemma entries_app l1 l2 : entries (l1 ++ l2) = entries l1 ++ entries l2.
Proof. unfold entries. apply map_app. Qed.

Lemma entries_set_last_next l v : entries (set_last_next l v) = entries l.
Proof.
  destruct (list_nil_or_snoc l) as [-> | (l0 & [t it] & ->)]; [reflexivity|].
  rewrite set_last_next_snoc, !entries_app. reflexivity.
Qed.

Lemma quiescent_set_last_next l v : quiescent l -> quiescent (set_last_next l v).
Proof.
  destruct (list_nil_or_snoc l) as [-> | (l0 & [t it] & ->)]; [auto|].
  rewrite set_last_next_snoc. unfold quiescent. rewrite !Forall_app.
  intros [H0 Ht]. split; [exact H0|]. inversion Ht; subst. constructor; auto.
Qed.

Lemma quiescent_update l1 a i l2 i' :
  si_mutex i' = MutexUnlocked -> quiescent (l1 ++ (a, i) :: l2) ->
  quiescent (l1 ++ (a, i') :: l2).
Proof.
  unfold quiescent. rewrite !Forall_app. intros Hm [H1 H2]. split; [exact H1|].
  inversion H2; subst. constructor; auto.
Qed.

Lemma entries_update l1 a i l2 i' :
  si_name i' = si_name i -> entries (l1 ++ (a, i') :: l2) = entries (l1 ++ (a, i) :: l2).
Proof. intros Hn. rewrite !entries_app. simpl. now rewrite Hn. Qed.

(** One call: it returns or waits for ever, the registry is still a
    registry, and its signals are those it had, then the new ones. *)
Lemma run_operation_entries s handler m l op :
  registry s handler m l -> m ≠ MutexUninit -> quiescent l ->
  ∃ s' m' l',
    (run_operation (Some handler) op s = Ret tt s' ∨
     run_operation (Some handler) op s = Blocks s') ∧
    registry s' handler m' l' ∧ m' ≠ MutexUninit ∧ quiescent l' ∧
    entries l `prefix_of` entries l' ∧
    (is_connect op = false -> entries l' = entries l).
Proof.
  intros Hr Hm Hq. destruct m; [congruence | |].
  2:{ (* the registry lock is held *)
    exists s, MutexLocked, l. split; [right|].
    - destruct op; simpl.
      + eapply signal_handler_connect_held; eauto.
      + unfold signal_handler_disconnect. apply bind_Blocks.
        eapply getsignal_locked_held; eauto.
      + unfold signal_handler_signal. apply bind_Blocks.
        eapply getsignal_locked_held; eauto.
    - repeat split; auto. }
  destruct op as [name callback data | name callback data | name params]; simpl.
  - destruct (names_split name l) as [Hn | (l1 & a & i & l2 & -> & Hn & Hi)].
    + destruct (decide (next_init_result s = 0)) as [Hrc | Hrc].
      * destruct (signal_handler_connect_absent_ok _ _ _ _ callback data Hr Hn Hrc)
          as (b & s' & Hc & Hb & Hr' & _).
        eexists s', MutexUnlocked, _. split; [left; exact Hc|].
        split; [exact Hr'|]. split; [congruence|]. split.
        { apply Forall_app. split; [now apply quiescent_set_last_next|].
          constructor; [reflexivity | constructor]. }
        split; [|discriminate].
        rewrite entries_app, entries_set_last_next. now eexists.
      * eexists _, MutexLocked, l.
        split; [left; eapply signal_handler_connect_absent_fail; eauto|].
        split; [eapply registry_heap; [|eapply registry_set_mutex; exact Hr]; reflexivity|].
        repeat split; auto.
    + pose proof (quiescent_node _ _ _ _ Hq) as Hmi.
      eexists _, MutexUnlocked, _.
      split; [left; eapply signal_handler_connect_found; eauto|].
      split; [eapply registry_update; [|exact Hr]; reflexivity|].
      split; [congruence|].
      split; [eapply quiescent_update; [|exact Hq]; exact Hmi|].
      match goal with
      | |- entries ?x `prefix_of` entries ?y ∧ _ =>
          assert (He : entries y = entries x) by (apply entries_update; reflexivity)
      end.
      rewrite He. split; [reflexivity | auto].
  - destruct (names_split name l) as [Hn | (l1 & a & i & l2 & -> & Hn & Hi)].
    + exists s, MutexUnlocked, l.
      split; [left; eapply signal_handler_disconnect_absent; eauto|].
      repeat split; auto.
    + pose proof (quiescent_node _ _ _ _ Hq) as Hmi.
      eexists _, MutexUnlocked, _.
      split; [left; eapply signal_handler_disconnect_found; eauto|].
      split; [eapply registry_update; [|exact Hr]; reflexivity|].
      split; [congruence|].
      split; [eapply quiescent_update; [|exact Hq]; reflexivity|].
      match goal with
      | |- entries ?x `prefix_of` entries ?y ∧ _ =>
          assert (He : entries y = entries x) by (apply entries_update; reflexivity)
      end.
      rewrite He. split; [reflexivity | auto].
  - destruct (names_split name l) as [Hn | (l1 & a & i & l2 & -> & Hn & Hi)].
    + exists s, MutexUnlocked, l.
      split; [left; eapply signal_handler_signal_absent; eauto|].
      repeat split; auto.
    + pose proof (quiescent_node _ _ _ _ Hq) as Hmi.
      eexists _, MutexUnlocked, _.
      split; [left; eapply signal_handler_signal_found; eauto|].
      split; [eapply registry_heap; [|exact Hr]; reflexivity|].
      repeat split; auto.
Qed.

(** ** [signal_handler_destroy] *)

Lemma lookup_free_all (h : gmap loc object) (ls : list loc) a :
  foldl (fun hp b => delete b hp) h ls !! a = if decide (a ∈ ls) then None else h !! a.
Proof.
  revert h. induction ls as [|b ls IH]; intros h; simpl.
  - destruct (decide (a ∈ [])) as [Hin|]; [inversion Hin | reflexivity].
  - rewrite IH. destruct (decide (a ∈ ls)) as [Hin | Hn].
    + destruct (decide (a ∈ b :: ls)) as [|Hn']; [reflexivity|].
      exfalso. apply Hn'. now right.
    + destruct (decide (a = b)) as [-> | Hne].
      * rewrite lookup_delete_eq. destruct (decide (b ∈ b :: ls)) as [|Hn']; [reflexivity|].
        exfalso. apply Hn'. left.
      * rewrite lookup_delete_ne by congruence.
        destruct (decide (a ∈ b :: ls)) as [Hin|]; [|reflexivity].
        apply elem_of_cons in Hin as [? | ?]; contradiction.
Qed.

Lemma signal_info_destroy_eq s a i :
  heap s !! a = Some (OSignal i) -> si_mutex i = MutexUnlocked ->
  signal_info_destroy (Some a) s = Ret tt (set_heap (delete a) s).
Proof.
  intros Ha Hm. destruct i as [n cbs m nx]; simpl in *; subst m.
  unfold signal_info_destroy.
  eapply bind_Ret.
  { unfold pthread_mutex_destroy. eapply bind_Ret.
    { unfold load_mutex. eapply bind_Ret; [apply load_signal_eq; exact Ha | reflexivity]. }
    simpl. unfold store_mutex. eapply bind_Ret; [apply load_signal_eq; exact Ha|].
    eapply store_signal_eq; exact Ha. }
  eapply bind_Ret.
  { unfold da_free. eapply set_callbacks_eq. simpl. apply lookup_insert_eq. }
  unfold bfree. simpl. rewrite lookup_insert_eq. f_equal.
  destruct s as [h lg rs cs]; unfold set_heap; simpl. f_equal.
  rewrite !insert_insert_eq. apply delete_insert_eq.
Qed.

Lemma signal_handler_destroy_loop_eq fuel s p l :
  chain (heap s) p l -> quiescent l -> (length l <= fuel)%nat ->
  signal_handler_destroy_loop fuel p s =
  Ret tt (set_heap (fun hp => foldl (fun hp b => delete b hp) hp (locs l)) s).
Proof.
  revert fuel s p. induction l as [|[a i] l IH]; intros fuel s p Hc Hq Hf; simpl in *.
  - subst p. destruct fuel; unfold ret; simpl; now rewrite set_heap_id.
  - destruct Hc as (-> & Ha & Hc). destruct fuel as [|fuel]; [lia|]. simpl.
    inversion Hq as [|? ? Hmi Hq']; subst. simpl in Hmi.
    eapply bind_Ret; [apply load_signal_eq; exact Ha|].
    eapply bind_Ret; [eapply signal_info_destroy_eq; eauto|].
    rewrite IH; [reflexivity | | exact Hq' | lia].
    simpl. apply chain_delete_frame; [|exact Hc].
    pose proof (chain_NoDup (heap s) (Some a) ((a, i) :: l)) as Hnd.
    simpl in Hnd. specialize (Hnd (conj eq_refl (conj Ha Hc))). now inversion Hnd.
Qed.

(** Destroying a registry with no call under way frees the registry and
    every signal of it, and nothing else. *)
Lemma signal_handler_destroy_frees s handler l :
  registry s handler MutexUnlocked l -> quiescent l ->
  ∃ s', signal_handler_destroy (Some handler) s = Ret tt s' ∧
        ∀ a, heap s' !! a = if decide (a ∈ handler :: locs l) then None else heap s !! a.
Proof.
  intros Hr Hq. pose proof (registry_lookup _ _ _ _ Hr) as Hh.
  pose proof (registry_chain _ _ _ _ Hr) as Hc.
  pose proof (registry_handler_fresh _ _ _ _ Hr) as Hf.
  set (s1 := set_heap (fun hp => foldl (fun hp b => delete b hp) hp (locs l)) s).
  assert (Hh1 : heap s1 !! handler =
                Some (OHandler (mk_signal_handler (first_ptr l) MutexUnlocked))).
  { simpl. rewrite lookup_free_all. destruct (decide (handler ∈ locs l)); [contradiction | exact Hh]. }
  eexists. split.
  - unfold signal_handler_destroy.
    eapply bind_Ret; [apply load_handler_eq; exact Hh|].
    eapply bind_Ret.
    { cbv beta. change (sh_first (mk_signal_handler (first_ptr l) MutexUnlocked)) with (first_ptr l).
      apply signal_handler_destroy_loop_eq; [exact Hc | exact Hq|].
      pose proof (chain_length _ _ _ Hc). lia. }
    fold s1. eapply bind_Ret.
    { unfold pthread_mutex_destroy. eapply bind_Ret.
      { unfold load_mutex. eapply bind_Ret; [apply load_handler_eq; exact Hh1 | reflexivity]. }
      simpl sh_mutex. cbv iota. unfold store_mutex.
      eapply bind_Ret; [apply load_handler_eq; exact Hh1|].
      eapply store_handler_eq; exact Hh1. }
    unfold bfree. simpl. rewrite lookup_insert_eq. reflexivity.
  - intros a. simpl. rewrite delete_insert_eq.
    destruct (decide (a = handler)) as [-> | Hne].
    + rewrite lookup_delete_eq. destruct (decide (handler ∈ handler :: locs l)) as [|Hn]; [reflexivity|].
      exfalso. apply Hn. left.
    + rewrite lookup_delete_ne by congruence. rewrite lookup_free_all.
      destruct (decide (a ∈ locs l)) as [Hin | Hn].
      * destruct (decide (a ∈ handler :: locs l)) as [|Hn']; [reflexivity|].
        exfalso. apply Hn'. now right.
      * destruct (decide (a ∈ handler :: locs l)) as [Hin|]; [|reflexivity].
        apply elem_of_cons in Hin as [? | ?]; contradiction.
Qed.

(** C7.  From a registry with no call under way, any sequence of calls of
    [signal_handler_connect], [signal_handler_disconnect] and
    [signal_handler_signal] either returns or stops in a call that waits for
    ever, and at that point the registry still is a registry whose signals
    are those it had at the start, at the same places and with the same
    names, followed by the signals added since: none is removed, none is
    renamed.  When no call of the sequence is a connect, the signals are
    exactly those of the start.  [signal_handler_destroy] is what removes
    them: it frees the registry and each of its signals. *)
Theorem entries_append_only (s : state) (handler : loc) (m : pthread_mutex_t)
    (l : list (loc * signal_info)) (ops : list operation) :
  registry s handler m l ->
  m ≠ MutexUninit ->
  quiescent l ->
  (∃ s' m' l',
     (run_operations (Some handler) ops s = Ret tt s' ∨
      run_operations (Some handler) ops s = Blocks s') ∧
     registry s' handler m' l' ∧
     entries l `prefix_of` entries l' ∧
     (forallb (fun op => negb (is_connect op)) ops = true -> entries l' = entries l)) ∧
  (m = MutexUnlocked ->
   ∃ s', signal_handler_destroy (Some handler) s = Ret tt s' ∧
         ∀ a, a ∈ handler :: locs l -> heap s' !! a = None).
Proof.
  intros Hr Hm Hq. split.
  - revert s m l Hr Hm Hq. induction ops as [|op ops IH]; intros s m l Hr Hm Hq.
    + exists s, m, l. split; [left; reflexivity|]. repeat split; auto.
    + destruct (run_operation_entries _ _ _ _ op Hr Hm Hq)
        as (s1 & m1 & l1 & Hop & Hr1 & Hm1 & Hq1 & Hpre & Hsame).
      destruct Hop as [Hop | Hop].
      * destruct (IH _ _ _ Hr1 Hm1 Hq1) as (s' & m' & l' & Hops & Hr' & Hpre' & Hsame').
        exists s', m', l'. split.
        { simpl. unfold bind. rewrite Hop. exact Hops. }
        split; [exact Hr'|]. split; [etransitivity; eauto|].
        simpl. intros Hall. apply andb_true_iff in Hall as [H1 H2].
        rewrite Hsame' by exact H2. apply Hsame. now destruct (is_connect op).
      * exists s1, m1, l1. split; [right; simpl; apply bind_Blocks; exact Hop|].
        split; [exact Hr1|]. split; [exact Hpre|].
        simpl. intros Hall. apply andb_true_iff in Hall as [H1 H2].
        apply Hsame. now destruct (is_connect op).
  - intros ->. destruct (signal_handler_destroy_frees _ _ _ Hr Hq) as (s' & Hd & Hfree).
    exists s'. split; [exact Hd|]. intros a Hin. rewrite Hfree.
    destruct (decide (a ∈ handler :: locs l)); [reflexivity | contradiction].
Qed.


(** ** Concurrent calls of [signal_handler_connect] *)

Lemma entries_same l l' :
  entries l' = entries l ->
  names l' = names l ∧ locs l' = locs l ∧ first_ptr l' = first_ptr l ∧
  ∀ p, last_ptr p l' = last_ptr p l.
Proof.
  revert l'. induction l as [|[a i] l IH]; intros [|[a' i'] l'] He; simpl in *;
    try discriminate.
  - repeat split; auto.
  - inversion He as [[Ha Hn Hl]]. destruct (IH _ Hl) as (Hnames & Hlocs & _ & Hlast).
    unfold names, locs in *. simpl. rewrite Hnames, Hlocs, Hn.
    repeat split; auto.
Qed.

Lemma entries_app_inv l' l1 l2 :
  entries l' = entries (l1 ++ l2) ->
  ∃ l1' l2', l' = l1' ++ l2' ∧ entries l1' = entries l1 ∧ entries l2' = entries l2.
Proof.
  revert l'. induction l1 as [|e l1 IH]; intros l' He; simpl in *.
  - exists [], l'. auto.
  - destruct l' as [|e' l']; [discriminate|]. simpl in He. inversion He as [[H1 H2 H3]].
    destruct (IH _ H3) as (l1' & l2' & -> & He1 & He2).
    exists (e' :: l1'), l2'. simpl. rewrite He1, H1, H2. auto.
Qed.

(** A thread keeps what it knows when the signals stay the same signals and
    the blocks outside them stay the same blocks. *)
Lemma thread_inv_frame hp hp' l l' t :
  entries l' = entries l ->
  (∀ b, b ∉ locs l -> hp' !! b = hp !! b) ->
  thread_inv hp l t -> thread_inv hp' l' t.
Proof.
  intros He Hf. destruct (entries_same _ _ He) as (Hnames & Hlocs & Hfirst & Hlast).
  unfold thread_inv. destruct (th_pc t) as [| |sg la|la|sg la|sg|sg|sg|sg|sg|]; auto.
  - intros (l1 & l2 & -> & Hn & Hs & Hl).
    destruct (entries_app_inv _ _ _ He) as (l1' & l2' & -> & He1 & He2).
    destruct (entries_same _ _ He1) as (Hn1 & _ & _ & Hl1).
    destruct (entries_same _ _ He2) as (_ & _ & Hf2 & _).
    exists l1', l2'. rewrite Hn1, Hf2, Hl1. auto.
  - rewrite Hnames, Hlast. auto.
  - rewrite Hnames, Hlast, Hlocs. intros (Hn & Hl & Hs). split; [exact Hn|]. split; [exact Hl|].
    destruct sg as [b|]; [|exact I]. destruct Hs as [Hb Hnb]. split; [|exact Hnb].
    now rewrite Hf.
  - now rewrite Hlocs.
  - now rewrite Hlocs.
  - now rewrite Hlocs.
  - now rewrite Hlocs.
  - now rewrite Hlocs.
Qed.

(** A thread outside the critical section keeps what it knows when signals
    are added. *)
Lemma thread_inv_mono hp hp' l l' t :
  in_cs (th_pc t) = false ->
  locs l ⊆ locs l' ->
  thread_inv hp l t -> thread_inv hp' l' t.
Proof.
  intros Hcs Hsub. unfold thread_inv.
  destruct (th_pc t) as [| |sg la|la|sg la|sg|sg|sg|sg|sg|]; try discriminate; auto;
    intros (b & -> & Hb); exists b; auto.
Qed.

(** A step of the thread that is, or comes to be, in the critical section:
    the others are outside. *)
Lemma threads_ok_step_cs hp hp' m m' l l' ts k t pc' :
  threads_ok hp m l ts ->
  ts !! k = Some t ->
  in_cs (th_pc t) = true ∨ m = MutexUnlocked ->
  locs l ⊆ locs l' ->
  thread_inv hp' l' (set_pc t pc') ->
  (in_cs pc' = true -> m' = MutexLocked) ->
  threads_ok hp' m' l' (<[k := set_pc t pc']> ts).
Proof.
  intros [Hall Hex] Hk Hcs Hsub Hinv Hm'.
  assert (Hothers : ∀ j tj, j ≠ k -> ts !! j = Some tj -> in_cs (th_pc tj) = false).
  { intros j tj Hjk Hj. destruct (in_cs (th_pc tj)) eqn:E; [|reflexivity].
    destruct Hcs as [Hcs | Hcs].
    - exfalso. apply Hjk. eapply Hex; eauto.
    - destruct (Hall _ _ Hj) as [_ Hl]. specialize (Hl E). congruence. }
  split.
  - intros j tj Hj. destruct (decide (j = k)) as [-> | Hjk].
    + rewrite list_lookup_insert_eq in Hj by (eapply lookup_lt_Some; eauto).
      inversion Hj; subst tj. split; [exact Hinv | exact Hm'].
    + rewrite list_lookup_insert_ne in Hj by congruence.
      pose proof (Hothers _ _ Hjk Hj) as Hout. split.
      * apply (thread_inv_mono hp hp' l l'); [exact Hout | exact Hsub | apply (Hall _ _ Hj)].
      * rewrite Hout. discriminate.
  - intros k1 k2 t1 t2 H1 H2 Hc1 Hc2.
    destruct (decide (k1 = k)) as [-> | Hk1], (decide (k2 = k)) as [-> | Hk2]; auto.
    + rewrite list_lookup_insert_ne in H2 by congruence.
      rewrite (Hothers _ _ Hk2 H2) in Hc2. discriminate.
    + rewrite list_lookup_insert_ne in H1 by congruence.
      rewrite (Hothers _ _ Hk1 H1) in Hc1. discriminate.
    + rewrite list_lookup_insert_ne in H1 by congruence.
      rewrite (Hothers _ _ Hk1 H1) in Hc1. discriminate.
Qed.

(** A step of a thread that is and stays outside the critical section and
    leaves the signals the same signals. *)
Lemma threads_ok_step_out hp hp' m l l' ts k t pc' :
  threads_ok hp m l ts ->
  ts !! k = Some t ->
  in_cs (th_pc t) = false -> in_cs pc' = false ->
  entries l' = entries l ->
  (∀ b, b ∉ locs l -> hp' !! b = hp !! b) ->
  thread_inv hp' l' (set_pc t pc') ->
  threads_ok hp' m l' (<[k := set_pc t pc']> ts).
Proof.
  intros [Hall Hex] Hk Hcs Hcs' He Hf Hinv. split.
  - intros j tj Hj. destruct (decide (j = k)) as [-> | Hjk].
    + rewrite list_lookup_insert_eq in Hj by (eapply lookup_lt_Some; eauto).
      inversion Hj; subst tj. split; [exact Hinv|]. simpl. rewrite Hcs'. discriminate.
    + rewrite list_lookup_insert_ne in Hj by congruence.
      destruct (Hall _ _ Hj) as [Hi Hl]. split; [|exact Hl].
      apply (thread_inv_frame hp hp' l l'); auto.
  - intros k1 k2 t1 t2 H1 H2 Hc1 Hc2.
    destruct (decide (k1 = k)) as [-> | Hk1].
    { rewrite list_lookup_insert_eq in H1 by (eapply lookup_lt_Some; eauto).
      inversion H1; subst t1. simpl in Hc1. congruence. }
    destruct (decide (k2 = k)) as [-> | Hk2].
    { rewrite list_lookup_insert_eq in H2 by (eapply lookup_lt_Some; eauto).
      inversion H2; subst t2. simpl in Hc2. congruence. }
    rewrite list_lookup_insert_ne in H1, H2 by congruence. eauto.
Qed.


Lemma lock_handler_cases s a p m :
  heap s !! a = Some (OHandler (mk_signal_handler p m)) ->
  pthread_mutex_lock (handler_mutex (Some a)) s =
  match m with
  | MutexUnlocked =>
      Ret tt (set_heap (insert a (OHandler (mk_signal_handler p MutexLocked))) s)
  | MutexLocked => Blocks s
  | MutexUninit => Fault
  end.
Proof. intros H. destruct m; run_prim H. Qed.

Lemma unlock_handler_cases s a p m :
  heap s !! a = Some (OHandler (mk_signal_handler p m)) ->
  pthread_mutex_unlock (handler_mutex (Some a)) s =
  match m with
  | MutexLocked =>
      Ret tt (set_heap (insert a (OHandler (mk_signal_handler p MutexUnlocked))) s)
  | _ => Fault
  end.
Proof. intros H. destruct m; run_prim H. Qed.

Lemma lock_signal_cases s a i :
  heap s !! a = Some (OSignal i) ->
  pthread_mutex_lock (signal_mutex (Some a)) s =
  match si_mutex i with
  | MutexUnlocked =>
      Ret tt (set_heap (insert a (OSignal
        (mk_signal_info (si_name i) (si_callbacks i) MutexLocked (si_next i)))) s)
  | MutexLocked => Blocks s
  | MutexUninit => Fault
  end.
Proof. intros H. destruct i as [n cbs m nx]. destruct m; run_prim H. Qed.

Lemma unlock_signal_cases s a i :
  heap s !! a = Some (OSignal i) ->
  pthread_mutex_unlock (signal_mutex (Some a)) s =
  match si_mutex i with
  | MutexLocked =>
      Ret tt (set_heap (insert a (OSignal
        (mk_signal_info (si_name i) (si_callbacks i) MutexUnlocked (si_next i)))) s)
  | _ => Fault
  end.
Proof. intros H. destruct i as [n cbs m nx]. destruct m; run_prim H. Qed.

Lemma locs_split b l : b ∈ locs l -> ∃ la i lb, l = la ++ (b, i) :: lb.
Proof.
  intros Hin. unfold locs in Hin. apply list_elem_of_fmap in Hin as ([b' i] & Hb & Hin).
  simpl in Hb. subst b'. apply list_elem_of_split in Hin as (la & lb & ->). eauto.
Qed.

Lemma locs_middle la b i lb : b ∈ locs (la ++ (b, i) :: lb).
Proof. rewrite locs_app. apply elem_of_app. right. left. Qed.

(** A store into a node of the registry by a thread outside the critical
    section that keeps the node's name and [next]. *)
Lemma store_node_inv s handler m la b i lb i' ts k t pc' :
  registry s handler m (la ++ (b, i) :: lb) ->
  NoDup (names (la ++ (b, i) :: lb)) ->
  threads_ok (heap s) m (la ++ (b, i) :: lb) ts ->
  ts !! k = Some t ->
  in_cs (th_pc t) = false -> in_cs pc' = false ->
  si_name i' = si_name i -> si_next i' = si_next i ->
  thread_inv (<[b := OSignal i']> (heap s)) (la ++ (b, i') :: lb) (set_pc t pc') ->
  ∃ m' l',
    registry (set_heap (insert b (OSignal i')) s) handler m' l' ∧ NoDup (names l') ∧
    threads_ok (<[b := OSignal i']> (heap s)) m' l' (<[k := set_pc t pc']> ts) ∧
    entries (la ++ (b, i) :: lb) `prefix_of` entries l' ∧
    (entries l' = entries (la ++ (b, i) :: lb) ∨
     (∃ c last, th_pc t = at_link (Some c) last)).
Proof.
  intros Hr Hnd Hok Hk Hcs Hcs' Hname Hnext Hinv.
  assert (He : entries (la ++ (b, i') :: lb) = entries (la ++ (b, i) :: lb))
    by now apply entries_update.
  destruct (entries_same _ _ He) as (Hnames & _).
  exists m, (la ++ (b, i') :: lb).
  split; [eapply registry_update; eauto|].
  split; [now rewrite Hnames|].
  split; [|split; [now rewrite He | now left]].
  eapply threads_ok_step_out; eauto.
  intros c Hc. rewrite lookup_insert_ne; [reflexivity|].
  intros ->. apply Hc, locs_middle.
Qed.


(** One step of one thread keeps the invariant, and the signals of the
    registry are those before the step, then at most a new one; the step
    that adds one is the link of a new node. *)
Lemma connect_step_inv s handler m l ts k t pc' s' :
  registry s handler m l -> NoDup (names l) -> threads_ok (heap s) m l ts ->
  ts !! k = Some t ->
  connect_step (Some handler) t s = Next pc' s' ->
  ∃ m' l',
    registry s' handler m' l' ∧ NoDup (names l') ∧
    threads_ok (heap s') m' l' (<[k := set_pc t pc']> ts) ∧
    entries l `prefix_of` entries l' ∧
    (entries l' = entries l ∨ (∃ c last, th_pc t = at_link (Some c) last)).
Proof.
  intros Hr Hnd Hok Hk Hstep.
  pose proof (registry_lookup _ _ _ _ Hr) as Hh.
  destruct (proj1 Hok _ _ Hk) as [Hinv Hlock].
  destruct t as [name cb d pc]. unfold connect_step, thread_inv in *. simpl in *.
  destruct pc as [| |sg la|la|sg la|sg|sg|sg|sg|sg|]; simpl in *.
  - (* at_lock *)
    unfold step_of in Hstep. rewrite (lock_handler_cases _ _ _ _ Hh) in Hstep.
    destruct m; try discriminate. inversion Hstep; subst; clear Hstep.
    exists MutexLocked, l. split; [apply (registry_set_mutex _ _ _ _ _ Hr)|].
    split; [exact Hnd|]. split; [|split; [reflexivity | now left]].
    eapply threads_ok_step_cs; eauto; exact I.
  - (* at_getsignal *)
    unfold step_of in Hstep. rewrite (load_handler_eq _ _ _ Hh) in Hstep.
    inversion Hstep; subst; clear Hstep.
    exists m, l. split; [exact Hr|]. split; [exact Hnd|]. split; [|split; [reflexivity | now left]].
    eapply threads_ok_step_cs; eauto.
    unfold thread_inv. simpl. exists [], l. repeat split; auto. apply not_elem_of_nil.
  - (* at_getsignal_loop *)
    destruct Hinv as (l1 & l2 & -> & Hn & -> & ->).
    destruct l2 as [|[a i] l2]; simpl in Hstep.
    + inversion Hstep; subst; clear Hstep.
      eexists m, _. split; [exact Hr|]. split; [exact Hnd|]. split; [|split; [reflexivity | now left]].
      eapply threads_ok_step_cs; eauto.
      unfold thread_inv. simpl. now rewrite app_nil_r.
    + unfold step_of in Hstep. rewrite (load_signal_eq _ _ _ (registry_node _ _ _ _ _ _ _ Hr)) in Hstep.
      inversion Hstep; subst; clear Hstep.
      eexists m, _. split; [exact Hr|]. split; [exact Hnd|]. split; [|split; [reflexivity | now left]].
      destruct (strcmp (si_name i) name =? 0) eqn:E.
      * eapply threads_ok_step_cs; eauto.
        unfold thread_inv. simpl. exists a. split; [reflexivity | apply locs_middle].
      * eapply threads_ok_step_cs; eauto.
        unfold thread_inv. simpl. exists (l1 ++ [(a, i)]), l2.
        split; [now rewrite <- app_assoc|]. split.
        { rewrite names_app. apply not_elem_of_app. split; [exact Hn|].
          simpl. apply not_elem_of_cons. split; [|apply not_elem_of_nil].
          apply strcmp_neq in E. congruence. }
        split; [|now rewrite last_ptr_snoc].
        pose proof (chain_suffix _ _ _ _ (registry_chain _ _ _ _ Hr)) as Hs. simpl in Hs.
        destruct Hs as (_ & _ & Hs). now apply chain_first in Hs.
  - (* at_create *)
    destruct Hinv as [Hn ->]. unfold step_of in Hstep.
    rewrite signal_info_create_eq in Hstep.
    destruct (next_init_result s =? 0); inversion Hstep; subst; clear Hstep.
    + destruct (registry_alloc (pop_result s) handler m l (fresh (dom (heap s)))
                  (OSignal (new_signal name))) as [Hr2 Hbl];
        [eapply registry_heap; [|exact Hr]; reflexivity | apply fresh_heap |].
      exists m, l. split; [exact Hr2|]. split; [exact Hnd|]. split; [|split; [reflexivity | now left]].
      eapply threads_ok_step_cs; eauto.
      unfold thread_inv. simpl. repeat split; auto. apply lookup_insert_eq.
    + exists m, l. split; [eapply registry_heap; [|exact Hr]; reflexivity|].
      split; [exact Hnd|]. split; [|split; [reflexivity | now left]].
      eapply threads_ok_step_cs; eauto.
      unfold thread_inv. simpl. auto.
  - (* at_link *)
    destruct Hinv as (Hn & -> & Hsg). unfold step_of in Hstep.
    destruct sg as [b|].
    + destruct Hsg as [Hb Hbl].
      destruct (link_node _ _ _ _ _ _ Hr Hb Hbl eq_refl) as (s1 & Hlink & Hr1 & _).
      rewrite Hlink in Hstep. inversion Hstep; subst; clear Hstep.
      eexists m, _. split; [exact Hr1|].
      assert (Hlocs : locs l ⊆ locs (set_last_next l (Some b) ++ [(b, new_signal name)])).
      { rewrite locs_app, locs_set_last_next. intros c Hc. apply elem_of_app. now left. }
      split.
      { rewrite names_app, names_set_last_next. apply NoDup_app. split; [exact Hnd|].
        split; [|apply NoDup_singleton].
        intros x Hx Hx'. apply list_elem_of_singleton in Hx'. simpl in Hx'. congruence. }
      split; [|split; [rewrite entries_app, entries_set_last_next; now eexists | right; eauto]].
      eapply threads_ok_step_cs; eauto.
      unfold thread_inv. simpl. rewrite locs_app. apply elem_of_app. right. left.
    + rewrite (link_null _ _ _ _ Hr) in Hstep. inversion Hstep; subst; clear Hstep.
      exists m, l. split; [exact Hr|]. split; [exact Hnd|]. split; [|split; [reflexivity | now left]].
      eapply threads_ok_step_cs; eauto; exact I.
  - (* at_check *)
    destruct sg as [b|]; inversion Hstep; subst; clear Hstep.
    + exists m, l. split; [exact Hr|]. split; [exact Hnd|]. split; [|split; [reflexivity | now left]].
      eapply threads_ok_step_cs; eauto. unfold thread_inv. simpl. eauto.
    + exists m, l. split; [exact Hr|]. split; [exact Hnd|]. split; [|split; [reflexivity | now left]].
      eapply threads_ok_step_cs; eauto; try exact I; discriminate.
  - (* at_unlock *)
    unfold step_of in Hstep. rewrite (unlock_handler_cases _ _ _ _ Hh) in Hstep.
    destruct m; try discriminate. inversion Hstep; subst; clear Hstep.
    exists MutexUnlocked, l. split; [apply (registry_set_mutex _ _ _ _ _ Hr)|].
    split; [exact Hnd|]. split; [|split; [reflexivity | now left]].
    eapply threads_ok_step_cs; eauto; discriminate.
  - (* at_lock_sig *)
    destruct Hinv as (b & -> & Hb). destruct (locs_split _ _ Hb) as (la & i & lb & ->).
    unfold step_of in Hstep.
    rewrite (lock_signal_cases _ _ _ (registry_node _ _ _ _ _ _ _ Hr)) in Hstep.
    destruct (si_mutex i); try discriminate. inversion Hstep; subst; clear Hstep.
    eapply store_node_inv; eauto.
    unfold thread_inv. simpl. exists b. split; [reflexivity | apply locs_middle].
  - (* at_register *)
    destruct Hinv as (b & -> & Hb). destruct (locs_split _ _ Hb) as (la & i & lb & ->).
    pose proof (registry_node _ _ _ _ _ _ _ Hr) as Hbi.
    unfold step_of, bind in Hstep.
    rewrite (signal_get_callback_idx_eq _ _ _ _ _ Hbi) in Hstep.
    destruct (signal_get_callback_idx_from (si_callbacks i) 0 cb d =? DARRAY_INVALID).
    + unfold da_push_back, bind in Hstep. rewrite (load_signal_eq _ _ _ Hbi) in Hstep.
      rewrite (set_callbacks_eq _ _ _ _ Hbi) in Hstep.
      inversion Hstep; subst; clear Hstep.
      eapply store_node_inv; eauto.
      unfold thread_inv. simpl. exists b. split; [reflexivity | apply locs_middle].
    + inversion Hstep; subst; clear Hstep.
      exists m, (la ++ (b, i) :: lb). split; [exact Hr|]. split; [exact Hnd|].
      split; [|split; [reflexivity | now left]].
      eapply threads_ok_step_out; eauto.
      unfold thread_inv. simpl. exists b. split; [reflexivity | apply locs_middle].
  - (* at_unlock_sig *)
    destruct Hinv as (b & -> & Hb). destruct (locs_split _ _ Hb) as (la & i & lb & ->).
    unfold step_of in Hstep.
    rewrite (unlock_signal_cases _ _ _ (registry_node _ _ _ _ _ _ _ Hr)) in Hstep.
    destruct (si_mutex i); try discriminate. inversion Hstep; subst; clear Hstep.
    eapply store_node_inv; eauto; exact I.
  - discriminate.
Qed.


Lemma threads_ok_initial hp l ts :
  Forall (fun t => th_pc t = at_lock) ts -> threads_ok hp MutexUnlocked l ts.
Proof.
  intros Hall. rewrite Forall_lookup in Hall. split.
  - intros k t Hk. specialize (Hall _ _ Hk). unfold thread_inv. rewrite Hall.
    split; [exact I | discriminate].
  - intros k1 k2 t1 t2 H1 _ Hc1 _. specialize (Hall _ _ H1). rewrite Hall in Hc1.
    discriminate.
Qed.

(** The invariant holds all along every run. *)
Lemma reachable_inv handler c0 c :
  rtc (sched_step (Some handler)) c0 c ->
  ∀ m0 l0,
    registry c0.1 handler m0 l0 -> NoDup (names l0) ->
    threads_ok (heap c0.1) m0 l0 c0.2 ->
    ∃ m l, registry c.1 handler m l ∧ NoDup (names l) ∧
           threads_ok (heap c.1) m l c.2 ∧
           entries l0 `prefix_of` entries l.
Proof.
  induction 1 as [c | c0 c1 c Hstep _ IH]; intros m0 l0 Hr Hnd Hok.
  - exists m0, l0. split; [exact Hr|]. split; [exact Hnd|]. split; [exact Hok | reflexivity].
  - destruct Hstep as [s ts k t pc' s' Hk Hst]. simpl in *.
    destruct (connect_step_inv _ _ _ _ _ _ _ _ _ Hr Hnd Hok Hk Hst)
      as (m1 & l1 & Hr1 & Hnd1 & Hok1 & Hpre1 & _).
    destruct (IH _ _ Hr1 Hnd1 Hok1) as (m & l & Hr' & Hnd' & Hok' & Hpre').
    exists m, l. split; [exact Hr'|]. split; [exact Hnd'|]. split; [exact Hok'|].
    etransitivity; eauto.
Qed.



(** ** A thread alone is the sequential function *)

Lemma run_thread_step {A} handler t s (m : M A) (pcf : A -> connect_pc)
    (k : A -> M unit) :
  connect_step handler t s = step_of m pcf s ->
  (∀ s', m s = Blocks s' -> s' = s) ->
  (∀ a s', m s = Ret a s' -> ∃ f, run_thread f handler (set_pc t (pcf a)) s' = k a s') ->
  ∃ f, run_thread f handler t s = bind m k s.
Proof.
  intros Hstep Hb Hk. unfold bind. unfold step_of in Hstep. destruct (m s) as [a s'| s' | |] eqn:E.
  - destruct (Hk a s' eq_refl) as [f Hf]. exists (S f). simpl. now rewrite Hstep.
  - exists 1%nat. simpl. rewrite Hstep. now rewrite (Hb s' eq_refl).
  - exists 1%nat. simpl. now rewrite Hstep.
  - now exists 0%nat.
Qed.

Ltac no_blocks :=
  intros ? H;
  unfold pthread_mutex_lock, pthread_mutex_unlock, load_mutex, store_mutex, link,
    set_first, set_next, signal_get_callback_idx, da_push_back, set_callbacks,
    bind, ret, fault, load_handler, store_handler, load_signal, store_signal in H;
  simpl in H;
  repeat (case_match; simpl in H; try congruence);
  congruence.

Lemma lock_blocks mref s s' : pthread_mutex_lock mref s = Blocks s' -> s' = s.
Proof. revert s'. destruct mref; no_blocks. Qed.

Lemma unlock_blocks mref s s' : pthread_mutex_unlock mref s = Blocks s' -> s' = s.
Proof. revert s'. destruct mref; no_blocks. Qed.

Lemma load_handler_blocks p s s' : load_handler p s = Blocks s' -> s' = s.
Proof. revert s'. no_blocks. Qed.

Lemma load_signal_blocks p s s' : load_signal p s = Blocks s' -> s' = s.
Proof. revert s'. no_blocks. Qed.

Lemma link_blocks handler last sig s s' : link handler last sig s = Blocks s' -> s' = s.
Proof. revert s'. no_blocks. Qed.

Lemma register_blocks sig callback data s s' :
  (idx <- signal_get_callback_idx sig callback data ;;
   if idx =? DARRAY_INVALID
   then da_push_back sig (mk_signal_callback callback data)
   else ret tt) s = Blocks s' -> s' = s.
Proof. revert s'. no_blocks. Qed.

Lemma bind_assoc {A B C} (m : M A) (f : A -> M B) (g : B -> M C) s :
  bind (bind m f) g s = bind m (fun a => bind (f a) g) s.
Proof. unfold bind. now destruct (m s). Qed.

Lemma bind_ret_tt (m : M unit) s : bind m (fun _ => ret tt) s = m s.
Proof. unfold bind, ret. destruct (m s) as [[] s'| | |]; reflexivity. Qed.

Section Alone.

Variables (handler : ptr) (name : string) (cb : fn_ptr) (d : void_ptr).

Lemma alone_register sig s :
  ∃ f, run_thread f handler (mk_thread name cb d (at_lock_sig sig)) s =
       signal_handler_connect_register sig cb d s.
Proof.
  unfold signal_handler_connect_register.
  apply run_thread_step with (pcf := fun _ => at_register sig);
    [reflexivity | apply lock_blocks |].
  intros _ s1 _. simpl set_pc.
  rewrite <- bind_assoc.
  apply run_thread_step with (pcf := fun _ => at_unlock_sig sig);
    [reflexivity | apply register_blocks |].
  intros _ s2 _. simpl set_pc.
  rewrite <- bind_ret_tt.
  apply run_thread_step with (pcf := fun _ => returned);
    [reflexivity | apply unlock_blocks |].
  intros _ s3 _. now exists 1%nat.
Qed.

Lemma alone_unlock sig s :
  ∃ f, run_thread f handler (mk_thread name cb d (at_unlock sig)) s =
       (pthread_mutex_unlock (handler_mutex handler) ;;
        signal_handler_connect_register sig cb d) s.
Proof.
  apply run_thread_step with (pcf := fun _ => at_lock_sig sig);
    [reflexivity | apply unlock_blocks |].
  intros _ s1 _. apply alone_register.
Qed.

Lemma alone_create last s :
  ∃ f, run_thread f handler (mk_thread name cb d (at_create last)) s = (signal_handler_connect_rest handler name cb d) (NULL, last) s.
Proof.
  unfold signal_handler_connect_rest.
  apply run_thread_step with (pcf := fun sig => at_link sig last); [reflexivity | |].
  { intros s' H. rewrite signal_info_create_eq in H.
    destruct (next_init_result s =? 0); discriminate. }
  intros sig s1 _. simpl set_pc.
  apply run_thread_step with (pcf := fun _ => at_check sig);
    [reflexivity | apply link_blocks |].
  intros _ s2 _. simpl set_pc.
  destruct sig as [b|].
  - destruct (alone_unlock (Some b) s2) as [f Hf]. exists (S f). exact Hf.
  - now exists 2%nat.
Qed.

Lemma alone_getsignal_loop fuel signal last s :
  ∃ f, run_thread f handler (mk_thread name cb d (at_getsignal_loop signal last)) s =
       bind (getsignal_loop fuel name signal last) (signal_handler_connect_rest handler name cb d) s.
Proof.
  revert signal last. induction fuel as [|fuel IH]; intros signal last.
  - destruct signal as [a|]; simpl getsignal_loop.
    + now exists 0%nat.
    + destruct (alone_create last s) as [f Hf]. exists (S f). exact Hf.
  - destruct signal as [a|]; simpl getsignal_loop.
    + rewrite bind_assoc.
      apply run_thread_step
        with (pcf := fun i => if strcmp (si_name i) name =? 0 then at_unlock (Some a)
                              else at_getsignal_loop (si_next i) (Some a));
        [reflexivity | apply load_signal_blocks |].
      intros i s1 Hl. simpl set_pc.
      assert (s1 = s) as ->.
      { unfold load_signal in Hl. repeat case_match; congruence. }
      destruct (strcmp (si_name i) name =? 0).
      * apply alone_unlock.
      * apply IH.
    + destruct (alone_create last s) as [f Hf]. exists (S f). exact Hf.
Qed.

(** A thread that runs alone from the start of the function ends as the
    function does. *)
Lemma alone_connect s :
  ∃ f, run_thread f handler (mk_thread name cb d at_lock) s =
       signal_handler_connect handler name cb d s.
Proof.
  change (signal_handler_connect handler name cb d)
    with (pthread_mutex_lock (handler_mutex handler) ;;
          r <- getsignal handler name ;; (signal_handler_connect_rest handler name cb d) r).
  apply run_thread_step with (pcf := fun _ => at_getsignal);
    [reflexivity | apply lock_blocks |].
  intros _ s1 _. simpl set_pc.
  unfold getsignal. rewrite bind_assoc.
  apply run_thread_step with (pcf := fun h => at_getsignal_loop (sh_first h) NULL);
    [reflexivity | apply load_handler_blocks |].
  intros h s2 _. simpl set_pc.
  apply (alone_getsignal_loop (S (size (heap s2)))).
Qed.

End Alone.

(** More fuel does not change the end of a run. *)
Lemma run_thread_more f handler t s o :
  run_thread f handler t s = o -> o ≠ Diverges ->
  ∀ f', (f <= f')%nat -> run_thread f' handler t s = o.
Proof.
  revert t s. induction f as [|f IH]; intros t s Ho Hd f' Hle; simpl in Ho.
  - congruence.
  - destruct f' as [|f']; [lia|]. simpl.
    destruct (connect_step handler t s); auto. apply IH; auto. lia.
Qed.

(** The steps refine the function: a thread that runs alone ends as
    [signal_handler_connect] ends, whenever that is an end. *)
Lemma connect_steps_sequential handler name callback data s :
  signal_handler_connect handler name callback data s ≠ Diverges ->
  ∃ f, ∀ f', (f <= f')%nat ->
    run_thread f' handler (mk_thread name callback data at_lock) s =
    signal_handler_connect handler name callback data s.
Proof.
  intros Hd. destruct (alone_connect handler name callback data s) as [f Hf].
  exists f. intros f' Hle. eapply run_thread_more; eauto.
Qed.

Lemma run_schedule_rtc handler sched c :
  rtc (sched_step handler) c (run_schedule handler sched c).
Proof.
  revert c. induction sched as [|k sched IH]; intros [s ts]; simpl; [reflexivity|].
  destruct (ts !! k) as [t|] eqn:Hk; [|apply IH].
  destruct (connect_step handler t s) as [pc' s'| | |] eqn:Hs; try apply IH.
  eapply rtc_l; [|apply IH]. now constructor.
Qed.


(** * Further properties of the functions *)

(** ** The lookups *)

(** X1.  [signal_get_callback_idx] on a signal returns without changing
    anything.  When the pair is not on the array the result is
    [DARRAY_INVALID]; when it is, the result is the index of the first
    element equal to the pair: the element at that index is the pair and no
    element before it is. *)
Theorem signal_get_callback_idx_first (s : state) (a : loc) (i : signal_info)
    (callback : fn_ptr) (data : void_ptr) :
  heap s !! a = Some (OSignal i) ->
  ∃ idx,
    signal_get_callback_idx (Some a) callback data s = Ret idx s ∧
    ((¬ connected callback data (si_callbacks i) ∧ idx = DARRAY_INVALID) ∨
     (∃ k, idx = Z.of_nat k ∧
           si_callbacks i !! k = Some (mk_signal_callback callback data) ∧
           ∀ j, (j < k)%nat ->
                si_callbacks i !! j ≠ Some (mk_signal_callback callback data))).
Proof.
  intros Ha. eexists. split; [apply signal_get_callback_idx_eq; exact Ha|].
  destruct (decide (mk_signal_callback callback data ∈ si_callbacks i)) as [Hin | Hn].
  - right. destruct (first_occurrence _ _ Hin) as (c1 & c2 & -> & Hn1).
    exists (length c1). split; [rewrite signal_get_callback_idx_from_found by exact Hn1; lia|].
    split; [apply list_lookup_middle; reflexivity|].
    intros j Hj Hl. rewrite lookup_app_l in Hl by exact Hj.
    apply Hn1. eapply list_elem_of_lookup_2; eauto.
  - left. split; [exact Hn|]. now apply signal_get_callback_idx_from_absent.
Qed.

(** X2.  [getsignal] on a registry returns without changing anything, with
    any state of the registry lock.  When no node has the name it returns
    [NULL] and, for [p_last], the last node of the chain ([NULL] for an
    empty chain).  When a node has the name it returns the first such node,
    also when later nodes have the same name, and, for [p_last], the node
    just before it ([NULL] when it is the first node). *)
Theorem getsignal_first (s : state) (handler : loc) (m : pthread_mutex_t)
    (l : list (loc * signal_info)) (name : string) :
  registry s handler m l ->
  (name ∉ names l ->
   getsignal (Some handler) name s = Ret (NULL, last_ptr NULL l) s) ∧
  (∀ l1 a i l2,
     l = l1 ++ (a, i) :: l2 -> name ∉ names l1 -> si_name i = name ->
     getsignal (Some handler) name s = Ret (Some a, last_ptr NULL l1) s ∧
     match l1 with
     | [] => last_ptr NULL l1 = NULL ∧
             heap s !! handler = Some (OHandler (mk_signal_handler (Some a) m))
     | _ :: _ => ∃ t it, last_ptr NULL l1 = Some t ∧
                         heap s !! t = Some (OSignal it) ∧ si_next it = Some a
     end).
Proof.
  intros Hr. split.
  - intros Hn. eapply getsignal_absent; eauto.
  - intros l1 a i l2 -> Hn Hi. split; [eapply getsignal_found; eauto|].
    destruct (list_nil_or_snoc l1) as [-> | (l0 & [t it] & ->)].
    + split; [reflexivity|]. apply (registry_lookup _ _ _ _ Hr).
    + assert (H : ∃ t' it', last_ptr NULL (l0 ++ [(t, it)]) = Some t' ∧
                  heap s !! t' = Some (OSignal it') ∧ si_next it' = Some a).
      { exists t, it. split; [apply last_ptr_snoc|].
        pose proof (registry_chain _ _ _ _ Hr) as Hc. rewrite <- app_assoc in Hc.
        pose proof (chain_suffix _ _ _ _ Hc) as Hs. simpl in Hs.
        destruct Hs as (_ & Ht & Hs & _). split; [exact Ht | exact Hs]. }
      destruct l0; exact H.
Qed.

(** ** Creation of a signal *)

(** X3.  [signal_info_create] returns in every state, with [NULL] exactly
    when the lock cannot be initialised.  When it can, the result is a
    [struct signal_info] that was not allocated before and that holds the
    given name, an empty array, an initialised free lock and a [NULL]
    [next]; nothing is logged.  When it cannot, the failure is the one new
    line of the log.  Either way every structure that was allocated before
    the call is as it was, and no callback is invoked.  (The name is held
    in the structure by value: the statement is about the structures, not
    about the block of the copy of the name.) *)
Theorem signal_info_create_spec (s : state) (name : string) :
  ∃ r s',
    signal_info_create name s = Ret r s' ∧
    calls s' = calls s ∧
    mutex_init_results s' = tail (mutex_init_results s) ∧
    (∀ a o, heap s !! a = Some o -> heap s' !! a = Some o) ∧
    if next_init_result s =? 0 then
      ∃ b, r = Some b ∧ heap s !! b = None ∧
           heap s' !! b = Some (OSignal (mk_signal_info name [] MutexUnlocked NULL)) ∧
           log s' = log s
    else
      r = NULL ∧
      log s' = log s ++ [(LOG_ERROR, "Could not create signal!"%string)].
Proof.
  rewrite signal_info_create_eq.
  destruct (next_init_result s =? 0).
  - eexists _, _. split; [reflexivity|]. split; [reflexivity|]. split; [reflexivity|].
    split.
    + intros a o Ha. simpl. rewrite lookup_insert_ne; [exact Ha|].
      intros E. rewrite <- E, fresh_heap in Ha. discriminate.
    + eexists. split; [reflexivity|]. split; [apply fresh_heap|].
      split; [apply lookup_insert_eq | reflexivity].
  - eexists _, _. split; [reflexivity|]. repeat split. auto.
Qed.


(** ** The effect of a call on the arrays of all signals *)

Lemma update_callbacks_found name f l1 a i l2 :
  name ∉ names l1 -> si_name i = name ->
  update_callbacks name f (l1 ++ (a, i) :: l2) =
  l1 ++ (a, with_callbacks i (f (si_callbacks i))) :: l2.
Proof.
  induction l1 as [|[b j] l1 IH]; simpl; intros Hn Hi.
  - destruct (decide (si_name i = name)); [reflexivity | congruence].
  - apply not_elem_of_cons in Hn as [Hne Hn].
    destruct (decide (si_name j = name)); [congruence|]. now rewrite IH.
Qed.

Lemma callbacks_of_update_found n name l1 a i l2 arr :
  name ∉ names l1 -> si_name i = name ->
  callbacks_of n (l1 ++ (a, with_callbacks i arr) :: l2) =
  if decide (n = name) then arr else callbacks_of n (l1 ++ (a, i) :: l2).
Proof.
  induction l1 as [|[b j] l1 IH]; simpl; intros Hn Hi.
  - destruct (decide (si_name i = n)), (decide (n = name)); congruence.
  - apply not_elem_of_cons in Hn as [Hne Hn].
    destruct (decide (si_name j = n)) as [Hj | Hj].
    + destruct (decide (n = name)); [congruence | reflexivity].
    + now apply IH.
Qed.

Lemma callbacks_of_app_absent n l1 l2 :
  n ∉ names l1 -> callbacks_of n (l1 ++ l2) = callbacks_of n l2.
Proof.
  induction l1 as [|[b j] l1 IH]; simpl; intros Hn; [reflexivity|].
  apply not_elem_of_cons in Hn as [Hne Hn].
  destruct (decide (si_name j = n)); [congruence | auto].
Qed.

Lemma callbacks_of_app_present n l1 l2 :
  n ∈ names l1 -> callbacks_of n (l1 ++ l2) = callbacks_of n l1.
Proof.
  induction l1 as [|[b j] l1 IH]; simpl; intros Hin; [inversion Hin|].
  destruct (decide (si_name j = n)); [reflexivity|].
  apply elem_of_cons in Hin as [? | Hin]; [congruence | auto].
Qed.

Lemma callbacks_of_set_last_next n l v :
  callbacks_of n (set_last_next l v) = callbacks_of n l.
Proof.
  destruct (list_nil_or_snoc l) as [-> | (l0 & [t it] & ->)]; [reflexivity|].
  rewrite set_last_next_snoc.
  destruct (decide (n ∈ names l0)) as [Hin | Hn].
  - now rewrite !callbacks_of_app_present.
  - now rewrite !callbacks_of_app_absent.
Qed.

(** The arrays after a node for a name without a node is linked behind the
    chain. *)
Lemma callbacks_of_new_node n l v b j :
  si_name j ∉ names l ->
  callbacks_of n (set_last_next l v ++ [(b, j)]) =
  if decide (n = si_name j) then si_callbacks j else callbacks_of n l.
Proof.
  intros Hj. destruct (decide (n = si_name j)) as [-> | Hne].
  - rewrite callbacks_of_app_absent by now rewrite names_set_last_next.
    simpl. destruct (decide (si_name j = si_name j)); [reflexivity | congruence].
  - destruct (decide (n ∈ names l)) as [Hin | Hn].
    + rewrite callbacks_of_app_present by now rewrite names_set_last_next.
      apply callbacks_of_set_last_next.
    + rewrite callbacks_of_app_absent by now rewrite names_set_last_next.
      simpl. destruct (decide (si_name j = n)); [congruence|].
      now rewrite callbacks_of_absent.
Qed.

Lemma names_present name l1 a i l2 :
  si_name i = name -> name ∈ names (l1 ++ (a, i) :: l2).
Proof.
  intros Hi. rewrite names_app. apply elem_of_app. right. simpl. rewrite Hi. left.
Qed.

Lemma names_update l1 a i l2 i' :
  si_name i' = si_name i -> names (l1 ++ (a, i') :: l2) = names (l1 ++ (a, i) :: l2).
Proof. intros Hn. rewrite !names_app. simpl. now rewrite Hn. Qed.

(** [signal_handler_connect] when the signal has to be created and can be:
    the new node, and what stays as it was. *)
Lemma signal_handler_connect_absent_frame s handler l name callback data :
  registry s handler MutexUnlocked l -> name ∉ names l ->
  next_init_result s = 0 ->
  ∃ b s',
    signal_handler_connect (Some handler) name callback data s = Ret tt s' ∧
    heap s !! b = None ∧
    registry s' handler MutexUnlocked
      (set_last_next l (Some b) ++
       [(b, with_callbacks (new_signal name) [mk_signal_callback callback data])]) ∧
    (∀ c, c ≠ handler -> c ≠ b -> c ∉ locs l -> heap s' !! c = heap s !! c) ∧
    log s' = log s ∧ calls s' = calls s ∧
    mutex_init_results s' = tail (mutex_init_results s).
Proof.
  intros Hr Hn Hrc. pose proof (registry_lookup _ _ _ _ Hr) as Hh.
  pose proof (registry_set_mutex _ _ _ MutexLocked _ Hr) as Hr1.
  set (s1 := set_heap (insert handler (OHandler (mk_signal_handler (first_ptr l) MutexLocked))) s) in *.
  set (b := fresh (dom (heap s1))).
  assert (Hb1 : heap s1 !! b = None) by apply fresh_heap.
  assert (Hbh : b ≠ handler).
  { intros E. rewrite E in Hb1. rewrite (registry_lookup _ _ _ _ Hr1) in Hb1. discriminate. }
  assert (Hb : heap s !! b = None).
  { simpl in Hb1. now rewrite lookup_insert_ne in Hb1 by congruence. }
  destruct (registry_alloc (pop_result s1) handler MutexLocked l b
              (OSignal (new_signal name))) as [Hr2 Hbl];
    [eapply registry_heap; [|exact Hr1]; reflexivity | exact Hb1 |].
  destruct (link_node _ handler MutexLocked l b (new_signal name) Hr2)
    as (s3 & Hlink & Hr3 & Hframe & Hlog & Hcalls & Hrcs);
    [simpl; apply lookup_insert_eq | exact Hbl | reflexivity |].
  pose proof (registry_lookup _ _ _ _ Hr3) as Hh3.
  pose proof (registry_set_mutex _ _ _ MutexUnlocked _ Hr3) as Hr4.
  set (l3 := set_last_next l (Some b)) in *.
  set (s4 := set_heap (insert handler
              (OHandler (mk_signal_handler (first_ptr (l3 ++ [(b, new_signal name)])) MutexUnlocked))) s3) in *.
  assert (Hb4 : heap s4 !! b = Some (OSignal (new_signal name))).
  { eapply chain_lookup; [eapply registry_chain; exact Hr4|].
    apply elem_of_app. right. left. }
  exists b. eexists. split; [|split; [exact Hb|split; [|split]]].
  - unfold signal_handler_connect.
    eapply bind_Ret; [apply lock_handler_eq; exact Hh|]. fold s1.
    eapply bind_Ret; [eapply getsignal_absent; eauto|]. cbv beta iota.
    eapply bind_Ret.
    { rewrite signal_info_create_eq. change (next_init_result s1) with (next_init_result s).
      rewrite Hrc. simpl. reflexivity. }
    fold b. eapply bind_Ret; [exact Hlink|].
    eapply bind_Ret; [apply unlock_handler_eq; exact Hh3|]. fold s4.
    apply signal_handler_connect_register_eq; [exact Hb4 | reflexivity].
  - assert (Hca : connect_array (si_callbacks (new_signal name)) callback data
                  = [mk_signal_callback callback data]).
    { unfold connect_array. simpl. now rewrite Z.eqb_refl. }
    rewrite Hca.
    apply (registry_update s4 handler MutexUnlocked l3 b (new_signal name) []);
      [reflexivity | exact Hr4].
  - intros c Hch Hcb Hcl. unfold s4. cbn [heap set_heap].
    change (fresh (dom (<[handler:=_]> (heap s)))) with b.
    rewrite lookup_insert_ne by congruence. rewrite lookup_insert_ne by congruence.
    rewrite (Hframe c Hch Hcl). unfold s1. cbn [heap set_heap pop_result].
    rewrite lookup_insert_ne by congruence. now rewrite lookup_insert_ne by congruence.
  - simpl. rewrite Hlog, Hcalls, Hrcs. auto.
Qed.

(** X4.  The effect of [signal_handler_connect] on a registry with no call
    under way, when the signal exists or can be created.  The call returns
    with both locks free again.  The array of the connected name becomes
    the array it was (the empty array for a new name) with the pair
    appended if the lookup of the pair found nothing, and the array of every
    other name is what it was.  The names are those before the call, in
    their order, with the new name behind them when it was not there.  No
    callback is invoked and nothing is logged. *)
Theorem connect_effect (s : state) (handler : loc)
    (l : list (loc * signal_info)) (name : string)
    (callback : fn_ptr) (data : void_ptr) :
  registry s handler MutexUnlocked l ->
  quiescent l ->
  name ∈ names l ∨ next_init_result s = 0 ->
  ∃ s' l',
    signal_handler_connect (Some handler) name callback data s = Ret tt s' ∧
    registry s' handler MutexUnlocked l' ∧
    quiescent l' ∧
    (∀ n, callbacks_of n l' =
          if decide (n = name) then connect_array (callbacks_of name l) callback data
          else callbacks_of n l) ∧
    names l' = (if decide (name ∈ names l) then names l else names l ++ [name]) ∧
    calls s' = calls s ∧ log s' = log s.
Proof.
  intros Hr Hq Hor.
  destruct (names_split name l) as [Hn | (l1 & a & i & l2 & -> & Hn & Hi)].
  - destruct Hor as [Hin | Hrc]; [contradiction|].
    destruct (signal_handler_connect_absent_frame _ _ _ _ callback data Hr Hn Hrc)
      as (b & s' & Hc & Hb & Hr' & _ & Hlog & Hcalls & _).
    exists s'. eexists. split; [exact Hc|]. split; [exact Hr'|].
    split.
    { apply Forall_app. split; [now apply quiescent_set_last_next|].
      constructor; [reflexivity | constructor]. }
    split; [|split; [|auto]].
    + intros n. rewrite callbacks_of_new_node by exact Hn. simpl.
      rewrite (callbacks_of_absent _ _ Hn).
      destruct (decide (n = name)); [|reflexivity].
      unfold connect_array. simpl. now rewrite Z.eqb_refl.
    + rewrite names_app, names_set_last_next.
      destruct (decide (name ∈ names l)); [contradiction | reflexivity].
  - pose proof (quiescent_node _ _ _ _ Hq) as Hm.
    eexists. exists (l1 ++ (a, with_callbacks i (connect_array (si_callbacks i) callback data)) :: l2).
    split; [eapply signal_handler_connect_found; eauto|].
    split; [eapply registry_update; [|exact Hr]; reflexivity|].
    split; [eapply quiescent_update; [|exact Hq]; exact Hm|].
    split; [|split; [|auto]].
    + intros n. rewrite (callbacks_of_update_found n name) by assumption.
      now rewrite (callbacks_of_found _ _ _ _ _ Hn Hi).
    + rewrite (names_update _ _ i) by reflexivity.
      destruct (decide (name ∈ names (l1 ++ (a, i) :: l2))) as [|Hnin]; [reflexivity|].
      exfalso. apply Hnin. now apply names_present.
Qed.

(** X5.  The effect of [signal_handler_disconnect] on a registry with no
    call under way.  The call returns with both locks free again.  The
    array of the named signal becomes the array it was without the element
    at the index that the lookup of the pair gave, if it gave one, and the
    array of every other name is what it was.  The signals are the same
    signals at the same places: none is added, none is removed, even when
    the array of the named signal becomes empty.  No callback is invoked,
    nothing is logged, and [pthread_mutex_init] is not called. *)
Theorem disconnect_effect (s : state) (handler : loc)
    (l : list (loc * signal_info)) (name : string)
    (callback : fn_ptr) (data : void_ptr) :
  registry s handler MutexUnlocked l ->
  quiescent l ->
  ∃ s' l',
    signal_handler_disconnect (Some handler) name callback data s = Ret tt s' ∧
    registry s' handler MutexUnlocked l' ∧
    quiescent l' ∧
    (∀ n, callbacks_of n l' =
          if decide (n = name) then disconnect_array (callbacks_of name l) callback data
          else callbacks_of n l) ∧
    entries l' = entries l ∧
    calls s' = calls s ∧ log s' = log s ∧
    mutex_init_results s' = mutex_init_results s.
Proof.
  intros Hr Hq.
  destruct (names_split name l) as [Hn | (l1 & a & i & l2 & -> & Hn & Hi)].
  - exists s, l. split; [eapply signal_handler_disconnect_absent; eauto|].
    split; [exact Hr|]. split; [exact Hq|]. split; [|auto].
    intros n. destruct (decide (n = name)) as [-> |]; [|reflexivity].
    rewrite (callbacks_of_absent _ _ Hn). unfold disconnect_array. simpl.
    now rewrite Z.eqb_refl.
  - pose proof (quiescent_node _ _ _ _ Hq) as Hm.
    exists (set_heap (insert a (OSignal (with_callbacks i
              (disconnect_array (si_callbacks i) callback data)))) s).
    exists (l1 ++ (a, with_callbacks i (disconnect_array (si_callbacks i) callback data)) :: l2).
    split.
    { rewrite (signal_handler_disconnect_found _ _ _ _ _ _ _ callback data Hr Hn Hi Hm).
      unfold with_callbacks. rewrite Hm. reflexivity. }
    split; [eapply registry_update; [|exact Hr]; reflexivity|].
    split; [eapply quiescent_update; [|exact Hq]; exact Hm|].
    split; [|split; [now apply entries_update | auto]].
    intros n. rewrite (callbacks_of_update_found n name) by assumption.
    now rewrite (callbacks_of_found _ _ _ _ _ Hn Hi).
Qed.


(** ** Calls in a row *)

Lemma add_calls_nil s : add_calls [] s = s.
Proof. destruct s. unfold add_calls. simpl. now rewrite app_nil_r. Qed.

(** [signal_handler_signal] for any name, with or without a signal. *)
Lemma signal_handler_signal_eq s handler l name params :
  registry s handler MutexUnlocked l -> quiescent l ->
  signal_handler_signal (Some handler) name params s =
  Ret tt (add_calls (map (call_of params) (callbacks_of name l)) s).
Proof.
  intros Hr Hq.
  destruct (names_split name l) as [Hn | (l1 & a & i & l2 & -> & Hn & Hi)].
  - rewrite (callbacks_of_absent _ _ Hn). simpl. rewrite add_calls_nil.
    eapply signal_handler_signal_absent; eauto.
  - rewrite (callbacks_of_found _ _ _ _ _ Hn Hi).
    eapply signal_handler_signal_found; eauto. eapply quiescent_node; eauto.
Qed.

(** The pair is on the array after a connect, whatever the array was. *)
Lemma connected_connect_array array callback data :
  connected callback data (connect_array array callback data).
Proof.
  unfold connect_array, connected.
  destruct (signal_get_callback_idx_from array 0 callback data =? DARRAY_INVALID) eqn:E.
  - apply elem_of_app. right. left.
  - destruct (decide (mk_signal_callback callback data ∈ array)) as [Hin | Hn]; [exact Hin|].
    rewrite (signal_get_callback_idx_from_absent _ _ _ _ Hn), Z.eqb_refl in E. discriminate.
Qed.

(** The state and the nodes after [signal_handler_connect], when the signal
    exists or can be created. *)
Lemma signal_handler_connect_ok s handler l name callback data :
  registry s handler MutexUnlocked l -> quiescent l ->
  name ∈ names l ∨ next_init_result s = 0 ->
  ∃ s' l',
    signal_handler_connect (Some handler) name callback data s = Ret tt s' ∧
    registry s' handler MutexUnlocked l' ∧ quiescent l' ∧
    callbacks_of name l' = connect_array (callbacks_of name l) callback data ∧
    calls s' = calls s.
Proof.
  intros Hr Hq Hor.
  destruct (names_split name l) as [Hn | (l1 & a & i & l2 & -> & Hn & Hi)].
  - destruct Hor as [Hin | Hrc]; [contradiction|].
    destruct (signal_handler_connect_absent_ok _ _ _ _ callback data Hr Hn Hrc)
      as (b & s' & Hc & Hb & Hr' & _ & Hcalls & _).
    exists s'. eexists. split; [exact Hc|]. split; [exact Hr'|].
    split.
    { apply Forall_app. split; [now apply quiescent_set_last_next|].
      constructor; [reflexivity | constructor]. }
    split; [|exact Hcalls].
    rewrite callbacks_of_new_node by exact Hn. simpl.
    destruct (decide (name = name)); [|congruence].
    rewrite (callbacks_of_absent _ _ Hn). unfold connect_array. simpl.
    now rewrite Z.eqb_refl.
  - pose proof (quiescent_node _ _ _ _ Hq) as Hm.
    eexists. exists (l1 ++ (a, with_callbacks i (connect_array (si_callbacks i) callback data)) :: l2).
    split; [eapply signal_handler_connect_found; eauto|].
    split; [eapply registry_update; [|exact Hr]; reflexivity|].
    split; [eapply quiescent_update; [|exact Hq]; exact Hm|].
    split; [|reflexivity].
    rewrite (callbacks_of_update_found name name) by assumption.
    destruct (decide (name = name)); [|congruence].
    now rewrite (callbacks_of_found _ _ _ _ _ Hn Hi).
Qed.

(** The state and the nodes after [signal_handler_disconnect]. *)
Lemma signal_handler_disconnect_ok s handler l name callback data :
  registry s handler MutexUnlocked l -> quiescent l ->
  ∃ s' l',
    signal_handler_disconnect (Some handler) name callback data s = Ret tt s' ∧
    registry s' handler MutexUnlocked l' ∧ quiescent l' ∧
    callbacks_of name l' = disconnect_array (callbacks_of name l) callback data ∧
    calls s' = calls s ∧ mutex_init_results s' = mutex_init_results s.
Proof.
  intros Hr Hq.
  destruct (names_split name l) as [Hn | (l1 & a & i & l2 & -> & Hn & Hi)].
  - exists s, l. split; [eapply signal_handler_disconnect_absent; eauto|].
    split; [exact Hr|]. split; [exact Hq|]. split; [|auto].
    rewrite (callbacks_of_absent _ _ Hn). unfold disconnect_array. simpl.
    now rewrite Z.eqb_refl.
  - pose proof (quiescent_node _ _ _ _ Hq) as Hm.
    exists (set_heap (insert a (OSignal (with_callbacks i
              (disconnect_array (si_callbacks i) callback data)))) s).
    exists (l1 ++ (a, with_callbacks i (disconnect_array (si_callbacks i) callback data)) :: l2).
    split.
    { rewrite (signal_handler_disconnect_found _ _ _ _ _ _ _ callback data Hr Hn Hi Hm).
      unfold with_callbacks. rewrite Hm. reflexivity. }
    split; [eapply registry_update; [|exact Hr]; reflexivity|].
    split; [eapply quiescent_update; [|exact Hq]; exact Hm|].
    split; [|auto].
    rewrite (callbacks_of_update_found name name) by assumption.
    destruct (decide (name = name)); [|congruence].
    now rewrite (callbacks_of_found _ _ _ _ _ Hn Hi).
Qed.

(** X6.  A connected callback is invoked: on a registry with no call under
    way, when the signal exists or can be created, [signal_handler_connect]
    followed by [signal_handler_signal] on the same name returns, and among
    the invocations that the emission adds there is the invocation of the
    connected function with the emitted [params] and the connected
    [data]. *)
Theorem connected_callback_is_invoked (s : state) (handler : loc)
    (l : list (loc * signal_info)) (name : string)
    (callback : fn_ptr) (data : void_ptr) (params : calldata_t) :
  registry s handler MutexUnlocked l ->
  quiescent l ->
  name ∈ names l ∨ next_init_result s = 0 ->
  ∃ s' new,
    (signal_handler_connect (Some handler) name callback data ;;
     signal_handler_signal (Some handler) name params) s = Ret tt s' ∧
    calls s' = calls s ++ new ∧
    mk_call callback params data ∈ new.
Proof.
  intros Hr Hq Hor.
  destruct (signal_handler_connect_ok _ _ _ _ callback data Hr Hq Hor)
    as (s1 & l1 & Hc & Hr1 & Hq1 & Harr & Hcalls).
  eexists. exists (map (call_of params) (callbacks_of name l1)). split.
  - eapply bind_Ret; [exact Hc|]. eapply signal_handler_signal_eq; eauto.
  - split; [simpl; now rewrite Hcalls|].
    rewrite Harr. apply (list_elem_of_fmap_2 (call_of params) _ (mk_signal_callback callback data)).
    apply connected_connect_array.
Qed.

Lemma call_of_inj params sc callback data :
  call_of params sc = mk_call callback params data -> sc = mk_signal_callback callback data.
Proof. destruct sc. unfold call_of. simpl. intros H. now inversion H. Qed.

(** The array after a disconnect, on an array without duplicates: the pair
    is gone, everything else is there. *)
Lemma disconnect_array_nodup array callback data :
  darray_ok array -> NoDup array ->
  (mk_signal_callback callback data ∉ disconnect_array array callback data) ∧
  ∀ sc, sc ∈ array -> sc ≠ mk_signal_callback callback data ->
        sc ∈ disconnect_array array callback data.
Proof.
  intros Hok Hnd.
  destruct (decide (mk_signal_callback callback data ∈ array)) as [Hin | Hn].
  - destruct (first_occurrence _ _ Hin) as (c1 & c2 & -> & Hn1).
    rewrite (disconnect_array_connected _ _ _ _ Hok Hn1).
    apply NoDup_app in Hnd as (_ & Hdisj & Hnd2). inversion Hnd2 as [|? ? Hn2 _]; subst.
    split.
    + intros H. apply elem_of_app in H as [H | H]; contradiction.
    + intros sc Hsc Hne. apply elem_of_app in Hsc as [Hsc | Hsc].
      * apply elem_of_app. now left.
      * apply elem_of_cons in Hsc as [-> | Hsc]; [congruence|].
        apply elem_of_app. now right.
  - rewrite (disconnect_array_absent _ _ _ Hn). auto.
Qed.

(** X7.  A disconnected callback is no longer invoked: on a registry with
    no call under way, when the array of the signal is a valid array on
    which no pair is twice, [signal_handler_disconnect] followed by
    [signal_handler_signal] on the same name returns, the invocations that
    the emission adds do not have the invocation of the disconnected pair
    among them, and every other pair of the array is still invoked. *)
Theorem disconnected_callback_is_not_invoked (s : state) (handler : loc)
    (l : list (loc * signal_info)) (name : string)
    (callback : fn_ptr) (data : void_ptr) (params : calldata_t) :
  registry s handler MutexUnlocked l ->
  quiescent l ->
  darray_ok (callbacks_of name l) ->
  NoDup (callbacks_of name l) ->
  ∃ s' new,
    (signal_handler_disconnect (Some handler) name callback data ;;
     signal_handler_signal (Some handler) name params) s = Ret tt s' ∧
    calls s' = calls s ++ new ∧
    (mk_call callback params data ∉ new) ∧
    ∀ sc, sc ∈ callbacks_of name l -> sc ≠ mk_signal_callback callback data ->
          call_of params sc ∈ new.
Proof.
  intros Hr Hq Hok Hnd.
  destruct (signal_handler_disconnect_ok _ _ _ name callback data Hr Hq)
    as (s1 & l1 & Hd & Hr1 & Hq1 & Harr & Hcalls & _).
  destruct (disconnect_array_nodup _ callback data Hok Hnd) as [Hgone Hkept].
  eexists. exists (map (call_of params) (callbacks_of name l1)). split.
  - eapply bind_Ret; [exact Hd|]. eapply signal_handler_signal_eq; eauto.
  - split; [simpl; now rewrite Hcalls|]. rewrite Harr. split.
    + intros H. apply list_elem_of_fmap in H as (sc & Hsc & Hin).
      symmetry in Hsc. apply call_of_inj in Hsc. subst sc. contradiction.
    + intros sc Hsc Hne. apply list_elem_of_fmap_2. auto.
Qed.

(** X8.  Connect, then disconnect: on a registry with no call under way
    that has the signal, when the pair is not on the array of the signal
    and the array has room for it, [signal_handler_connect] followed by
    [signal_handler_disconnect] of the same pair returns and the whole state
    is what it was before the two calls. *)
Theorem connect_disconnect_restores (s : state) (handler : loc)
    (l1 l2 : list (loc * signal_info)) (a : loc) (i : signal_info)
    (name : string) (callback : fn_ptr) (data : void_ptr) :
  registry s handler MutexUnlocked (l1 ++ (a, i) :: l2) ->
  name ∉ names l1 -> si_name i = name -> si_mutex i = MutexUnlocked ->
  ¬ connected callback data (si_callbacks i) ->
  darray_ok (si_callbacks i ++ [mk_signal_callback callback data]) ->
  (signal_handler_connect (Some handler) name callback data ;;
   signal_handler_disconnect (Some handler) name callback data) s = Ret tt s.
Proof.
  intros Hr Hn Hi Hm Hnc Hok.
  eapply bind_Ret; [eapply signal_handler_connect_found; eauto|].
  rewrite (connect_array_new _ _ _ Hnc).
  set (i1 := with_callbacks i (si_callbacks i ++ [mk_signal_callback callback data])).
  rewrite (signal_handler_disconnect_found _ handler l1 a i1 l2 name callback data);
    [| eapply registry_update; [|exact Hr]; reflexivity | exact Hn | exact Hi | exact Hm].
  fold (disconnect_array (si_callbacks i1) callback data). simpl si_callbacks.
  rewrite (disconnect_array_connected _ [] _ _ Hok Hnc), app_nil_r.
  rewrite set_heap_insert_insert. f_equal. apply set_heap_insert_id.
  rewrite (registry_node _ _ _ _ _ _ _ Hr). destruct i; simpl in *. now subst.
Qed.

(** X9.  Disconnect, then connect again: on a registry with no call under
    way, when the pair is on the array of the signal exactly once, at the
    end of [c1], the two calls return and the array is [c1 ++ c2] with the
    pair behind it: the callback has moved to the end of the order of
    invocation. *)
Theorem reconnect_moves_to_end (s : state) (handler : loc)
    (l1 l2 : list (loc * signal_info)) (a : loc) (i : signal_info)
    (name : string) (callback : fn_ptr) (data : void_ptr)
    (c1 c2 : list signal_callback) :
  registry s handler MutexUnlocked (l1 ++ (a, i) :: l2) ->
  name ∉ names l1 -> si_name i = name -> si_mutex i = MutexUnlocked ->
  si_callbacks i = c1 ++ mk_signal_callback callback data :: c2 ->
  ¬ connected callback data (c1 ++ c2) ->
  darray_ok (si_callbacks i) ->
  (signal_handler_disconnect (Some handler) name callback data ;;
   signal_handler_connect (Some handler) name callback data) s =
  Ret tt (set_heap (insert a (OSignal (with_callbacks i
            (c1 ++ c2 ++ [mk_signal_callback callback data])))) s).
Proof.
  intros Hr Hn Hi Hm Harr Hnc Hok.
  assert (Hn1 : mk_signal_callback callback data ∉ c1).
  { intros H. apply Hnc. apply elem_of_app. now left. }
  eapply bind_Ret.
  { rewrite (signal_handler_disconnect_found _ _ _ _ _ _ _ callback data Hr Hn Hi Hm).
    fold (disconnect_array (si_callbacks i) callback data). reflexivity. }
  rewrite Harr in Hok |- *. rewrite (disconnect_array_connected _ _ _ _ Hok Hn1).
  set (i1 := mk_signal_info (si_name i) (c1 ++ c2) MutexUnlocked (si_next i)).
  rewrite (signal_handler_connect_found _ handler l1 a i1 l2 name callback data);
    [| eapply registry_update; [|exact Hr]; reflexivity | exact Hn | exact Hi | reflexivity].
  simpl si_callbacks. rewrite (connect_array_new _ _ _ Hnc).
  rewrite set_heap_insert_insert. unfold with_callbacks, i1. simpl.
  now rewrite Hm, <- app_assoc.
Qed.


(** ** A held signal lock *)

(** X10.  A call that finds the lock of its signal held waits for that lock
    with the registry lock released: on a registry whose lock is free, when
    the lock of the named signal is held, [signal_handler_connect],
    [signal_handler_disconnect] and [signal_handler_signal] do not return,
    and the state in which they wait is the state they started in, the
    registry lock free and no callback invoked. *)
Theorem held_signal_lock_blocks (s : state) (handler : loc)
    (l1 l2 : list (loc * signal_info)) (a : loc) (i : signal_info)
    (name : string) (callback : fn_ptr) (data : void_ptr) (params : calldata_t) :
  registry s handler MutexUnlocked (l1 ++ (a, i) :: l2) ->
  name ∉ names l1 -> si_name i = name -> si_mutex i = MutexLocked ->
  signal_handler_connect (Some handler) name callback data s = Blocks s ∧
  signal_handler_disconnect (Some handler) name callback data s = Blocks s ∧
  signal_handler_signal (Some handler) name params s = Blocks s ∧
  handler_lock s handler = Some MutexUnlocked.
Proof.
  intros Hr Hn Hi Hm. pose proof (registry_lookup _ _ _ _ Hr) as Hh.
  pose proof (registry_node _ _ _ _ _ _ _ Hr) as Ha.
  assert (Hlock : pthread_mutex_lock (signal_mutex (Some a)) s = Blocks s).
  { rewrite (lock_signal_cases _ _ _ Ha), Hm. reflexivity. }
  split; [|split; [|split]].
  - unfold signal_handler_connect.
    eapply bind_Ret; [apply lock_handler_eq; exact Hh|].
    pose proof (registry_set_mutex _ _ _ MutexLocked _ Hr) as Hr'.
    eapply bind_Ret; [eapply getsignal_found; eauto|]. cbv beta iota.
    eapply bind_Ret; [apply unlock_handler_eq; apply (registry_lookup _ _ _ _ Hr')|].
    rewrite set_heap_insert_cancel by exact Hh.
    eapply signal_handler_connect_register_held; eauto.
  - unfold signal_handler_disconnect.
    eapply bind_Ret; [eapply getsignal_locked_eq; exact Hr|].
    rewrite (find_signal_found _ _ _ _ _ Hn Hi). now apply bind_Blocks.
  - unfold signal_handler_signal.
    eapply bind_Ret; [eapply getsignal_locked_eq; exact Hr|].
    rewrite (find_signal_found _ _ _ _ _ Hn Hi). now apply bind_Blocks.
  - eapply registry_handler_lock; eauto.
Qed.

(** ** Destruction *)

Lemma signal_handler_destroy_eq s handler l :
  registry s handler MutexUnlocked l -> quiescent l ->
  signal_handler_destroy (Some handler) s =
  Ret tt (set_heap (fun hp => delete handler
                      (foldl (fun hp b => delete b hp) hp (locs l))) s).
Proof.
  intros Hr Hq. pose proof (registry_lookup _ _ _ _ Hr) as Hh.
  pose proof (registry_chain _ _ _ _ Hr) as Hc.
  pose proof (registry_handler_fresh _ _ _ _ Hr) as Hf.
  set (s1 := set_heap (fun hp => foldl (fun hp b => delete b hp) hp (locs l)) s).
  assert (Hh1 : heap s1 !! handler =
                Some (OHandler (mk_signal_handler (first_ptr l) MutexUnlocked))).
  { simpl. rewrite lookup_free_all. destruct (decide (handler ∈ locs l)); [contradiction | exact Hh]. }
  unfold signal_handler_destroy.
  eapply bind_Ret; [apply load_handler_eq; exact Hh|].
  eapply bind_Ret.
  { cbv beta. change (sh_first (mk_signal_handler (first_ptr l) MutexUnlocked)) with (first_ptr l).
    apply signal_handler_destroy_loop_eq; [exact Hc | exact Hq|].
    pose proof (chain_length _ _ _ Hc). lia. }
  fold s1. eapply bind_Ret.
  { unfold pthread_mutex_destroy. eapply bind_Ret.
    { unfold load_mutex. eapply bind_Ret; [apply load_handler_eq; exact Hh1 | reflexivity]. }
    simpl sh_mutex. cbv iota. unfold store_mutex.
    eapply bind_Ret; [apply load_handler_eq; exact Hh1|].
    eapply store_handler_eq; exact Hh1. }
  unfold bfree. simpl. rewrite lookup_insert_eq. f_equal.
  destruct s as [hp lg rs cs]. unfold set_heap. simpl. f_equal.
  apply delete_insert_eq.
Qed.

Lemma lookup_destroyed (hp : gmap loc object) handler ls a :
  delete handler (foldl (fun hp b => delete b hp) hp ls) !! a =
  if decide (a ∈ handler :: ls) then None else hp !! a.
Proof.
  destruct (decide (a = handler)) as [-> | Hne].
  - rewrite lookup_delete_eq. destruct (decide (handler ∈ handler :: ls)) as [|Hn]; [reflexivity|].
    exfalso. apply Hn. left.
  - rewrite lookup_delete_ne by congruence. rewrite lookup_free_all.
    destruct (decide (a ∈ ls)) as [Hin | Hn].
    + destruct (decide (a ∈ handler :: ls)) as [|Hn']; [reflexivity|].
      exfalso. apply Hn'. now right.
    + destruct (decide (a ∈ handler :: ls)) as [Hin|]; [|reflexivity].
      apply elem_of_cons in Hin as [? | ?]; contradiction.
Qed.

(** X11.  [signal_handler_destroy] on a registry with no call under way
    returns.  The [struct signal_handler] and every [struct signal_info] of
    the chain are freed by it, and every structure that is not one of
    these is as it was.  Nothing is logged and no callback is invoked.
    (The names and the arrays are held in the structures by value: the
    statement is about the structures, not about the blocks of the names
    and of the arrays, which the function releases with them.) *)
Theorem destroy_frees_registry (s : state) (handler : loc)
    (l : list (loc * signal_info)) :
  registry s handler MutexUnlocked l ->
  quiescent l ->
  ∃ s',
    signal_handler_destroy (Some handler) s = Ret tt s' ∧
    (∀ a, a ∈ handler :: locs l -> heap s' !! a = None) ∧
    (∀ a o, a ∉ handler :: locs l -> heap s !! a = Some o -> heap s' !! a = Some o) ∧
    log s' = log s ∧ calls s' = calls s.
Proof.
  intros Hr Hq. eexists. split; [eapply signal_handler_destroy_eq; eauto|].
  simpl. split; [|split; [|auto]].
  - intros a Hin. rewrite lookup_destroyed.
    destruct (decide (a ∈ handler :: locs l)); [reflexivity | contradiction].
  - intros a o Hn Ha. rewrite lookup_destroyed.
    destruct (decide (a ∈ handler :: locs l)); [contradiction | exact Ha].
Qed.

(** X12.  After [signal_handler_destroy] the handle is dangling: every
    function of the file called with it afterwards, the destruction itself
    included, reads or frees a block that is no longer allocated, which is
    undefined behaviour. *)
Theorem use_after_destroy (s : state) (handler : loc)
    (l : list (loc * signal_info)) (name : string)
    (callback : fn_ptr) (data : void_ptr) (params : calldata_t) :
  registry s handler MutexUnlocked l ->
  quiescent l ->
  ∃ s',
    signal_handler_destroy (Some handler) s = Ret tt s' ∧
    signal_handler_connect (Some handler) name callback data s' = Fault ∧
    signal_handler_disconnect (Some handler) name callback data s' = Fault ∧
    signal_handler_signal (Some handler) name params s' = Fault ∧
    signal_handler_destroy (Some handler) s' = Fault.
Proof.
  intros Hr Hq. eexists. split; [eapply signal_handler_destroy_eq; eauto|].
  set (s' := set_heap _ s).
  assert (Hh : heap s' !! handler = None).
  { unfold s'. simpl. apply lookup_delete_eq. }
  assert (Hlock : pthread_mutex_lock (handler_mutex (Some handler)) s' = Fault).
  { unfold pthread_mutex_lock, load_mutex, bind, load_handler. now rewrite Hh. }
  split; [|split; [|split]].
  - unfold signal_handler_connect. now apply bind_Fault.
  - unfold signal_handler_disconnect, getsignal_locked. apply bind_Fault. now apply bind_Fault.
  - unfold signal_handler_signal, getsignal_locked. apply bind_Fault. now apply bind_Fault.
  - unfold signal_handler_destroy. apply bind_Fault. unfold load_handler. now rewrite Hh.
Qed.


(** ** What every sequence of calls keeps *)

Lemma room_darray_ok n l1 a i l2 :
  room (S n) (l1 ++ (a, i) :: l2) -> darray_ok (si_callbacks i).
Proof.
  intros [_ Hall]. apply Forall_app in Hall as [_ Hall]. inversion Hall as [|? ? Hi _]; subst.
  simpl in Hi. unfold darray_ok. lia.
Qed.

Lemma connect_array_NoDup array callback data :
  darray_ok array -> NoDup array -> NoDup (connect_array array callback data).
Proof.
  intros Hok Hnd. destruct (decide (mk_signal_callback callback data ∈ array)) as [Hin | Hn].
  - now rewrite connect_array_connected.
  - rewrite (connect_array_new _ _ _ Hn). apply NoDup_app. split; [exact Hnd|].
    split; [|apply NoDup_singleton].
    intros x Hx Hx'. apply list_elem_of_singleton in Hx'. now subst.
Qed.

Lemma connect_array_length array callback data :
  (length (connect_array array callback data) <= S (length array))%nat.
Proof.
  unfold connect_array. destruct (_ =? _); [rewrite length_app; simpl|]; lia.
Qed.

Lemma disconnect_array_sublist array callback data :
  disconnect_array array callback data `sublist_of` array.
Proof.
  unfold disconnect_array. destruct (negb _); [apply sublist_delete | reflexivity].
Qed.

Lemma room_weaken n l : room (S n) l -> room n l.
Proof.
  intros [H0 Hall]. split; [lia|]. eapply Forall_impl; [exact Hall|].
  intros e He. simpl in He. lia.
Qed.

Lemma arrays_nodup_set_last_next l v : arrays_nodup l -> arrays_nodup (set_last_next l v).
Proof.
  destruct (list_nil_or_snoc l) as [-> | (l0 & [t it] & ->)]; [auto|].
  rewrite set_last_next_snoc. unfold arrays_nodup. rewrite !Forall_app.
  intros [H0 Ht]. split; [exact H0|]. inversion Ht; subst. constructor; auto.
Qed.

Lemma room_set_last_next n l v : room n l -> room n (set_last_next l v).
Proof.
  intros [H0 Hall]. split; [exact H0|]. revert Hall.
  destruct (list_nil_or_snoc l) as [-> | (l0 & [t it] & ->)]; [auto|].
  rewrite set_last_next_snoc. rewrite !Forall_app.
  intros [Hl Ht]. split; [exact Hl|]. inversion Ht; subst. constructor; auto.
Qed.

(** A node gets another array, without duplicates and at most one element
    longer. *)
Lemma node_update_wf n l1 a i l2 arr :
  NoDup (names (l1 ++ (a, i) :: l2)) -> arrays_nodup (l1 ++ (a, i) :: l2) ->
  room (S n) (l1 ++ (a, i) :: l2) ->
  NoDup arr -> (length arr <= S (length (si_callbacks i)))%nat ->
  NoDup (names (l1 ++ (a, with_callbacks i arr) :: l2)) ∧
  arrays_nodup (l1 ++ (a, with_callbacks i arr) :: l2) ∧
  room n (l1 ++ (a, with_callbacks i arr) :: l2).
Proof.
  intros Hnd Harr [H0 Hroom] Ha Hlen.
  split; [now rewrite (names_update _ _ i)|]. split.
  - unfold arrays_nodup in *. rewrite Forall_app in *. destruct Harr as [H1 H2].
    split; [exact H1|]. inversion H2; subst. constructor; auto.
  - split; [lia|]. rewrite Forall_app in *. destruct Hroom as [H1 H2]. split.
    + eapply Forall_impl; [exact H1|]. intros e He. simpl in He. lia.
    + inversion H2 as [|? ? Hi Hrest]; subst. constructor.
      * simpl in *. lia.
      * eapply Forall_impl; [exact Hrest|]. intros e He. simpl in He. lia.
Qed.

(** One call keeps the registry well formed. *)
Lemma run_operation_wf s handler m l op n :
  registry s handler m l -> m ≠ MutexUninit -> quiescent l ->
  NoDup (names l) -> arrays_nodup l -> room (S n) l ->
  ∃ s' m' l',
    (run_operation (Some handler) op s = Ret tt s' ∨
     run_operation (Some handler) op s = Blocks s') ∧
    registry s' handler m' l' ∧ m' ≠ MutexUninit ∧ quiescent l' ∧
    NoDup (names l') ∧ arrays_nodup l' ∧ room n l'.
Proof.
  intros Hr Hm Hq Hnd Harr Hroom. destruct m; [congruence | |].
  2:{ exists s, MutexLocked, l. split; [right|].
      - destruct op; simpl.
        + eapply signal_handler_connect_held; eauto.
        + unfold signal_handler_disconnect. apply bind_Blocks.
          eapply getsignal_locked_held; eauto.
        + unfold signal_handler_signal. apply bind_Blocks.
          eapply getsignal_locked_held; eauto.
      - split; [exact Hr|]. split; [exact Hm|]. split; [exact Hq|].
        split; [exact Hnd|]. split; [exact Harr | now apply room_weaken]. }
  destruct op as [name callback data | name callback data | name params]; simpl.
  - destruct (names_split name l) as [Hn | (l1 & a & i & l2 & -> & Hn & Hi)].
    + destruct (decide (next_init_result s = 0)) as [Hrc | Hrc].
      * destruct (signal_handler_connect_absent_ok _ _ _ _ callback data Hr Hn Hrc)
          as (b & s' & Hc & Hb & Hr' & _).
        eexists s', MutexUnlocked, _. split; [left; exact Hc|].
        split; [exact Hr'|]. split; [congruence|]. split.
        { apply Forall_app. split; [now apply quiescent_set_last_next|].
          constructor; [reflexivity | constructor]. }
        split.
        { rewrite names_app, names_set_last_next. apply NoDup_app. split; [exact Hnd|].
          split; [|apply NoDup_singleton].
          intros x Hx Hx'. apply list_elem_of_singleton in Hx'. simpl in Hx'. congruence. }
        split.
        { apply Forall_app. split; [now apply arrays_nodup_set_last_next|].
          constructor; [apply NoDup_singleton | constructor]. }
        destruct (room_set_last_next _ _ (Some b) (room_weaken _ _ Hroom)) as [H0 Hall].
        split; [exact H0|]. apply Forall_app. split; [exact Hall|].
        constructor; [|constructor]. simpl. destruct Hroom as [HS _]. lia.
      * eexists _, MutexLocked, l.
        split; [left; eapply signal_handler_connect_absent_fail; eauto|].
        split; [eapply registry_heap; [|eapply registry_set_mutex; exact Hr]; reflexivity|].
        split; [congruence|]. split; [exact Hq|]. split; [exact Hnd|].
        split; [exact Harr | now apply room_weaken].
    + pose proof (quiescent_node _ _ _ _ Hq) as Hmi.
      assert (Hai : NoDup (si_callbacks i)).
      { apply Forall_app in Harr as [_ H2]. now inversion H2. }
      destruct (node_update_wf n l1 a i l2 (connect_array (si_callbacks i) callback data)
                  Hnd Harr Hroom) as (Hnd' & Harr' & Hroom');
        [apply connect_array_NoDup; [eapply room_darray_ok; eauto | exact Hai]
        | apply connect_array_length |].
      eexists _, MutexUnlocked, _.
      split; [left; eapply signal_handler_connect_found; eauto|].
      split; [eapply registry_update; [|exact Hr]; reflexivity|].
      split; [congruence|].
      split; [eapply quiescent_update; [|exact Hq]; exact Hmi|].
      auto.
  - destruct (names_split name l) as [Hn | (l1 & a & i & l2 & -> & Hn & Hi)].
    + exists s, MutexUnlocked, l.
      split; [left; eapply signal_handler_disconnect_absent; eauto|].
      split; [exact Hr|]. split; [exact Hm|]. split; [exact Hq|].
      split; [exact Hnd|]. split; [exact Harr | now apply room_weaken].
    + pose proof (quiescent_node _ _ _ _ Hq) as Hmi.
      assert (Hai : NoDup (si_callbacks i)).
      { apply Forall_app in Harr as [_ H2]. now inversion H2. }
      pose proof (disconnect_array_sublist (si_callbacks i) callback data) as Hsub.
      destruct (node_update_wf n l1 a i l2 (disconnect_array (si_callbacks i) callback data)
                  Hnd Harr Hroom) as (Hnd' & Harr' & Hroom');
        [eapply sublist_NoDup; eauto
        | apply sublist_length in Hsub; lia |].
      exists (set_heap (insert a (OSignal (with_callbacks i
                (disconnect_array (si_callbacks i) callback data)))) s).
      eexists MutexUnlocked, _.
      split.
      { left. rewrite (signal_handler_disconnect_found _ _ _ _ _ _ _ callback data Hr Hn Hi Hmi).
        unfold with_callbacks. rewrite Hmi. reflexivity. }
      split; [eapply registry_update; [|exact Hr]; reflexivity|].
      split; [congruence|].
      split; [eapply quiescent_update; [|exact Hq]; exact Hmi|].
      auto.
  - exists (add_calls (map (call_of params) (callbacks_of name l)) s), MutexUnlocked, l.
    split; [left; eapply signal_handler_signal_eq; eauto|].
    split; [eapply registry_heap; [|exact Hr]; reflexivity|].
    split; [exact Hm|]. split; [exact Hq|].
    split; [exact Hnd|]. split; [exact Harr | now apply room_weaken].
Qed.

(** X13.  The registry stays well formed.  From a registry with no call
    under way that has one signal per name and no pair twice on an array,
    and whose arrays have room for as many more elements as there are
    calls, any sequence of calls of [signal_handler_connect],
    [signal_handler_disconnect] and [signal_handler_signal] returns, or
    stops in a call that waits for ever, in a state where the registry
    still has one signal per name and no pair twice on an array. *)
Theorem registry_stays_well_formed (s : state) (handler : loc)
    (m : pthread_mutex_t) (l : list (loc * signal_info)) (ops : list operation) :
  registry s handler m l ->
  m ≠ MutexUninit ->
  quiescent l ->
  NoDup (names l) ->
  arrays_nodup l ->
  room (length ops) l ->
  ∃ s' m' l',
    (run_operations (Some handler) ops s = Ret tt s' ∨
     run_operations (Some handler) ops s = Blocks s') ∧
    registry s' handler m' l' ∧
    NoDup (names l') ∧
    arrays_nodup l'.
Proof.
  revert s m l. induction ops as [|op ops IH]; intros s m l Hr Hm Hq Hnd Harr Hroom.
  - exists s, m, l. split; [left; reflexivity|]. auto.
  - simpl in Hroom.
    destruct (run_operation_wf _ _ _ _ op _ Hr Hm Hq Hnd Harr Hroom)
      as (s1 & m1 & l1 & Hop & Hr1 & Hm1 & Hq1 & Hnd1 & Harr1 & Hroom1).
    destruct Hop as [Hop | Hop].
    + destruct (IH _ _ _ Hr1 Hm1 Hq1 Hnd1 Harr1 Hroom1)
        as (s' & m' & l' & Hops & Hr' & Hnd' & Harr').
      exists s', m', l'. split; [|auto].
      simpl. unfold bind. rewrite Hop. exact Hops.
    + exists s1, m1, l1. split; [right; simpl; apply bind_Blocks; exact Hop | auto].
Qed.


(** ** The whole life of a registry *)

Lemma inits_succeed_next s : inits_succeed s -> next_init_result s = 0.
Proof.
  unfold inits_succeed, next_init_result. destruct (mutex_init_results s); [reflexivity|].
  intros H. now inversion H.
Qed.

Lemma inits_succeed_tail s s' :
  mutex_init_results s' = tail (mutex_init_results s) -> inits_succeed s -> inits_succeed s'.
Proof.
  unfold inits_succeed. intros ->. destruct (mutex_init_results s); [auto|].
  intros H. now inversion H.
Qed.

Lemma locs_update l1 a i l2 i' : locs (l1 ++ (a, i') :: l2) = locs (l1 ++ (a, i) :: l2).
Proof. now rewrite !locs_app. Qed.

(** A store into a node of the registry leaves the heap outside the
    registry alone. *)
Lemma owned_store s0 s handler l1 a i l2 o i' :
  owned s0 s handler (l1 ++ (a, i) :: l2) ->
  owned s0 (set_heap (insert a o) s) handler (l1 ++ (a, i') :: l2).
Proof.
  intros [Hfree Hsame]. split.
  - intros c Hc. rewrite (locs_update _ _ i) in Hc. auto.
  - intros c Hc. rewrite (locs_update _ _ i) in Hc. simpl.
    rewrite lookup_insert_ne; [auto|].
    intros ->. apply Hc. right. apply locs_middle.
Qed.

(** One call, when no initialisation fails: it returns with the lock free
    and the heap changed in the registry only. *)
Lemma run_operation_owned s0 s handler l op :
  registry s handler MutexUnlocked l -> quiescent l -> inits_succeed s ->
  owned s0 s handler l ->
  ∃ s' l',
    run_operation (Some handler) op s = Ret tt s' ∧
    registry s' handler MutexUnlocked l' ∧ quiescent l' ∧ inits_succeed s' ∧
    owned s0 s' handler l' ∧ log s' = log s.
Proof.
  intros Hr Hq Hrcs Hown.
  destruct op as [name callback data | name callback data | name params]; simpl.
  - destruct (names_split name l) as [Hn | (l1 & a & i & l2 & -> & Hn & Hi)].
    + destruct (signal_handler_connect_absent_frame _ _ _ _ callback data Hr Hn
                  (inits_succeed_next _ Hrcs))
        as (b & s' & Hc & Hb & Hr' & Hframe & Hlog & _ & Hrcs').
      exists s'. eexists. split; [exact Hc|]. split; [exact Hr'|].
      split.
      { apply Forall_app. split; [now apply quiescent_set_last_next|].
        constructor; [reflexivity | constructor]. }
      split; [eapply inits_succeed_tail; eauto|]. split; [|exact Hlog].
      destruct Hown as [Hfree Hsame].
      assert (Hbo : b ∉ handler :: locs l).
      { intros Hin. apply elem_of_cons in Hin as [-> | Hin].
        - rewrite (registry_lookup _ _ _ _ Hr) in Hb. discriminate.
        - destruct (chain_lookup_loc _ _ _ _ (registry_chain _ _ _ _ Hr) Hin) as (j & _ & Hj).
          congruence. }
      split.
      * intros c Hc'. rewrite locs_app, locs_set_last_next in Hc'. simpl in Hc'.
        apply elem_of_cons in Hc' as [-> | Hc']; [apply Hfree; left|].
        apply elem_of_app in Hc' as [Hc' | Hc']; [apply Hfree; now right|].
        apply list_elem_of_singleton in Hc'. subst c.
        rewrite <- (Hsame b Hbo). exact Hb.
      * intros c Hc'. rewrite locs_app, locs_set_last_next in Hc'. simpl in Hc'.
        assert (Hch : c ≠ handler) by (intros ->; apply Hc'; left).
        assert (Hcl : c ∉ locs l).
        { intros H. apply Hc'. right. apply elem_of_app. now left. }
        assert (Hcb : c ≠ b).
        { intros ->. apply Hc'. right. apply elem_of_app. right. left. }
        rewrite (Hframe c Hch Hcb Hcl). apply Hsame.
        intros H. apply elem_of_cons in H as [? | ?]; contradiction.
    + pose proof (quiescent_node _ _ _ _ Hq) as Hm.
      eexists. exists (l1 ++ (a, with_callbacks i (connect_array (si_callbacks i) callback data)) :: l2).
      split; [eapply signal_handler_connect_found; eauto|].
      split; [eapply registry_update; [|exact Hr]; reflexivity|].
      split; [eapply quiescent_update; [|exact Hq]; exact Hm|].
      split; [exact Hrcs|]. split; [now apply (owned_store _ _ _ _ _ i) | reflexivity].
  - destruct (names_split name l) as [Hn | (l1 & a & i & l2 & -> & Hn & Hi)].
    + exists s, l. split; [eapply signal_handler_disconnect_absent; eauto|]. auto.
    + pose proof (quiescent_node _ _ _ _ Hq) as Hm.
      exists (set_heap (insert a (OSignal (with_callbacks i
                (disconnect_array (si_callbacks i) callback data)))) s).
      exists (l1 ++ (a, with_callbacks i (disconnect_array (si_callbacks i) callback data)) :: l2).
      split.
      { rewrite (signal_handler_disconnect_found _ _ _ _ _ _ _ callback data Hr Hn Hi Hm).
        unfold with_callbacks. rewrite Hm. reflexivity. }
      split; [eapply registry_update; [|exact Hr]; reflexivity|].
      split; [eapply quiescent_update; [|exact Hq]; exact Hm|].
      split; [exact Hrcs|]. split; [now apply (owned_store _ _ _ _ _ i) | reflexivity].
  - exists (add_calls (map (call_of params) (callbacks_of name l)) s), l.
    split; [eapply signal_handler_signal_eq; eauto|].
    split; [eapply registry_heap; [|exact Hr]; reflexivity|]. auto.
Qed.

Lemma run_operations_owned s0 s handler l ops :
  registry s handler MutexUnlocked l -> quiescent l -> inits_succeed s ->
  owned s0 s handler l ->
  ∃ s' l',
    run_operations (Some handler) ops s = Ret tt s' ∧
    registry s' handler MutexUnlocked l' ∧ quiescent l' ∧
    owned s0 s' handler l' ∧ log s' = log s.
Proof.
  revert s l. induction ops as [|op ops IH]; intros s l Hr Hq Hrcs Hown.
  - exists s, l. auto.
  - destruct (run_operation_owned _ _ _ _ op Hr Hq Hrcs Hown)
      as (s1 & l1 & Hop & Hr1 & Hq1 & Hrcs1 & Hown1 & Hlog1).
    destruct (IH _ _ Hr1 Hq1 Hrcs1 Hown1) as (s' & l' & Hops & Hr' & Hq' & Hown' & Hlog').
    exists s', l'. split; [|rewrite Hlog', Hlog1; auto].
    simpl. eapply bind_Ret; eauto.
Qed.

(** X14.  No structure of a registry outlives it.  When no
    [pthread_mutex_init] fails, creating a registry, making any sequence of
    calls of [signal_handler_connect], [signal_handler_disconnect] and
    [signal_handler_signal] on it and destroying it returns; the
    [struct signal_handler] and every [struct signal_info] allocated on
    the way have then been freed, so that no structure is allocated that
    was not allocated before the creation, and the structures that were
    are as they were.  Nothing has been logged.  (The names and the arrays
    are held in the structures by value: the statement is about the
    structures, not about the blocks of the names and of the arrays.) *)
Theorem lifetime_frees_every_struct (s : state) (ops : list operation) :
  inits_succeed s ->
  ∃ s', lifetime ops s = Ret tt s' ∧
        (∀ a, heap s !! a = None -> heap s' !! a = None) ∧
        (∀ a o, heap s !! a = Some o -> heap s' !! a = Some o) ∧
        log s' = log s.
Proof.
  intros Hrcs. set (h := fresh (dom (heap s))).
  set (s1 := set_heap (insert h (OHandler (mk_signal_handler NULL MutexUnlocked)))
                      (pop_result s)).
  assert (Hcreate : signal_handler_create s = Ret (Some h) s1).
  { unfold signal_handler_create.
    eapply bind_Ret; [reflexivity|]. fold h.
    eapply bind_Ret; [eapply set_first_eq; simpl; apply lookup_insert_eq|].
    eapply bind_Ret; [eapply pthread_mutex_init_handler; simpl; apply lookup_insert_eq|].
    change (next_init_result _) with (next_init_result s).
    rewrite (inits_succeed_next _ Hrcs). simpl. unfold ret. f_equal.
    destruct s as [hp lg rs cs]. unfold s1, set_heap, pop_result. simpl. f_equal.
    now rewrite !insert_insert_eq. }
  assert (Hr1 : registry s1 h MutexUnlocked []).
  { exists NULL. simpl. split; [apply lookup_insert_eq | reflexivity]. }
  assert (Hown1 : owned s s1 h []).
  { split.
    - intros a Ha. apply list_elem_of_singleton in Ha. subst a. apply fresh_heap.
    - intros a Ha. simpl. rewrite lookup_insert_ne; [reflexivity|].
      intros ->. apply Ha. left. }
  destruct (run_operations_owned s s1 h [] ops Hr1 (Forall_nil_2 _))
    as (s2 & l2 & Hops & Hr2 & Hq2 & [Hfree Hsame] & Hlog2);
    [eapply inits_succeed_tail; [|exact Hrcs]; reflexivity | exact Hown1 |].
  eexists. split.
  - unfold lifetime. eapply bind_Ret; [exact Hcreate|].
    eapply bind_Ret; [exact Hops|]. eapply signal_handler_destroy_eq; eauto.
  - simpl.
    assert (Heq : ∀ a, delete h (foldl (fun hp b => delete b hp) (heap s2) (locs l2)) !! a
                       = heap s !! a).
    { intros a. rewrite lookup_destroyed.
      destruct (decide (a ∈ h :: locs l2)) as [Hin | Hn].
      - symmetry. now apply Hfree.
      - now apply Hsame. }
    split; [intros a Ha; now rewrite Heq|].
    split; [intros a o Ha; now rewrite Heq | now rewrite Hlog2].
Qed.


(** ** Concurrent calls: the locks of the signals and the registrations *)

(** What a step does to the blocks of the signals. *)
Lemma connect_step_nodes s handler m l t pc' s' :
  registry s handler m l -> thread_inv (heap s) l t ->
  connect_step (Some handler) t s = Next pc' s' ->
  ∀ x i, heap s !! x = Some (OSignal i) ->
         ∃ i', heap s' !! x = Some (OSignal i') ∧ node_step t x i i'.
Proof.
  intros Hr Hinv Hstep x i Hx.
  pose proof (registry_lookup _ _ _ _ Hr) as Hh.
  assert (Hxh : x ≠ handler) by congruence.
  destruct t as [name cb d pc]. unfold connect_step, thread_inv, node_step in *. simpl in *.
  destruct pc as [| |sg la|la|sg la|sg|sg|sg|sg|sg|]; simpl in *.
  - unfold step_of in Hstep. rewrite (lock_handler_cases _ _ _ _ Hh) in Hstep.
    destruct m; try discriminate. inversion Hstep; subst; clear Hstep.
    exists i. simpl. rewrite lookup_insert_ne by congruence. auto.
  - unfold step_of in Hstep. rewrite (load_handler_eq _ _ _ Hh) in Hstep.
    inversion Hstep; subst; clear Hstep. exists i. auto.
  - destruct sg as [a|].
    + unfold step_of in Hstep. destruct (load_signal (Some a) s) eqn:E; try discriminate.
      assert (s0 = s) as -> by (unfold load_signal in E; repeat case_match; congruence).
      inversion Hstep; subst; clear Hstep. exists i. auto.
    + inversion Hstep; subst; clear Hstep. exists i. auto.
  - unfold step_of in Hstep. rewrite signal_info_create_eq in Hstep.
    destruct (next_init_result s =? 0); inversion Hstep; subst; clear Hstep.
    + exists i. simpl. rewrite lookup_insert_ne; [auto|].
      intros E. rewrite <- E, fresh_heap in Hx. discriminate.
    + exists i. auto.
  - destruct Hinv as (Hn & -> & Hsg). unfold step_of in Hstep.
    destruct sg as [b|].
    + unfold link in Hstep.
      destruct (list_nil_or_snoc l) as [-> | (l0 & [t it] & ->)].
      * simpl in Hstep. rewrite (set_first_eq _ _ _ _ Hh) in Hstep.
        inversion Hstep; subst; clear Hstep.
        exists i. simpl. rewrite lookup_insert_ne by congruence. auto.
      * rewrite last_ptr_snoc in Hstep. simpl in Hstep.
        destruct (chain_last _ _ _ _ _ (registry_chain _ _ _ _ Hr)) as [Ht Hnx].
        rewrite (set_next_eq _ _ _ _ Ht) in Hstep.
        inversion Hstep; subst; clear Hstep. simpl.
        destruct (decide (x = t)) as [-> | Hne].
        -- rewrite lookup_insert_eq. rewrite Ht in Hx. inversion Hx; subst.
           eexists. split; [reflexivity|]. simpl. auto.
        -- exists i. rewrite lookup_insert_ne by congruence. auto.
    + rewrite (link_null _ _ _ _ Hr) in Hstep. inversion Hstep; subst; clear Hstep.
      exists i. auto.
  - destruct sg as [b|]; inversion Hstep; subst; clear Hstep; exists i; auto.
  - unfold step_of in Hstep. rewrite (unlock_handler_cases _ _ _ _ Hh) in Hstep.
    destruct m; try discriminate. inversion Hstep; subst; clear Hstep.
    exists i. simpl. rewrite lookup_insert_ne by congruence. auto.
  - destruct Hinv as (b & -> & Hb).
    destruct (chain_lookup_loc _ _ _ _ (registry_chain _ _ _ _ Hr) Hb) as (ib & _ & Hib).
    unfold step_of in Hstep. rewrite (lock_signal_cases _ _ _ Hib) in Hstep.
    destruct (si_mutex ib) eqn:Em; try discriminate. inversion Hstep; subst; clear Hstep.
    simpl. destruct (decide (b = x)) as [-> | Hne].
    + rewrite lookup_insert_eq. rewrite Hib in Hx. inversion Hx; subst.
      eexists. split; [reflexivity|]. simpl. auto.
    + exists i. rewrite lookup_insert_ne by congruence. auto.
  - destruct Hinv as (b & -> & Hb).
    destruct (chain_lookup_loc _ _ _ _ (registry_chain _ _ _ _ Hr) Hb) as (ib & _ & Hib).
    unfold step_of, bind in Hstep.
    rewrite (signal_get_callback_idx_eq _ _ _ _ _ Hib) in Hstep.
    unfold connect_array.
    destruct (signal_get_callback_idx_from (si_callbacks ib) 0 cb d =? DARRAY_INVALID) eqn:E.
    + unfold da_push_back, bind in Hstep. rewrite (load_signal_eq _ _ _ Hib) in Hstep.
      rewrite (set_callbacks_eq _ _ _ _ Hib) in Hstep.
      inversion Hstep; subst; clear Hstep. simpl.
      destruct (decide (b = x)) as [-> | Hne].
      * rewrite lookup_insert_eq. rewrite Hib in Hx. inversion Hx; subst.
        eexists. split; [reflexivity|]. simpl. rewrite E. auto.
      * exists i. rewrite lookup_insert_ne by congruence. auto.
    + inversion Hstep; subst; clear Hstep. exists i. split; [exact Hx|].
      destruct (decide (b = x)) as [-> | Hne]; [|auto].
      rewrite Hib in Hx. inversion Hx; subst. rewrite E. auto.
  - destruct Hinv as (b & -> & Hb).
    destruct (chain_lookup_loc _ _ _ _ (registry_chain _ _ _ _ Hr) Hb) as (ib & _ & Hib).
    unfold step_of in Hstep. rewrite (unlock_signal_cases _ _ _ Hib) in Hstep.
    destruct (si_mutex ib) eqn:Em; try discriminate. inversion Hstep; subst; clear Hstep.
    simpl. destruct (decide (b = x)) as [-> | Hne].
    + rewrite lookup_insert_eq. rewrite Hib in Hx. inversion Hx; subst.
      eexists. split; [reflexivity|]. simpl. auto.
    + exists i. rewrite lookup_insert_ne by congruence. auto.
  - discriminate.
Qed.


Lemma registry_functional s handler m l m' l' :
  registry s handler m l -> registry s handler m' l' -> m = m' ∧ l = l'.
Proof.
  intros (p & Hh & Hc) (p' & Hh' & Hc'). rewrite Hh in Hh'. inversion Hh'; subst.
  split; [reflexivity | eapply chain_functional; eauto].
Qed.

(** What a step does to the lock of the registry. *)
Lemma connect_step_handler s handler m l t pc' s' :
  registry s handler m l -> thread_inv (heap s) l t ->
  connect_step (Some handler) t s = Next pc' s' ->
  ∃ p', heap s' !! handler =
        Some (OHandler (mk_signal_handler p'
          match th_pc t with
          | at_lock => MutexLocked
          | at_unlock _ => MutexUnlocked
          | _ => m
          end)).
Proof.
  intros Hr Hinv Hstep.
  destruct Hr as (p & Hh & Hc).
  assert (Hr : registry s handler m l) by (exists p; auto).
  destruct t as [name cb d pc]. unfold connect_step, thread_inv in *. simpl in *.
  destruct pc as [| |sg la|la|sg la|sg|sg|sg|sg|sg|]; simpl in *.
  - unfold step_of in Hstep. rewrite (lock_handler_cases _ _ _ _ Hh) in Hstep.
    destruct m; try discriminate. inversion Hstep; subst; clear Hstep.
    eexists. simpl. rewrite lookup_insert_eq. reflexivity.
  - unfold step_of in Hstep. rewrite (load_handler_eq _ _ _ Hh) in Hstep.
    inversion Hstep; subst; clear Hstep. eauto.
  - destruct sg as [a|].
    + unfold step_of in Hstep. destruct (load_signal (Some a) s) eqn:E; try discriminate.
      assert (s0 = s) as -> by (unfold load_signal in E; repeat case_match; congruence).
      inversion Hstep; subst; clear Hstep. eauto.
    + inversion Hstep; subst; clear Hstep. eauto.
  - unfold step_of in Hstep. rewrite signal_info_create_eq in Hstep.
    destruct (next_init_result s =? 0); inversion Hstep; subst; clear Hstep.
    + exists p. simpl. rewrite lookup_insert_ne; [auto|].
      intros E. rewrite <- E, fresh_heap in Hh. discriminate.
    + exists p. auto.
  - destruct Hinv as (Hn & -> & Hsg). unfold step_of in Hstep.
    destruct sg as [b|].
    + unfold link in Hstep.
      destruct (list_nil_or_snoc l) as [-> | (l0 & [t it] & ->)].
      * simpl in Hstep. rewrite (set_first_eq _ _ _ _ Hh) in Hstep.
        inversion Hstep; subst; clear Hstep.
        eexists. simpl. rewrite lookup_insert_eq. reflexivity.
      * rewrite last_ptr_snoc in Hstep. simpl in Hstep.
        destruct (chain_last _ _ _ _ _ Hc) as [Ht Hnx].
        rewrite (set_next_eq _ _ _ _ Ht) in Hstep.
        inversion Hstep; subst; clear Hstep. simpl.
        exists p. rewrite lookup_insert_ne by congruence. auto.
    + rewrite (link_null _ _ _ _ Hr) in Hstep. inversion Hstep; subst; clear Hstep.
      eauto.
  - destruct sg as [b|]; inversion Hstep; subst; clear Hstep; eauto.
  - unfold step_of in Hstep. rewrite (unlock_handler_cases _ _ _ _ Hh) in Hstep.
    destruct m; try discriminate. inversion Hstep; subst; clear Hstep.
    eexists. simpl. rewrite lookup_insert_eq. reflexivity.
  - destruct Hinv as (b & -> & Hb).
    destruct (chain_lookup_loc _ _ _ _ Hc Hb) as (ib & _ & Hib).
    unfold step_of in Hstep. rewrite (lock_signal_cases _ _ _ Hib) in Hstep.
    destruct (si_mutex ib) eqn:Em; try discriminate. inversion Hstep; subst; clear Hstep.
    exists p. simpl. rewrite lookup_insert_ne by congruence. auto.
  - destruct Hinv as (b & -> & Hb).
    destruct (chain_lookup_loc _ _ _ _ Hc Hb) as (ib & _ & Hib).
    unfold step_of, bind in Hstep.
    rewrite (signal_get_callback_idx_eq _ _ _ _ _ Hib) in Hstep.
    destruct (signal_get_callback_idx_from (si_callbacks ib) 0 cb d =? DARRAY_INVALID) eqn:E.
    + unfold da_push_back, bind in Hstep. rewrite (load_signal_eq _ _ _ Hib) in Hstep.
      rewrite (set_callbacks_eq _ _ _ _ Hib) in Hstep.
      inversion Hstep; subst; clear Hstep. simpl.
      exists p. rewrite lookup_insert_ne by congruence. auto.
    + inversion Hstep; subst; clear Hstep. eauto.
  - destruct Hinv as (b & -> & Hb).
    destruct (chain_lookup_loc _ _ _ _ Hc Hb) as (ib & _ & Hib).
    unfold step_of in Hstep. rewrite (unlock_signal_cases _ _ _ Hib) in Hstep.
    destruct (si_mutex ib) eqn:Em; try discriminate. inversion Hstep; subst; clear Hstep.
    exists p. simpl. rewrite lookup_insert_ne by congruence. auto.
  - discriminate.
Qed.

(** The invariant of the runs after a step, with the signals of the
    registry after it: those before it and, after a link, the new one. *)
Lemma connect_step_locs s handler m l ts k t pc' s' :
  registry s handler m l -> NoDup (names l) -> threads_ok (heap s) m l ts ->
  ts !! k = Some t ->
  connect_step (Some handler) t s = Next pc' s' ->
  ∃ m' l',
    registry s' handler m' l' ∧ NoDup (names l') ∧
    threads_ok (heap s') m' l' (<[k := set_pc t pc']> ts) ∧
    (m ≠ MutexUninit -> m' ≠ MutexUninit) ∧
    (∀ x, x ∈ locs l -> x ∈ locs l') ∧
    (∀ x, x ∈ locs l' -> x ∈ locs l ∨ ∃ last, th_pc t = at_link (Some x) last).
Proof.
  intros Hr Hnd Hok Hk Hstep.
  destruct (proj1 Hok _ _ Hk) as [Hinv _].
  destruct (connect_step_inv _ _ _ _ _ _ _ _ _ Hr Hnd Hok Hk Hstep)
    as (m' & l' & Hr' & Hnd' & Hok' & Hpre & Hchg).
  destruct (connect_step_handler _ _ _ _ _ _ _ Hr Hinv Hstep) as (p1 & Hh1).
  assert (Hm1 : m ≠ MutexUninit -> m' ≠ MutexUninit).
  { destruct Hr' as (p2 & Hh2 & _). rewrite Hh1 in Hh2. inversion Hh2; subst.
    destruct (th_pc t); auto; discriminate. }
  exists m', l'. split; [exact Hr'|]. split; [exact Hnd'|]. split; [exact Hok'|].
  split; [exact Hm1|].
  destruct Hchg as [He | (c & last & Hpc)].
  - destruct (entries_same _ _ He) as (_ & Hl & _). rewrite Hl. auto.
  - unfold thread_inv in Hinv. unfold connect_step in Hstep. rewrite Hpc in Hinv, Hstep.
    destruct Hinv as (Hn & -> & Hc & Hfresh).
    destruct (link_node _ _ _ _ _ _ Hr Hc Hfresh eq_refl) as (s1 & Hl1 & Hr1 & _).
    unfold step_of in Hstep. rewrite Hl1 in Hstep. inversion Hstep; subst.
    destruct (registry_functional _ _ _ _ _ _ Hr' Hr1) as [_ ->].
    rewrite locs_app, locs_set_last_next. simpl. split.
    + intros x Hx. apply elem_of_app. now left.
    + intros x Hx. apply elem_of_app in Hx. destruct Hx as [Hx | Hx]; [now left|].
      apply list_elem_of_singleton in Hx. subst. right. eauto.
Qed.


(** The places a step can lead to. *)
Lemma connect_step_holds handler t s pc' s' b :
  connect_step handler t s = Next pc' s' -> holds pc' = Some b ->
  th_pc t = at_lock_sig (Some b) ∨ th_pc t = at_register (Some b).
Proof.
  unfold connect_step, step_of. intros Hstep Hb.
  destruct (th_pc t) as [| |sg la|la|sg la|sg|sg|sg|sg|sg|];
    repeat case_match; inversion Hstep; subst; simpl in Hb; try discriminate;
    subst; auto.
Qed.

Lemma connect_step_target handler t s pc' s' b :
  connect_step handler t s = Next pc' s' -> target pc' = Some b ->
  target (th_pc t) = Some b ∨
  (∃ last, th_pc t = at_link (Some b) last) ∨
  (∃ last i, th_pc t = at_getsignal_loop (Some b) last ∧ s' = s ∧
             heap s !! b = Some (OSignal i) ∧ si_name i = th_signal t).
Proof.
  unfold connect_step, step_of. intros Hstep Hb.
  destruct (th_pc t) as [| |sg la|la|sg la|sg|sg|sg|sg|sg|] eqn:Hpc;
    try (repeat case_match; inversion Hstep; subst; simpl in Hb; try discriminate;
         subst; simpl; eauto; fail).
  destruct sg as [a|]; [|inversion Hstep; subst; discriminate].
  destruct (load_signal (Some a) s) as [i s1| | |] eqn:E; try discriminate.
  inversion Hstep; subst; clear Hstep.
  destruct (strcmp (si_name i) (th_signal t) =? 0) eqn:Ecmp; simpl in Hb; [|discriminate].
  inversion Hb; subst. apply strcmp_eq in Ecmp.
  unfold load_signal in E. destruct (heap s !! b) as [[|i0]|] eqn:Hx; try discriminate.
  inversion E; subst. right. right. exists la, i. auto.
Qed.

Lemma connect_step_registered handler t s pc' s' b :
  connect_step handler t s = Next pc' s' -> pc' = at_unlock_sig (Some b) ->
  th_pc t = at_register (Some b).
Proof.
  unfold connect_step, step_of. intros Hstep Hb.
  destruct (th_pc t) as [| |sg la|la|sg la|sg|sg|sg|sg|sg|];
    repeat case_match; inversion Hstep; subst; try discriminate; congruence.
Qed.

Lemma connected_grows array callback data callback' data' :
  connected callback data array ->
  connected callback data (connect_array array callback' data').
Proof.
  unfold connected, connect_array. intros H. case_match; [|exact H].
  apply elem_of_app. now left.
Qed.

(** A step keeps the locks of the signals as the threads say. *)
Lemma locks_ok_step s handler m l ts k t pc' s' l' :
  registry s handler m l -> thread_inv (heap s) l t ->
  locks_ok (heap s) (locs l) ts ->
  ts !! k = Some t ->
  connect_step (Some handler) t s = Next pc' s' ->
  (∀ x, x ∈ locs l' -> x ∈ locs l ∨ ∃ last, th_pc t = at_link (Some x) last) ->
  locks_ok (heap s') (locs l') (<[k := set_pc t pc']> ts).
Proof.
  intros Hr Hinv (Hinit & Hheld & Hone) Hk Hstep Hlocs.
  pose proof (connect_step_nodes _ _ _ _ _ _ _ Hr Hinv Hstep) as Hnodes.
  assert (Hlt : (k < length ts)%nat) by (eapply lookup_lt_Some; eauto).
  (* the signal that the stepping thread holds after the step *)
  assert (Hmine : ∀ b, holds pc' = Some b ->
            (∃ i, heap s !! b = Some (OSignal i) ∧
                  (th_pc t = at_lock_sig (Some b) ∨
                   (th_pc t = at_register (Some b) ∧ si_mutex i = MutexLocked)))).
  { intros b Hb. destruct (connect_step_holds _ _ _ _ _ _ Hstep Hb) as [Hpc | Hpc].
    - unfold thread_inv in Hinv. rewrite Hpc in Hinv. destruct Hinv as (b' & Eb & Hin).
      inversion Eb; subst b'. destruct (Hinit _ Hin) as (i & Hi & _). eauto.
    - destruct (Hheld k t b Hk) as (i & Hi & Hm); [rewrite Hpc; reflexivity|]. eauto. }
  split; [|split].
  - intros x Hx. destruct (Hlocs _ Hx) as [Hin | (last & Hpc)].
    + destruct (Hinit _ Hin) as (i & Hi & Hm).
      destruct (Hnodes _ _ Hi) as (i' & Hi' & _ & Hst). exists i'. split; [exact Hi'|].
      destruct (th_pc t) as [| |sg la|la|sg la|sg|sg|sg|sg|sg|];
        try (destruct Hst as [_ ->]; exact Hm).
      * destruct sg; [|destruct Hst as [_ ->]; exact Hm].
        destruct Hst as [_ Hst]. destruct (decide (l0 = x)); [|rewrite Hst; exact Hm].
        destruct Hst as [_ ->]. discriminate.
      * destruct sg; [|destruct Hst as [_ ->]; exact Hm]. destruct Hst as [-> _]. exact Hm.
      * destruct sg; [|destruct Hst as [_ ->]; exact Hm].
        destruct Hst as [_ Hst]. destruct (decide (l0 = x)); [|rewrite Hst; exact Hm].
        destruct Hst as [_ ->]. discriminate.
    + unfold thread_inv in Hinv. rewrite Hpc in Hinv. destruct Hinv as (_ & _ & Hc & _).
      destruct (Hnodes _ _ Hc) as (i' & Hi' & _ & Hst). rewrite Hpc in Hst.
      exists i'. split; [exact Hi'|]. destruct Hst as [_ ->]. discriminate.
  - intros j tj b Hj Hb.
    destruct (decide (j = k)) as [-> | Hne].
    + rewrite list_lookup_insert_eq in Hj by exact Hlt. inversion Hj; subst tj. simpl in Hb.
      destruct (Hmine _ Hb) as (i & Hi & Hpc).
      destruct (Hnodes _ _ Hi) as (i' & Hi' & _ & Hst). exists i'. split; [exact Hi'|].
      destruct Hpc as [Hpc | [Hpc Hm]]; rewrite Hpc in Hst.
      * destruct Hst as [_ Hst]. rewrite decide_True in Hst by reflexivity. tauto.
      * destruct Hst as [-> _]. exact Hm.
    + rewrite list_lookup_insert_ne in Hj by congruence.
      destruct (Hheld _ _ _ Hj Hb) as (i & Hi & Hm).
      destruct (Hnodes _ _ Hi) as (i' & Hi' & _ & Hst). exists i'. split; [exact Hi'|].
      destruct (th_pc t) as [| |sg la|la|sg la|sg|sg|sg|sg|sg|] eqn:Hpc;
        try (destruct Hst as [_ ->]; exact Hm).
      * destruct sg; [|destruct Hst as [_ ->]; exact Hm].
        destruct Hst as [_ Hst]. destruct (decide (l0 = b)); [|rewrite Hst; exact Hm].
        tauto.
      * destruct sg; [|destruct Hst as [_ ->]; exact Hm]. destruct Hst as [-> _]. exact Hm.
      * destruct sg; [|destruct Hst as [_ ->]; exact Hm].
        destruct Hst as [_ Hst]. destruct (decide (l0 = b)) as [-> | Hnb]; [|rewrite Hst; exact Hm].
        exfalso. apply Hne. apply (Hone j k tj t b Hj Hk Hb). rewrite Hpc. reflexivity.
  - (* a second holder of the signal taken or kept by the step *)
    assert (Hother : ∀ j tj b, j ≠ k -> ts !! j = Some tj -> holds (th_pc tj) = Some b ->
                               holds pc' = Some b -> False).
    { intros j tj b Hne Hj Hb Hb'.
      destruct (Hmine _ Hb') as (i & Hi & Hpc).
      destruct (Hheld _ _ _ Hj Hb) as (i0 & Hi0 & Hm). rewrite Hi in Hi0. inversion Hi0; subst i0.
      destruct Hpc as [Hpc | [Hpc _]].
      - destruct (Hnodes _ _ Hi) as (i' & _ & _ & Hst). rewrite Hpc in Hst.
        destruct Hst as [_ Hst]. rewrite decide_True in Hst by reflexivity.
        destruct Hst as [Hu _]. congruence.
      - apply Hne. apply (Hone j k tj t b Hj Hk Hb). rewrite Hpc. reflexivity. }
    intros k1 k2 t1 t2 b H1 H2 Hb1 Hb2.
    destruct (decide (k1 = k)) as [-> | Hn1]; destruct (decide (k2 = k)) as [-> | Hn2];
      try reflexivity.
    + rewrite list_lookup_insert_eq in H1 by exact Hlt. inversion H1; subst t1.
      rewrite list_lookup_insert_ne in H2 by congruence. simpl in Hb1.
      destruct (Hother _ _ _ Hn2 H2 Hb2 Hb1).
    + rewrite list_lookup_insert_eq in H2 by exact Hlt. inversion H2; subst t2.
      rewrite list_lookup_insert_ne in H1 by congruence. simpl in Hb2.
      destruct (Hother _ _ _ Hn1 H1 Hb1 Hb2).
    + rewrite list_lookup_insert_ne in H1, H2 by congruence. eapply Hone; eauto.
Qed.


(** A step keeps the names of the signals and the pairs on their arrays. *)
Lemma connect_step_keeps s handler m l t pc' s' :
  registry s handler m l -> thread_inv (heap s) l t ->
  connect_step (Some handler) t s = Next pc' s' ->
  ∀ x i, heap s !! x = Some (OSignal i) ->
    ∃ i', heap s' !! x = Some (OSignal i') ∧ si_name i' = si_name i ∧
          ∀ c e, connected c e (si_callbacks i) -> connected c e (si_callbacks i').
Proof.
  intros Hr Hinv Hstep x i Hx.
  destruct (connect_step_nodes _ _ _ _ _ _ _ Hr Hinv Hstep _ _ Hx) as (i' & Hi' & Hn & Hst).
  exists i'. split; [exact Hi'|]. split; [exact Hn|]. intros c e Hc.
  destruct (th_pc t) as [| |sg la|la|sg la|sg|sg|sg|sg|sg|];
    try (destruct Hst as [-> _]; exact Hc).
  - destruct sg; destruct Hst as [-> _]; exact Hc.
  - destruct sg; [|destruct Hst as [-> _]; exact Hc].
    destruct Hst as [_ ->]. destruct (decide (l0 = x)); [|exact Hc].
    apply connected_grows. exact Hc.
  - destruct sg; destruct Hst as [-> _]; exact Hc.
Qed.

(** A step keeps what the threads have reached. *)
Lemma registered_step s handler m l ts k t pc' s' :
  registry s handler m l -> thread_inv (heap s) l t ->
  registered (heap s) ts ->
  ts !! k = Some t ->
  connect_step (Some handler) t s = Next pc' s' ->
  registered (heap s') (<[k := set_pc t pc']> ts).
Proof.
  intros Hr Hinv Hreg Hk Hstep.
  pose proof (connect_step_keeps _ _ _ _ _ _ _ Hr Hinv Hstep) as Hkeep.
  assert (Hlt : (k < length ts)%nat) by (eapply lookup_lt_Some; eauto).
  intros j tj b Hj. destruct (decide (j = k)) as [-> | Hne].
  - rewrite list_lookup_insert_eq in Hj by exact Hlt. inversion Hj; subst tj. simpl.
    assert (Htarget : target pc' = Some b ->
              ∃ i, heap s' !! b = Some (OSignal i) ∧ si_name i = th_signal t).
    { intros Hb. destruct (connect_step_target _ _ _ _ _ _ Hstep Hb)
        as [Hold | [(last & Hpc) | (last & i & Hpc & -> & Hi & Hn)]].
      - destruct (proj1 (Hreg _ _ b Hk) Hold) as (i & Hi & Hn).
        destruct (Hkeep _ _ Hi) as (i' & Hi' & Hn' & _). exists i'. split; [exact Hi' | congruence].
      - unfold thread_inv in Hinv. rewrite Hpc in Hinv. destruct Hinv as (_ & _ & Hc & _).
        destruct (Hkeep _ _ Hc) as (i' & Hi' & Hn' & _). exists i'. split; [exact Hi' | exact Hn'].
      - eauto. }
    split; [exact Htarget|].
    intros Hpc'. pose proof (connect_step_registered _ _ _ _ _ _ Hstep Hpc') as Hpc.
    destruct (proj1 (Hreg _ _ b Hk)) as (i & Hi & _); [rewrite Hpc; reflexivity|].
    destruct (connect_step_nodes _ _ _ _ _ _ _ Hr Hinv Hstep _ _ Hi) as (i' & Hi' & _ & Hst).
    rewrite Hpc in Hst. destruct Hst as [_ Hst]. rewrite decide_True in Hst by reflexivity.
    exists i'. split; [exact Hi'|]. rewrite Hst. apply connected_connect_array.
  - rewrite list_lookup_insert_ne in Hj by congruence.
    destruct (Hreg _ _ b Hj) as [Ht Hd]. split.
    + intros Hb. destruct (Ht Hb) as (i & Hi & Hn).
      destruct (Hkeep _ _ Hi) as (i' & Hi' & Hn' & _). exists i'. split; [exact Hi' | congruence].
    + intros Hb. destruct (Hd Hb) as (i & Hi & Hc).
      destruct (Hkeep _ _ Hi) as (i' & Hi' & _ & Hc'). exists i'. split; [exact Hi' | auto].
Qed.

(** With the invariants of the runs no statement of a thread has undefined
    behaviour; a thread that has not returned takes its step unless it
    waits, which it does for the lock of the registry or of its signal,
    held at that time. *)
Lemma connect_step_result s handler m l ts k t :
  registry s handler m l -> m ≠ MutexUninit ->
  threads_ok (heap s) m l ts -> locks_ok (heap s) (locs l) ts ->
  ts !! k = Some t ->
  match connect_step (Some handler) t s with
  | Next _ _ => True
  | Waits =>
      (th_pc t = at_lock ∧ m = MutexLocked) ∨
      (∃ b i, th_pc t = at_lock_sig (Some b) ∧ b ∈ locs l ∧
              heap s !! b = Some (OSignal i) ∧ si_mutex i = MutexLocked)
  | Halted => th_pc t = returned
  | Crash => False
  end.
Proof.
  intros Hr Hm Hok (Hinit & Hheld & _) Hk.
  destruct (proj1 Hok _ _ Hk) as [Hinv Hcs].
  pose proof (fun b => Hheld _ _ b Hk) as Hmine.
  destruct Hr as (p & Hh & Hc).
  assert (Hr : registry s handler m l) by (exists p; auto).
  destruct t as [name cb d pc]. unfold connect_step, thread_inv in *. simpl in *.
  destruct pc as [| |sg la|la|sg la|sg|sg|sg|sg|sg|]; simpl in *.
  - unfold step_of. rewrite (lock_handler_cases _ _ _ _ Hh). destruct m; auto.
  - unfold step_of. rewrite (load_handler_eq _ _ _ Hh). exact I.
  - destruct sg as [a|]; [|exact I].
    destruct Hinv as (l1 & l2 & -> & _ & Ha & _).
    destruct l2 as [|[a' i] l2]; [discriminate|]. simpl in Ha. inversion Ha; subst a'.
    destruct (chain_lookup_loc _ _ _ _ Hc (locs_middle l1 a i l2)) as (i' & _ & Hi').
    unfold step_of. rewrite (load_signal_eq _ _ _ Hi'). exact I.
  - unfold step_of. rewrite signal_info_create_eq.
    destruct (next_init_result s =? 0); exact I.
  - destruct Hinv as (_ & -> & Hsg). destruct sg as [b|].
    + destruct Hsg as [Hb Hfresh].
      destruct (link_node _ _ _ _ _ _ Hr Hb Hfresh eq_refl) as (s1 & Hl1 & _).
      unfold step_of. rewrite Hl1. exact I.
    + unfold step_of. rewrite (link_null _ _ _ _ Hr). exact I.
  - destruct sg; exact I.
  - rewrite (Hcs eq_refl) in Hh. unfold step_of.
    rewrite (unlock_handler_cases _ _ _ _ Hh). exact I.
  - destruct Hinv as (b & -> & Hb). destruct (Hinit _ Hb) as (i & Hi & Hmi).
    unfold step_of. rewrite (lock_signal_cases _ _ _ Hi).
    destruct (si_mutex i) eqn:Em; [congruence | exact I | right; eauto 10].
  - destruct Hinv as (b & -> & Hb). destruct (Hinit _ Hb) as (i & Hi & _).
    unfold step_of, bind. rewrite (signal_get_callback_idx_eq _ _ _ _ _ Hi).
    destruct (_ =? DARRAY_INVALID); [|exact I].
    unfold da_push_back, bind. rewrite (load_signal_eq _ _ _ Hi).
    rewrite (set_callbacks_eq _ _ _ _ Hi). exact I.
  - destruct Hinv as (b & -> & Hb). destruct (Hmine b eq_refl) as (i & Hi & Hmi).
    unfold step_of. rewrite (unlock_signal_cases _ _ _ Hi), Hmi. exact I.
  - reflexivity.
Qed.


Lemma connect_inv_initial s handler l ts :
  registry s handler MutexUnlocked l -> NoDup (names l) -> initialised l ->
  Forall (fun t => th_pc t = at_lock) ts ->
  connect_inv handler s ts.
Proof.
  intros Hr Hnd Hinit Hall. exists MutexUnlocked, l.
  split; [exact Hr|]. split; [exact Hnd|]. split; [discriminate|].
  split; [apply threads_ok_initial; exact Hall|].
  rewrite Forall_lookup in Hall. split; [|split].
  - intros x Hx.
    destruct (chain_lookup_loc _ _ _ _ (registry_chain _ _ _ _ Hr) Hx) as (i & Hin & Hi).
    exists i. split; [exact Hi|].
    unfold initialised in Hinit. rewrite Forall_forall in Hinit. apply (Hinit _ Hin).
  - intros k t b Hk Hb. rewrite (Hall _ _ Hk) in Hb. discriminate.
  - intros k1 k2 t1 t2 b Hk _ Hb. rewrite (Hall _ _ Hk) in Hb. discriminate.
Qed.

Lemma connect_inv_step handler s ts s' ts' :
  connect_inv handler s ts ->
  sched_step (Some handler) (s, ts) (s', ts') ->
  connect_inv handler s' ts'.
Proof.
  intros (m & l & Hr & Hnd & Hm & Hok & Hlocks) Hstep.
  inversion Hstep as [s0 ts0 k t pc' s1 Hk Hst]; subst.
  destruct (proj1 Hok _ _ Hk) as [Hinv _].
  destruct (connect_step_locs _ _ _ _ _ _ _ _ _ Hr Hnd Hok Hk Hst)
    as (m' & l' & Hr' & Hnd' & Hok' & Hm' & _ & Hnew).
  exists m', l'. split; [exact Hr'|]. split; [exact Hnd'|]. split; [auto|].
  split; [exact Hok'|].
  exact (locks_ok_step _ _ _ _ _ _ _ _ _ _ Hr Hinv Hlocks Hk Hst Hnew).
Qed.

Lemma connect_inv_reachable handler c c' :
  rtc (sched_step (Some handler)) c c' ->
  connect_inv handler c.1 c.2 -> connect_inv handler c'.1 c'.2.
Proof.
  induction 1 as [c | c c1 c' Hstep _ IH]; intros Hinv; [exact Hinv|].
  apply IH. destruct c as [s ts], c1 as [s1 ts1]. eapply connect_inv_step; eauto.
Qed.

(** The invariant of the runs and what the threads have reached hold all
    along every run. *)
Lemma registered_reachable handler c c' :
  rtc (sched_step (Some handler)) c c' ->
  concurrent_inv handler c.1 c.2 -> registered (heap c.1) c.2 ->
  concurrent_inv handler c'.1 c'.2 ∧ registered (heap c'.1) c'.2.
Proof.
  induction 1 as [c | c c1 c' Hstep _ IH]; intros Hinv Hreg; [auto|].
  destruct Hinv as (m & l & Hr & Hnd & Hok).
  destruct Hstep as [s ts k t pc' s' Hk Hst]. simpl in *.
  destruct (proj1 Hok _ _ Hk) as [Hthr _].
  destruct (connect_step_inv _ _ _ _ _ _ _ _ _ Hr Hnd Hok Hk Hst)
    as (m1 & l1 & Hr1 & Hnd1 & Hok1 & _).
  apply IH.
  - exists m1, l1. auto.
  - exact (registered_step _ _ _ _ _ _ _ _ _ Hr Hthr Hreg Hk Hst).
Qed.

(** A signal of the registry stays one, with its name and the pairs on its
    array, all along a run. *)
Lemma signal_persists handler c c' :
  rtc (sched_step (Some handler)) c c' ->
  concurrent_inv handler c.1 c.2 ->
  ∀ m l b i, registry c.1 handler m l -> b ∈ locs l ->
    heap c.1 !! b = Some (OSignal i) ->
    ∃ m' l' i', registry c'.1 handler m' l' ∧ NoDup (names l') ∧ b ∈ locs l' ∧
                heap c'.1 !! b = Some (OSignal i') ∧ si_name i' = si_name i ∧
                ∀ f e, connected f e (si_callbacks i) -> connected f e (si_callbacks i').
Proof.
  induction 1 as [c | c c1 c' Hstep _ IH]; intros Hinv m l b i Hr Hb Hi.
  - destruct Hinv as (m0 & l0 & Hr0 & Hnd0 & _).
    destruct (registry_functional _ _ _ _ _ _ Hr Hr0) as [-> ->].
    exists m0, l0, i. split; [exact Hr0|]. split; [exact Hnd0|]. split; [exact Hb|].
    split; [exact Hi|]. split; [reflexivity|]. auto.
  - destruct Hinv as (m0 & l0 & Hr0 & Hnd0 & Hok0).
    destruct (registry_functional _ _ _ _ _ _ Hr Hr0) as [-> ->].
    destruct Hstep as [s ts k t pc' s' Hk Hst]. simpl in *.
    destruct (proj1 Hok0 _ _ Hk) as [Hthr _].
    destruct (connect_step_locs _ _ _ _ _ _ _ _ _ Hr Hnd0 Hok0 Hk Hst)
      as (m1 & l1 & Hr1 & Hnd1 & Hok1 & _ & Hold & _).
    destruct (connect_step_keeps _ _ _ _ _ _ _ Hr Hthr Hst _ _ Hi) as (i1 & Hi1 & Hn1 & Hc1).
    assert (Hinv1 : concurrent_inv handler s' (<[k := set_pc t pc']> ts))
      by (exists m1, l1; auto).
    destruct (IH Hinv1 m1 l1 b i1 Hr1 (Hold _ Hb) Hi1)
      as (m' & l' & i' & Hr' & Hnd' & Hb' & Hi' & Hn' & Hc').
    exists m', l', i'. split; [exact Hr'|]. split; [exact Hnd'|]. split; [exact Hb'|].
    split; [exact Hi'|]. split; [congruence|]. auto.
Qed.

(** The array of a name in a registry with one signal per name is the array
    of the signal of that name. *)
Lemma callbacks_of_signal s handler m l b i :
  registry s handler m l -> NoDup (names l) -> b ∈ locs l ->
  heap s !! b = Some (OSignal i) ->
  callbacks_of (si_name i) l = si_callbacks i.
Proof.
  intros Hr Hnd Hb Hi.
  destruct (chain_lookup_loc _ _ _ _ (registry_chain _ _ _ _ Hr) Hb) as (i' & Hin & Hi').
  assert (i' = i) as -> by congruence.
  apply list_elem_of_split in Hin. destruct Hin as (l1 & l2 & ->).
  apply callbacks_of_found; [|reflexivity].
  rewrite names_app in Hnd. simpl in Hnd. apply NoDup_app in Hnd.
  destruct Hnd as (_ & Hdis & _). intros Hin. apply (Hdis _ Hin). left.
Qed.

(** X15.  Calls of [signal_handler_connect] that run at the same time, in
    any number and for any names, on a registry with one signal per name
    whose locks are initialised and free.  In every state that such a run
    reaches no thread's next statement has undefined behaviour: no access
    to a block that is not there, no lock of a mutex that is not
    initialised, no unlock of a mutex that is not held.  And a thread
    that is between the lock and the unlock of the lock of a signal, which
    is where the array of the signal is searched and extended, finds that
    lock held and is the only such thread for that signal. *)
Theorem concurrent_connect_is_defined (handler : loc) (s0 : state)
    (l0 : list (loc * signal_info)) (ts0 : list thread)
    (s : state) (ts : list thread) :
  registry s0 handler MutexUnlocked l0 ->
  NoDup (names l0) ->
  initialised l0 ->
  Forall (fun t => th_pc t = at_lock) ts0 ->
  rtc (sched_step (Some handler)) (s0, ts0) (s, ts) ->
  (∀ k t, ts !! k = Some t -> connect_step (Some handler) t s ≠ Crash) ∧
  (∀ k t b, ts !! k = Some t -> holds (th_pc t) = Some b ->
     (∃ i, heap s !! b = Some (OSignal i) ∧ si_mutex i = MutexLocked) ∧
     ∀ k' t', ts !! k' = Some t' -> holds (th_pc t') = Some b -> k' = k).
Proof.
  intros Hr0 Hnd0 Hinit Hall Hrun.
  pose proof (connect_inv_reachable _ _ _ Hrun
                (connect_inv_initial _ _ _ _ Hr0 Hnd0 Hinit Hall)) as Hinv.
  simpl in Hinv. destruct Hinv as (m & l & Hr & _ & Hm & Hok & Hlocks).
  split.
  - intros k t Hk Hc.
    pose proof (connect_step_result _ _ _ _ _ _ _ Hr Hm Hok Hlocks Hk) as Hres.
    rewrite Hc in Hres. exact Hres.
  - intros k t b Hk Hb. destruct Hlocks as (_ & Hheld & Hone). split.
    + eapply Hheld; eauto.
    + intros k' t' Hk' Hb'. eapply Hone; eauto.
Qed.

(** C8.  Calls of [signal_handler_connect] that run at the same time, in
    any number and for any names, on a registry with one signal per name,
    each thread taking one statement at a time in any order.  In every
    state that such a run reaches: the registry is a registry with at most
    one signal per name, so that first-time connects to one name never
    leave two signals of that name, and it has kept the signals of the
    start; a thread that is between the lock and the unlock of the registry
    lock, which is where [signal_info_create] and the link of the new node
    are, finds the lock held and is the only such thread; the signal that a
    thread has found or linked for its name is in the collection, at its
    place and under that name, so no new signal is lost; and the one
    step that changes the collection of signals is the link of a new
    node: it is taken with the registry lock held, which stays held over
    the step, by a thread whose name is not yet in the collection and
    whose node is allocated and initialised, and it puts that node with
    that name at the end of the collection; every other step leaves the
    collection as it is. *)
Theorem concurrent_connect_one_entry_per_name (handler : loc) (s0 : state)
    (l0 : list (loc * signal_info)) (ts0 : list thread)
    (s : state) (ts : list thread) :
  registry s0 handler MutexUnlocked l0 ->
  NoDup (names l0) ->
  Forall (fun t => th_pc t = at_lock) ts0 ->
  rtc (sched_step (Some handler)) (s0, ts0) (s, ts) ->
  ∃ m l,
    registry s handler m l ∧
    NoDup (names l) ∧
    entries l0 `prefix_of` entries l ∧
    (∀ k t, ts !! k = Some t -> in_cs (th_pc t) = true ->
       handler_lock s handler = Some MutexLocked ∧
       ∀ k' t', ts !! k' = Some t' -> in_cs (th_pc t') = true -> k' = k) ∧
    (∀ k t b, ts !! k = Some t -> target (th_pc t) = Some b ->
       (b, th_signal t) ∈ entries l) ∧
    (∀ k t pc' s', ts !! k = Some t ->
       connect_step (Some handler) t s = Next pc' s' ->
       ∃ m' l', registry s' handler m' l' ∧
         ((∀ b last, th_pc t ≠ at_link (Some b) last) -> entries l' = entries l) ∧
         (∀ b last, th_pc t = at_link (Some b) last ->
            heap s !! b = Some (OSignal (new_signal (th_signal t))) ∧
            handler_lock s handler = Some MutexLocked ∧
            handler_lock s' handler = Some MutexLocked ∧
            (th_signal t ∉ names l) ∧
            pc' = at_check (Some b) ∧
            entries l' = entries l ++ [(b, th_signal t)])).
Proof.
  intros Hr0 Hnd0 Hall Hrun.
  pose proof (threads_ok_initial (heap s0) l0 _ Hall) as Hok0.
  assert (Hreg0 : registered (heap s0) ts0).
  { rewrite Forall_lookup in Hall. intros j tj b Hj. rewrite (Hall _ _ Hj).
    split; discriminate. }
  destruct (reachable_inv _ _ _ Hrun MutexUnlocked l0 Hr0 Hnd0 Hok0)
    as (m & l & Hr & Hnd & Hok & Hpre).
  destruct (registered_reachable _ _ _ Hrun) as [_ Hreg];
    [exists MutexUnlocked, l0; auto | exact Hreg0 |].
  simpl in *. exists m, l. split; [exact Hr|]. split; [exact Hnd|]. split; [exact Hpre|].
  split; [|split].
  - intros k t Hk Hcs. destruct Hok as [Hthreads Hex].
    destruct (Hthreads _ _ Hk) as [_ Hm]. rewrite (Hm Hcs) in Hr. split.
    + eapply registry_handler_lock; eauto.
    + intros k' t' Hk' Hcs'. eapply Hex; eauto.
  - intros k t b Hk Hb.
    destruct (proj1 (Hreg _ _ b Hk) Hb) as (i & Hi & Hn).
    assert (Hin : b ∈ locs l).
    { destruct (proj1 Hok _ _ Hk) as [Hthr _]. unfold thread_inv in Hthr.
      destruct (th_pc t) as [| |sg la|la|sg la|sg|sg|sg|sg|sg|]; simpl in Hb;
        try discriminate; subst sg; try exact Hthr;
        destruct Hthr as (b' & Eb & Hb'); inversion Eb; subst; exact Hb'. }
    destruct (chain_lookup_loc _ _ _ _ (registry_chain _ _ _ _ Hr) Hin) as (i' & Hl & Hi').
    assert (i' = i) as -> by congruence.
    unfold entries. apply list_elem_of_fmap. exists (b, i). split; [|exact Hl].
    simpl. now rewrite Hn.
  - intros k t pc' s' Hk Hst.
    destruct (connect_step_inv _ _ _ _ _ _ _ _ _ Hr Hnd Hok Hk Hst)
      as (m1 & l1 & Hr1 & _ & _ & _ & Hchg).
    exists m1, l1. split; [exact Hr1|]. split.
    { intros Hno. destruct Hchg as [He | (b & last & Hpc)]; [exact He|].
      destruct (Hno _ _ Hpc). }
    intros b last Hpc.
    destruct (proj1 Hok _ _ Hk) as [Hthr Hm]. rewrite Hpc in Hm.
    pose proof (Hm eq_refl) as ->.
    unfold thread_inv in Hthr. rewrite Hpc in Hthr. destruct Hthr as (Hn & -> & Hb & Hfresh).
    destruct (link_node _ _ _ _ _ _ Hr Hb Hfresh eq_refl) as (s1 & Hl1 & Hr2 & _).
    unfold connect_step in Hst. rewrite Hpc in Hst. unfold step_of in Hst.
    rewrite Hl1 in Hst. inversion Hst; subst pc' s1.
    destruct (registry_functional _ _ _ _ _ _ Hr1 Hr2) as [-> ->].
    split; [exact Hb|].
    split; [eapply registry_handler_lock; eauto|].
    split; [eapply registry_handler_lock; eauto|].
    split; [exact Hn|]. split; [reflexivity|].
    rewrite entries_app, entries_set_last_next. reflexivity.
Qed.

(** X16.  Calls of [signal_handler_connect] that run at the same time, in
    any number and for any names, on a registry with one signal per name.
    Once a thread has made its registration (it is at the unlock of the
    lock of its signal), its pair is on the array of its name in the
    registry, and stays there in every state that the run reaches from
    then on, whatever the other threads do. *)
Theorem concurrent_registration_is_kept (handler : loc) (s0 : state)
    (l0 : list (loc * signal_info)) (ts0 : list thread)
    (s : state) (ts : list thread) (k : nat) (t : thread) (sig : ptr)
    (s' : state) (ts' : list thread) :
  registry s0 handler MutexUnlocked l0 ->
  NoDup (names l0) ->
  Forall (fun t => th_pc t = at_lock) ts0 ->
  rtc (sched_step (Some handler)) (s0, ts0) (s, ts) ->
  ts !! k = Some t ->
  th_pc t = at_unlock_sig sig ->
  rtc (sched_step (Some handler)) (s, ts) (s', ts') ->
  ∃ m l, registry s' handler m l ∧ NoDup (names l) ∧
         connected (th_callback t) (th_data t) (callbacks_of (th_signal t) l).
Proof.
  intros Hr0 Hnd0 Hall Hrun Hk Hpc Hrun'.
  assert (Hinv0 : concurrent_inv handler s0 ts0).
  { exists MutexUnlocked, l0. split; [exact Hr0|]. split; [exact Hnd0|].
    apply threads_ok_initial. exact Hall. }
  assert (Hreg0 : registered (heap s0) ts0).
  { rewrite Forall_lookup in Hall. intros j tj b Hj. rewrite (Hall _ _ Hj).
    split; discriminate. }
  destruct (registered_reachable _ _ _ Hrun Hinv0 Hreg0) as [Hinv Hreg].
  simpl in Hinv, Hreg. pose proof Hinv as (m & l & Hr & _ & Hok).
  destruct (proj1 Hok _ _ Hk) as [Hthr _]. unfold thread_inv in Hthr. rewrite Hpc in Hthr.
  destruct Hthr as (b & -> & Hb).
  destruct (Hreg _ _ b Hk) as [Htarget Hdone].
  destruct Htarget as (i & Hi & Hn); [rewrite Hpc; reflexivity|].
  destruct (Hdone Hpc) as (i0 & Hi0 & Hc). assert (i0 = i) as -> by congruence.
  destruct (signal_persists _ _ _ Hrun' Hinv m l b i Hr Hb Hi)
    as (m' & l' & i' & Hr' & Hnd' & Hb' & Hi' & Hn' & Hc').
  simpl in *. exists m', l'. split; [exact Hr'|]. split; [exact Hnd'|].
  rewrite <- Hn, <- Hn'. rewrite (callbacks_of_signal _ _ _ _ _ _ Hr' Hnd' Hb' Hi').
  apply Hc'. exact Hc.
Qed.


(** ** Concurrent calls: no deadlock *)

Lemma connect_step_cs handler t s pc' s' :
  connect_step handler t s = Next pc' s' ->
  in_cs pc' = match th_pc t with
              | at_lock => true
              | at_unlock _ | at_check None => false
              | pc => in_cs pc
              end.
Proof.
  unfold connect_step, step_of. intros Hstep.
  destruct (th_pc t) as [| |sg la|la|sg la|sg|sg|sg|sg|sg|];
    repeat case_match; inversion Hstep; subst; try discriminate; reflexivity.
Qed.

Lemma connect_step_holds_next handler t s pc' s' b :
  connect_step handler t s = Next pc' s' ->
  th_pc t = at_lock_sig (Some b) ∨ th_pc t = at_register (Some b) ->
  holds pc' = Some b.
Proof.
  unfold connect_step, step_of. intros Hstep [Hpc | Hpc]; rewrite Hpc in Hstep;
    repeat case_match; inversion Hstep; subst; try discriminate; reflexivity.
Qed.

(** The results of [pthread_mutex_init] still to come after a step, and
    the call that cannot fail if they are all zero. *)
Lemma connect_step_inits s handler m l t pc' s' :
  registry s handler m l -> thread_inv (heap s) l t ->
  connect_step (Some handler) t s = Next pc' s' ->
  inits_succeed s -> failed (th_pc t) = false ->
  inits_succeed s' ∧ failed pc' = false.
Proof.
  intros Hr Hinv Hstep Hok Hf.
  destruct Hr as (p & Hh & Hc).
  assert (Hr : registry s handler m l) by (exists p; auto).
  destruct t as [name cb d pc]. unfold connect_step, thread_inv in *. simpl in *.
  destruct pc as [| |sg la|la|sg la|sg|sg|sg|sg|sg|]; simpl in *.
  - unfold step_of in Hstep. rewrite (lock_handler_cases _ _ _ _ Hh) in Hstep.
    destruct m; try discriminate. inversion Hstep; subst; clear Hstep. auto.
  - unfold step_of in Hstep. rewrite (load_handler_eq _ _ _ Hh) in Hstep.
    inversion Hstep; subst; clear Hstep. auto.
  - destruct sg as [a|].
    + unfold step_of in Hstep. destruct (load_signal (Some a) s) eqn:E; try discriminate.
      assert (s0 = s) as -> by (unfold load_signal in E; repeat case_match; congruence).
      inversion Hstep; subst; clear Hstep. split; [exact Hok|]. case_match; reflexivity.
    + inversion Hstep; subst; clear Hstep. auto.
  - unfold step_of in Hstep. rewrite signal_info_create_eq in Hstep.
    rewrite (inits_succeed_next _ Hok) in Hstep. simpl in Hstep.
    inversion Hstep; subst; clear Hstep. split; [|reflexivity].
    eapply inits_succeed_tail; [|exact Hok]. reflexivity.
  - destruct Hinv as (Hn & -> & Hsg). unfold step_of in Hstep.
    destruct sg as [b|]; [|discriminate].
    destruct Hsg as [Hb Hfresh].
    destruct (link_node _ _ _ _ _ _ Hr Hb Hfresh eq_refl) as (s1 & Hl1 & _ & _ & _ & _ & Hres).
    rewrite Hl1 in Hstep. inversion Hstep; subst; clear Hstep.
    split; [|reflexivity]. unfold inits_succeed in *. now rewrite Hres.
  - destruct sg as [b|]; [|discriminate]. inversion Hstep; subst; clear Hstep. auto.
  - unfold step_of in Hstep. rewrite (unlock_handler_cases _ _ _ _ Hh) in Hstep.
    destruct m; try discriminate. inversion Hstep; subst; clear Hstep. auto.
  - destruct Hinv as (b & -> & Hb).
    destruct (chain_lookup_loc _ _ _ _ Hc Hb) as (ib & _ & Hib).
    unfold step_of in Hstep. rewrite (lock_signal_cases _ _ _ Hib) in Hstep.
    destruct (si_mutex ib) eqn:Em; try discriminate. inversion Hstep; subst; clear Hstep.
    auto.
  - destruct Hinv as (b & -> & Hb).
    destruct (chain_lookup_loc _ _ _ _ Hc Hb) as (ib & _ & Hib).
    unfold step_of, bind in Hstep.
    rewrite (signal_get_callback_idx_eq _ _ _ _ _ Hib) in Hstep.
    destruct (signal_get_callback_idx_from (si_callbacks ib) 0 cb d =? DARRAY_INVALID) eqn:E.
    + unfold da_push_back, bind in Hstep. rewrite (load_signal_eq _ _ _ Hib) in Hstep.
      rewrite (set_callbacks_eq _ _ _ _ Hib) in Hstep.
      inversion Hstep; subst; clear Hstep. auto.
    + inversion Hstep; subst; clear Hstep. auto.
  - destruct Hinv as (b & -> & Hb).
    destruct (chain_lookup_loc _ _ _ _ Hc Hb) as (ib & _ & Hib).
    unfold step_of in Hstep. rewrite (unlock_signal_cases _ _ _ Hib) in Hstep.
    destruct (si_mutex ib) eqn:Em; try discriminate. inversion Hstep; subst; clear Hstep.
    auto.
  - discriminate.
Qed.

(** A step keeps a thread for every held lock, if it is not the return of
    a call whose [signal_info_create] has failed. *)
Lemma lock_holders_step s handler m l ts k t pc' s' m' l' :
  registry s handler m l -> thread_inv (heap s) l t ->
  lock_holders m (heap s) (locs l) ts ->
  ts !! k = Some t -> failed (th_pc t) = false ->
  connect_step (Some handler) t s = Next pc' s' ->
  registry s' handler m' l' ->
  (∀ x, x ∈ locs l' -> x ∈ locs l ∨ ∃ last, th_pc t = at_link (Some x) last) ->
  lock_holders m' (heap s') (locs l') (<[k := set_pc t pc']> ts).
Proof.
  intros Hr Hinv [Hcs Hsig] Hk Hf Hstep Hr' Hlocs.
  assert (Hlt : (k < length ts)%nat) by (eapply lookup_lt_Some; eauto).
  assert (Hself : (<[k := set_pc t pc']> ts) !! k = Some (set_pc t pc'))
    by (apply list_lookup_insert_eq; exact Hlt).
  pose proof (connect_step_cs _ _ _ _ _ Hstep) as Hcs'.
  split.
  - intros Hm'.
    destruct (connect_step_handler _ _ _ _ _ _ _ Hr Hinv Hstep) as (p1 & Hh1).
    destruct Hr' as (p2 & Hh2 & _). rewrite Hh1 in Hh2. inversion Hh2 as [[Hp Hm]].
    rewrite Hm' in Hm.
    destruct (decide (in_cs pc' = true)) as [Hin | Hout].
    { exists k, (set_pc t pc'). split; [exact Hself | exact Hin]. }
    assert (Hmm : m = MutexLocked ∧ in_cs (th_pc t) = false).
    { destruct (th_pc t) as [| |sg la|la|sg la|sg|sg|sg|sg|sg|]; simpl in *;
        try discriminate; try congruence; auto.
      destruct sg; simpl in *; [congruence | discriminate]. }
    destruct Hmm as [Hml Hnot]. destruct (Hcs Hml) as (j & tj & Hj & Hjcs).
    assert (j ≠ k) by (intros ->; congruence).
    exists j, tj. rewrite list_lookup_insert_ne by congruence. auto.
  - intros x i' Hx Hi' Hlocked.
    destruct (Hlocs _ Hx) as [Hin | (last & Hpc)].
    + destruct (chain_lookup_loc _ _ _ _ (registry_chain _ _ _ _ Hr) Hin) as (i & _ & Hi).
      destruct (connect_step_nodes _ _ _ _ _ _ _ Hr Hinv Hstep _ _ Hi) as (i1 & Hi1 & _ & Hst).
      assert (i1 = i') as -> by congruence.
      assert (Hcases : th_pc t = at_lock_sig (Some x) ∨
                       (si_mutex i = MutexLocked ∧ th_pc t ≠ at_unlock_sig (Some x))).
      { destruct (th_pc t) as [| |sg la|la|sg la|sg|sg|sg|sg|sg|];
          try (right; split; [destruct Hst as [_ <-]; exact Hlocked | discriminate]).
        - destruct sg as [y|]; [|right; split; [destruct Hst as [_ <-]; exact Hlocked | discriminate]].
          destruct Hst as [_ Hst]. destruct (decide (y = x)) as [-> | Hne]; [now left|].
          right. split; [congruence | discriminate].
        - right. split; [|discriminate].
          destruct sg; [destruct Hst as [<- _] | destruct Hst as [_ <-]]; exact Hlocked.
        - destruct sg as [y|]; [|right; split; [destruct Hst as [_ <-]; exact Hlocked | discriminate]].
          destruct Hst as [_ Hst]. destruct (decide (y = x)) as [-> | Hne].
          + destruct Hst as [_ Hu]. congruence.
          + right. split; [congruence | congruence]. }
      destruct Hcases as [Hpc | [Hml Hnu]].
      * exists k, (set_pc t pc'). split; [exact Hself|]. simpl.
        eapply connect_step_holds_next; eauto.
      * destruct (Hsig _ _ Hin Hi Hml) as (j & tj & Hj & Hjb).
        destruct (decide (j = k)) as [-> | Hne].
        -- assert (tj = t) as -> by congruence.
           exists k, (set_pc t pc'). split; [exact Hself|]. simpl.
           eapply connect_step_holds_next; [exact Hstep|]. right.
           destruct (th_pc t); simpl in Hjb; try discriminate; congruence.
        -- exists j, tj. rewrite list_lookup_insert_ne by congruence. auto.
    + pose proof Hinv as Hnew. unfold thread_inv in Hnew. rewrite Hpc in Hnew.
      destruct Hnew as (_ & _ & Hc & _).
      destruct (connect_step_nodes _ _ _ _ _ _ _ Hr Hinv Hstep _ _ Hc) as (i1 & Hi1 & _ & Hst).
      rewrite Hpc in Hst. destruct Hst as [_ Hst]. simpl in Hst.
      assert (i1 = i') as -> by congruence. congruence.
Qed.


Lemma progress_inv_initial s handler l ts :
  registry s handler MutexUnlocked l -> quiescent l -> inits_succeed s ->
  Forall (fun t => th_pc t = at_lock) ts ->
  progress_inv handler s ts.
Proof.
  intros Hr Hq Hok Hall. rewrite Forall_lookup in Hall.
  split; [exact Hok|]. split.
  - intros k t Hk. rewrite (Hall _ _ Hk). reflexivity.
  - exists MutexUnlocked, l. split; [exact Hr|]. split; [discriminate|].
    intros x i Hx Hi Hm.
    destruct (chain_lookup_loc _ _ _ _ (registry_chain _ _ _ _ Hr) Hx) as (i' & Hin & Hi').
    assert (i' = i) as -> by congruence.
    unfold quiescent in Hq. rewrite Forall_forall in Hq. specialize (Hq _ Hin).
    simpl in Hq. congruence.
Qed.

Lemma quiescent_initialised l : quiescent l -> initialised l.
Proof.
  unfold quiescent, initialised. intros H. eapply Forall_impl; [exact H|].
  simpl. intros e ->. discriminate.
Qed.

Lemma progress_inv_step handler s ts s' ts' :
  connect_inv handler s ts -> progress_inv handler s ts ->
  sched_step (Some handler) (s, ts) (s', ts') ->
  progress_inv handler s' ts'.
Proof.
  intros (m & l & Hr & Hnd & Hm & Hok & _) (Hinits & Hnf & m0 & l0 & Hr0 & Hh) Hstep.
  destruct (registry_functional _ _ _ _ _ _ Hr0 Hr) as [-> ->].
  inversion Hstep as [s0 ts0 k t pc' s1 Hk Hst]; subst.
  destruct (proj1 Hok _ _ Hk) as [Hinv _].
  assert (Hlt : (k < length ts)%nat) by (eapply lookup_lt_Some; eauto).
  destruct (connect_step_locs _ _ _ _ _ _ _ _ _ Hr Hnd Hok Hk Hst)
    as (m' & l' & Hr' & _ & _ & _ & _ & Hnew).
  destruct (connect_step_inits _ _ _ _ _ _ _ Hr Hinv Hst Hinits (Hnf _ _ Hk)) as [Hinits' Hf'].
  split; [exact Hinits'|]. split.
  - intros j tj Hj. destruct (decide (j = k)) as [-> | Hne].
    + rewrite list_lookup_insert_eq in Hj by exact Hlt. inversion Hj; subst. exact Hf'.
    + rewrite list_lookup_insert_ne in Hj by congruence. eapply Hnf; eauto.
  - exists m', l'. split; [exact Hr'|].
    exact (lock_holders_step _ _ _ _ _ _ _ _ _ _ _ Hr Hinv Hh Hk (Hnf _ _ Hk) Hst Hr' Hnew).
Qed.

Lemma progress_inv_reachable handler c c' :
  rtc (sched_step (Some handler)) c c' ->
  connect_inv handler c.1 c.2 -> progress_inv handler c.1 c.2 ->
  connect_inv handler c'.1 c'.2 ∧ progress_inv handler c'.1 c'.2.
Proof.
  induction 1 as [c | c c1 c' Hstep _ IH]; intros Hinv Hp; [auto|].
  destruct c as [s ts], c1 as [s1 ts1]. apply IH.
  - eapply connect_inv_step; eauto.
  - eapply progress_inv_step; eauto.
Qed.

(** X17.  Calls of [signal_handler_connect] that run at the same time on a
    registry with one signal per name and all locks free, when every
    [pthread_mutex_init] succeeds.  No state that such a run reaches is a
    deadlock: as long as one of the calls has not returned, one of the
    threads can take its next step. *)
Theorem concurrent_connect_no_deadlock (handler : loc) (s0 : state)
    (l0 : list (loc * signal_info)) (ts0 : list thread)
    (s : state) (ts : list thread) (k : nat) (t : thread) :
  registry s0 handler MutexUnlocked l0 ->
  NoDup (names l0) ->
  quiescent l0 ->
  inits_succeed s0 ->
  Forall (fun t => th_pc t = at_lock) ts0 ->
  rtc (sched_step (Some handler)) (s0, ts0) (s, ts) ->
  ts !! k = Some t ->
  th_pc t ≠ returned ->
  ∃ k' t' pc' s', ts !! k' = Some t' ∧
                  connect_step (Some handler) t' s = Next pc' s'.
Proof.
  intros Hr0 Hnd0 Hq Hinits Hall Hrun Hk Hpc.
  destruct (progress_inv_reachable _ _ _ Hrun
              (connect_inv_initial _ _ _ _ Hr0 Hnd0 (quiescent_initialised _ Hq) Hall)
              (progress_inv_initial _ _ _ _ Hr0 Hq Hinits Hall)) as [Hinv Hp].
  simpl in *.
  destruct Hinv as (m & l & Hr & _ & Hm & Hok & Hlocks).
  destruct Hp as (_ & _ & m1 & l1 & Hr1 & Hcs & Hsig).
  destruct (registry_functional _ _ _ _ _ _ Hr1 Hr) as [-> ->].
  (* a thread that is not at a lock and has not returned takes its step *)
  assert (Hgo : ∀ j tj, ts !! j = Some tj ->
            th_pc tj ≠ returned -> th_pc tj ≠ at_lock ->
            (∀ b, th_pc tj ≠ at_lock_sig (Some b)) ->
            ∃ pc' s', connect_step (Some handler) tj s = Next pc' s').
  { intros j tj Hj Hnr Hnl Hns.
    pose proof (connect_step_result _ _ _ _ _ _ _ Hr Hm Hok Hlocks Hj) as Hres.
    destruct (connect_step (Some handler) tj s) as [pc' s'| | |]; [eauto | | |].
    - destruct Hres as [[Hl _] | (b & i & Hl & _)]; [congruence | destruct (Hns _ Hl)].
    - congruence.
    - destruct Hres. }
  pose proof (connect_step_result _ _ _ _ _ _ _ Hr Hm Hok Hlocks Hk) as Hres.
  destruct (connect_step (Some handler) t s) as [pc' s'| | |] eqn:Hstep.
  - exists k, t, pc', s'. auto.
  - destruct Hres as [[_ Hml] | (b & i & _ & Hb & Hi & Hmi)].
    + destruct (Hcs Hml) as (j & tj & Hj & Hin).
      destruct (Hgo j tj Hj) as (pc' & s' & Hst).
      * intros E. rewrite E in Hin. discriminate.
      * intros E. rewrite E in Hin. discriminate.
      * intros b E. rewrite E in Hin. discriminate.
      * exists j, tj, pc', s'. auto.
    + destruct (Hsig _ _ Hb Hi Hmi) as (j & tj & Hj & Hin).
      destruct (Hgo j tj Hj) as (pc' & s' & Hst).
      * intros E. rewrite E in Hin. discriminate.
      * intros E. rewrite E in Hin. discriminate.
      * intros b' E. rewrite E in Hin. discriminate.
      * exists j, tj, pc', s'. auto.
  - congruence.
  - destruct Hres.
Qed.


(** ** Concurrent calls: the length of the runs *)

Lemma total_insert f ts k t pc' :
  ts !! k = Some t ->
  (total f (<[k := set_pc t pc']> ts) + f (th_pc t) = total f ts + f pc')%nat.
Proof.
  unfold total. revert k. induction ts as [|t0 ts IH]; intros [|k] Hk; try discriminate.
  - inversion Hk; subst. simpl. lia.
  - simpl in *. specialize (IH _ Hk). lia.
Qed.

Lemma total_ext f g ts :
  (∀ k t, ts !! k = Some t -> f (th_pc t) = g (th_pc t)) -> total f ts = total g ts.
Proof.
  unfold total. induction ts as [|t0 ts IH]; intros H; [reflexivity|]. simpl.
  rewrite (H 0%nat t0 eq_refl). rewrite IH; [reflexivity|].
  intros k t Hk. apply (H (S k) t Hk).
Qed.

Lemma total_initial f ts :
  Forall (fun t => th_pc t = at_lock) ts -> total f ts = (length ts * f at_lock)%nat.
Proof.
  unfold total. induction 1 as [|t ts Ht _ IH]; [reflexivity|]. simpl.
  rewrite Ht, IH. reflexivity.
Qed.

Lemma nodes_from_le a ls : (nodes_from a ls <= length ls)%nat.
Proof.
  induction ls as [|x ls IH]; simpl; [lia|]. destruct (decide (x = a)); simpl; lia.
Qed.

Lemma nodes_from_first a l1 l2 :
  a ∉ l1 -> nodes_from a (l1 ++ a :: l2) = S (length l2).
Proof.
  induction l1 as [|x l1 IH]; intros Hn; simpl.
  - rewrite decide_True by reflexivity. reflexivity.
  - apply not_elem_of_cons in Hn as [Hx Hn]. rewrite decide_False by congruence. auto.
Qed.

(** The bound of a call after a step of the loop of [getsignal]. *)
Lemma steps_left_first K l1 l2 last :
  NoDup (locs (l1 ++ l2)) ->
  steps_left K (locs (l1 ++ l2)) (at_getsignal_loop (first_ptr l2) last) =
  (length l2 + 10)%nat.
Proof.
  intros Hnd. destruct l2 as [|[a i] l2]; [reflexivity|]. simpl.
  rewrite locs_app in *. simpl in *. apply NoDup_app in Hnd as (_ & Hdis & _).
  rewrite nodes_from_first; [unfold locs; now rewrite length_map|].
  intros Hin. apply (Hdis _ Hin). left.
Qed.

(** A step brings the thread that takes it nearer to its return. *)
Lemma steps_left_step K s handler m l t pc' s' :
  registry s handler m l -> thread_inv (heap s) l t -> (length l <= K)%nat ->
  connect_step (Some handler) t s = Next pc' s' ->
  (steps_left K (locs l) pc' < steps_left K (locs l) (th_pc t))%nat.
Proof.
  intros Hr Hinv HK Hstep.
  pose proof (chain_NoDup _ _ _ (registry_chain _ _ _ _ Hr)) as Hnd.
  pose proof (registry_lookup _ _ _ _ Hr) as Hh.
  destruct t as [name cb d pc]. unfold connect_step, thread_inv in *. simpl in *.
  destruct pc as [| |sg la|la|sg la|sg|sg|sg|sg|sg|]; simpl in *;
    try (unfold step_of in Hstep; repeat case_match; inversion Hstep; subst; simpl; lia).
  - unfold step_of in Hstep. rewrite (load_handler_eq _ _ _ Hh) in Hstep.
    inversion Hstep; subst; clear Hstep.
    pose proof (steps_left_first K [] l NULL Hnd) as E. simpl in E |- *. rewrite E. lia.
  - destruct Hinv as (l1 & l2 & -> & Hn & -> & ->).
    destruct l2 as [|[a i] l2]; simpl in Hstep.
    + inversion Hstep; subst; clear Hstep. simpl. lia.
    + unfold step_of in Hstep.
      rewrite (load_signal_eq _ _ _ (registry_node _ _ _ _ _ _ _ Hr)) in Hstep.
      inversion Hstep; subst; clear Hstep.
      pose proof (steps_left_first K l1 ((a, i) :: l2) NULL Hnd) as E1.
      assert (E2 : steps_left K (locs (l1 ++ (a, i) :: l2))
                     (at_getsignal_loop (first_ptr l2) (Some a)) = (length l2 + 10)%nat).
      { replace (l1 ++ (a, i) :: l2) with ((l1 ++ [(a, i)]) ++ l2) in *
          by now rewrite <- app_assoc.
        apply steps_left_first. exact Hnd. }
      pose proof (chain_suffix _ _ _ _ (registry_chain _ _ _ _ Hr)) as Hs. simpl in Hs.
      destruct Hs as (_ & _ & Hs). apply chain_first in Hs. rewrite <- Hs in E2.
      destruct (strcmp (si_name i) name =? 0); simpl in *; lia.
Qed.

Lemma links_left_step handler t s pc' s' :
  connect_step handler t s = Next pc' s' ->
  (links_left pc' <= links_left (th_pc t))%nat ∧
  (∀ c last, th_pc t = at_link c last -> pc' = at_check c).
Proof.
  unfold connect_step, step_of. intros Hstep.
  destruct (th_pc t) as [| |sg la|la|sg la|sg|sg|sg|sg|sg|];
    repeat case_match; inversion Hstep; subst; simpl;
    (split; [lia | intros c last E; inversion E; subst; reflexivity]).
Qed.

(** The invariant of the runs after a step, with the nodes of the registry
    after it. *)
Lemma connect_step_grow s handler m l ts k t pc' s' :
  registry s handler m l -> NoDup (names l) -> threads_ok (heap s) m l ts ->
  ts !! k = Some t ->
  connect_step (Some handler) t s = Next pc' s' ->
  ∃ m' l',
    registry s' handler m' l' ∧ NoDup (names l') ∧
    threads_ok (heap s') m' l' (<[k := set_pc t pc']> ts) ∧
    (locs l' = locs l ∨
     ∃ c last, th_pc t = at_link (Some c) last ∧ locs l' = locs l ++ [c]).
Proof.
  intros Hr Hnd Hok Hk Hstep.
  destruct (proj1 Hok _ _ Hk) as [Hinv _].
  destruct (connect_step_inv _ _ _ _ _ _ _ _ _ Hr Hnd Hok Hk Hstep)
    as (m' & l' & Hr' & Hnd' & Hok' & Hpre & Hchg).
  exists m', l'. split; [exact Hr'|]. split; [exact Hnd'|]. split; [exact Hok'|].
  destruct Hchg as [He | (c & last & Hpc)].
  - destruct (entries_same _ _ He) as (_ & Hl & _). now left.
  - right. exists c, last. split; [exact Hpc|].
    unfold thread_inv in Hinv. unfold connect_step in Hstep. rewrite Hpc in Hinv, Hstep.
    destruct Hinv as (Hn & -> & Hc & Hfresh).
    destruct (link_node _ _ _ _ _ _ Hr Hc Hfresh eq_refl) as (s1 & Hl1 & Hr1 & _).
    unfold step_of in Hstep. rewrite Hl1 in Hstep. inversion Hstep; subst.
    destruct (registry_functional _ _ _ _ _ _ Hr' Hr1) as [_ ->].
    now rewrite locs_app, locs_set_last_next.
Qed.

(** A step of a run: the registry stays within its bound, and the sum of
    the bounds of the threads goes down. *)
Lemma run_step_measure K s handler m l ts k t pc' s' :
  registry s handler m l -> NoDup (names l) -> threads_ok (heap s) m l ts ->
  (length l + total links_left ts <= K)%nat ->
  ts !! k = Some t ->
  connect_step (Some handler) t s = Next pc' s' ->
  ∃ m' l',
    registry s' handler m' l' ∧ NoDup (names l') ∧
    threads_ok (heap s') m' l' (<[k := set_pc t pc']> ts) ∧
    (length l' + total links_left (<[k := set_pc t pc']> ts) <= K)%nat ∧
    (total (steps_left K (locs l')) (<[k := set_pc t pc']> ts) <
     total (steps_left K (locs l)) ts)%nat.
Proof.
  intros Hr Hnd Hok HK Hk Hstep.
  destruct (proj1 Hok _ _ Hk) as [Hinv _].
  assert (Hlt : (k < length ts)%nat) by (eapply lookup_lt_Some; eauto).
  destruct (connect_step_grow _ _ _ _ _ _ _ _ _ Hr Hnd Hok Hk Hstep)
    as (m' & l' & Hr' & Hnd' & Hok' & Hlocs).
  exists m', l'. split; [exact Hr'|]. split; [exact Hnd'|]. split; [exact Hok'|].
  pose proof (total_insert links_left ts k t pc' Hk) as Hlinks.
  pose proof (total_insert (steps_left K (locs l)) ts k t pc' Hk) as Hsteps.
  destruct (links_left_step _ _ _ _ _ Hstep) as [Hle Hcheck].
  assert (Hdec : (steps_left K (locs l) pc' < steps_left K (locs l) (th_pc t))%nat).
  { eapply steps_left_step; eauto. lia. }
  assert (Hlen : ∀ l0 : list (loc * signal_info), length (locs l0) = length l0)
    by (intros l0; unfold locs; apply length_map).
  destruct Hlocs as [Hl | (c & last & Hpc & Hl)].
  - rewrite Hl. split; [|lia]. rewrite <- (Hlen l'), Hl, Hlen. lia.
  - specialize (Hcheck _ _ Hpc). subst pc'. rewrite Hpc in *. simpl in *. split.
    + rewrite <- (Hlen l'), Hl, length_app, Hlen. simpl. lia.
    + rewrite (total_ext (steps_left K (locs l')) (steps_left K (locs l))); [lia|].
      intros j tj Hj. destruct (decide (j = k)) as [-> | Hne].
      * rewrite list_lookup_insert_eq in Hj by exact Hlt. inversion Hj; subst. reflexivity.
      * rewrite list_lookup_insert_ne in Hj by congruence.
        destruct (th_pc tj) as [| |sg' la'|la'|sg' la'|sg'|sg'|sg'|sg'|sg'|] eqn:Hpcj;
          try reflexivity.
        exfalso. apply Hne. apply (proj2 Hok j k tj t Hj Hk).
        -- rewrite Hpcj. reflexivity.
        -- rewrite Hpc. reflexivity.
Qed.

Lemma run_length_nsteps handler sched c :
  nsteps (sched_step handler) (run_length handler sched c) c (run_schedule handler sched c).
Proof.
  revert c. induction sched as [|k sched IH]; intros [s ts]; simpl; [constructor|].
  destruct (ts !! k) as [t|] eqn:Hk; [|apply IH].
  destruct (connect_step handler t s) as [pc' s'| | |] eqn:Hs; try apply IH.
  eapply nsteps_l; [|apply IH]. now constructor.
Qed.

(** X18.  Calls of [signal_handler_connect] that run at the same time, in
    any number and for any names, on a registry with one signal per name.
    Every run is finite: the threads take no more steps than their number
    times a bound for one call, which is the nodes that the registry can
    come to have (those at the start and one for each call) and twelve
    more statements.  In particular the loop of [getsignal] ends in every
    call. *)
Theorem concurrent_connect_terminates (handler : loc) (s0 : state)
    (l0 : list (loc * signal_info)) (ts0 : list thread)
    (n : nat) (s : state) (ts : list thread) :
  registry s0 handler MutexUnlocked l0 ->
  NoDup (names l0) ->
  Forall (fun t => th_pc t = at_lock) ts0 ->
  nsteps (sched_step (Some handler)) n (s0, ts0) (s, ts) ->
  (n <= length ts0 * (length l0 + length ts0 + 12))%nat.
Proof.
  intros Hr0 Hnd0 Hall Hrun.
  set (K := (length l0 + length ts0)%nat).
  assert (Hgen : ∀ n c c', nsteps (sched_step (Some handler)) n c c' ->
            ∀ m l, registry c.1 handler m l -> NoDup (names l) ->
              threads_ok (heap c.1) m l c.2 ->
              (length l + total links_left c.2 <= K)%nat ->
              (n <= total (steps_left K (locs l)) c.2)%nat).
  { clear. induction 1 as [c | n c c1 c' Hstep _ IH]; intros m l Hr Hnd Hok HK; [lia|].
    destruct Hstep as [s ts k t pc' s' Hk Hst]. simpl in *.
    destruct (run_step_measure K _ _ _ _ _ _ _ _ _ Hr Hnd Hok HK Hk Hst)
      as (m' & l' & Hr' & Hnd' & Hok' & HK' & Hdec).
    specialize (IH _ _ Hr' Hnd' Hok' HK'). lia. }
  specialize (Hgen _ _ _ Hrun MutexUnlocked l0 Hr0 Hnd0 (threads_ok_initial _ _ _ Hall)).
  simpl in Hgen. rewrite !(total_initial _ _ Hall) in Hgen. simpl in Hgen.
  unfold K in Hgen. specialize (Hgen ltac:(lia)). lia.
Qed.

End Signal.


(** * The theorems at work

    [DARRAY_INVALID] is [(size_t)-1] in util/darray.h; the examples take a
    [size_t] of 64 bits. *)

Ltac solve_registry :=
  eexists; split; [reflexivity | simpl; repeat split; reflexivity].

(** The scenario of the specification: [f(P, 1)] and [f(P, 2)] on the first
    emission, in that order, [f(P, 2)] alone on the second, and nothing is
    left in the heap after the destruction. *)
Example scenario_calls :
  scenario 18446744073709551615 (mk_state ∅ [] [] []) =
  Ret tt (mk_state ∅ [] [] [mk_call f P 1; mk_call f P 2; mk_call f P 2]).
Proof. vm_compute. reflexivity. Qed.

(** At the end of the interleaved run of the two threads both calls have
    returned and there is one signal ["changed"], with both pairs on it. *)
Example interleaving_end :
  run_schedule 18446744073709551615 (Some 1%positive) interleaving
    (empty_registry, two_threads) =
  (one_signal, [mk_thread "changed" f 1 returned; mk_thread "changed" f 2 returned]).
Proof. vm_compute. reflexivity. Qed.

Lemma unknown_signal_is_noop_witness :
  registry one_signal 1%positive MutexUnlocked [(2%positive, changed)] ∧
  ("other"%string ∉ names [(2%positive, changed)]) ∧
  signal_handler_disconnect 18446744073709551615 (Some 1%positive) "other" f 1 one_signal
    = Ret tt one_signal ∧
  signal_handler_signal (Some 1%positive) "other" P one_signal = Ret tt one_signal.
Proof.
  assert (Hr : registry one_signal 1%positive MutexUnlocked [(2%positive, changed)])
    by solve_registry.
  assert (Hn : "other"%string ∉ names [(2%positive, changed)]) by compute_done.
  split; [exact Hr|]. split; [exact Hn|].
  exact (unknown_signal_is_noop 18446744073709551615 one_signal 1%positive
           [(2%positive, changed)] "other" f 1 P Hr Hn).
Defined.

Lemma signal_invokes_callbacks_in_order_witness :
  registry one_signal 1%positive MutexUnlocked ([] ++ (2%positive, changed) :: []) ∧
  signal_handler_signal (Some 1%positive) "changed" P one_signal =
    Ret tt (add_calls [mk_call f P 1; mk_call f P 2] one_signal).
Proof.
  assert (Hr : registry one_signal 1%positive MutexUnlocked ([] ++ (2%positive, changed) :: []))
    by solve_registry.
  split; [exact Hr|].
  exact (proj1 (signal_invokes_callbacks_in_order 18446744073709551615 one_signal 1%positive
                  [] [] 2%positive changed "changed" P Hr
                  (not_elem_of_nil _) eq_refl eq_refl)).
Defined.

Lemma disconnect_removes_one_witness :
  registry one_signal 1%positive MutexUnlocked ([] ++ (2%positive, changed) :: []) ∧
  darray_ok 18446744073709551615 (si_callbacks changed) ∧
  connected f 1 (si_callbacks changed) ∧
  ∃ c1 c2,
    si_callbacks changed = c1 ++ mk_signal_callback f 1 :: c2 ∧
    (mk_signal_callback f 1 ∉ c1) ∧
    signal_handler_disconnect 18446744073709551615 (Some 1%positive) "changed" f 1 one_signal =
      Ret tt (set_heap (insert 2%positive (OSignal (with_callbacks changed (c1 ++ c2))))
                one_signal).
Proof.
  assert (Hr : registry one_signal 1%positive MutexUnlocked ([] ++ (2%positive, changed) :: []))
    by solve_registry.
  assert (Hok : darray_ok 18446744073709551615 (si_callbacks changed))
    by (unfold darray_ok; simpl; lia).
  assert (Hin : connected f 1 (si_callbacks changed)) by (unfold connected; simpl; left).
  split; [exact Hr|]. split; [exact Hok|]. split; [exact Hin|].
  exact (proj1 (disconnect_removes_one 18446744073709551615 one_signal 1%positive
                  [] [] 2%positive changed "changed" f 1 Hr
                  (not_elem_of_nil _) eq_refl eq_refl Hok) Hin).
Defined.

Lemma connect_is_idempotent_witness :
  registry one_signal 1%positive MutexUnlocked [(2%positive, changed)] ∧
  quiescent [(2%positive, changed)] ∧
  darray_ok 18446744073709551615 (callbacks_of "changed" [(2%positive, changed)]) ∧
  connected f 1 (callbacks_of "changed" [(2%positive, changed)]) ∧
  signal_handler_connect 18446744073709551615 (Some 1%positive) "changed" f 1 one_signal =
    Ret tt one_signal.
Proof.
  assert (Hr : registry one_signal 1%positive MutexUnlocked [(2%positive, changed)])
    by solve_registry.
  assert (Hq : quiescent [(2%positive, changed)]) by (repeat constructor).
  assert (Hok : darray_ok 18446744073709551615
                  (callbacks_of "changed" [(2%positive, changed)]))
    by (unfold darray_ok; simpl; lia).
  assert (Hin : connected f 1 (callbacks_of "changed" [(2%positive, changed)]))
    by (unfold connected; simpl; left).
  split; [exact Hr|]. split; [exact Hq|]. split; [exact Hok|]. split; [exact Hin|].
  exact (proj1 (connect_is_idempotent 18446744073709551615 one_signal 1%positive
                  [(2%positive, changed)] "changed" f 1 Hr Hq) Hok Hin).
Defined.

(** The failing input of C1: a first connect on the name when
    [pthread_mutex_init] fails.  The call returns, the registry lock is
    held, and the next call on the registry never returns. *)
Lemma connect_lock_on_return_witness :
  registry empty_registry_failing 1%positive MutexUnlocked [] ∧
  quiescent [] ∧
  ∃ s',
    signal_handler_connect 18446744073709551615 (Some 1%positive) "changed" f 1
      empty_registry_failing = Ret tt s' ∧
    handler_lock s' 1%positive = Some MutexLocked ∧
    signal_handler_signal (Some 1%positive) "changed" P s' = Blocks s'.
Proof.
  assert (Hr : registry empty_registry_failing 1%positive MutexUnlocked [])
    by solve_registry.
  assert (Hq : quiescent []) by constructor.
  split; [exact Hr|]. split; [exact Hq|].
  destruct (connect_lock_on_return 18446744073709551615 empty_registry_failing 1%positive
              [] "changed" f 1 Hr Hq) as (s' & Hc & Hl & Hb).
  exists s'. split; [exact Hc|]. split; [exact Hl|].
  assert (Hne : next_init_result empty_registry_failing ≠ 0) by (vm_compute; discriminate).
  exact (proj2 (proj2 (proj2 (Hb (not_elem_of_nil _) Hne) "changed"%string f 1 P))).
Defined.

Lemma failed_connect_keeps_entries_witness :
  registry one_signal_failing 1%positive MutexUnlocked [(2%positive, changed)] ∧
  ("other"%string ∉ names [(2%positive, changed)]) ∧
  next_init_result one_signal_failing ≠ 0 ∧
  ∃ s',
    signal_handler_connect 18446744073709551615 (Some 1%positive) "other" f 1
      one_signal_failing = Ret tt s' ∧
    registry s' 1%positive MutexLocked [(2%positive, changed)] ∧
    handler_lock one_signal_failing 1%positive = Some MutexUnlocked ∧
    handler_lock s' 1%positive = Some MutexLocked.
Proof.
  assert (Hr : registry one_signal_failing 1%positive MutexUnlocked [(2%positive, changed)])
    by solve_registry.
  assert (Hn : "other"%string ∉ names [(2%positive, changed)]) by compute_done.
  assert (Hne : next_init_result one_signal_failing ≠ 0) by (vm_compute; discriminate).
  split; [exact Hr|]. split; [exact Hn|]. split; [exact Hne|].
  destruct (failed_connect_keeps_entries 18446744073709551615 one_signal_failing 1%positive
              [(2%positive, changed)] "other" f 1 Hr Hn Hne)
    as [(s' & Hc & Hr' & Hl & Hl' & _) _].
  exists s'. split; [exact Hc|]. split; [exact Hr'|]. split; [exact Hl | exact Hl'].
Defined.

Lemma entries_append_only_witness :
  registry one_signal 1%positive MutexUnlocked [(2%positive, changed)] ∧
  quiescent [(2%positive, changed)] ∧
  ∃ s' m' l',
    (run_operations 18446744073709551615 (Some 1%positive)
       [Connect "other" f 1; Signal "changed" P; Disconnect "changed" f 1] one_signal
       = Ret tt s' ∨
     run_operations 18446744073709551615 (Some 1%positive)
       [Connect "other" f 1; Signal "changed" P; Disconnect "changed" f 1] one_signal
       = Blocks s') ∧
    registry s' 1%positive m' l' ∧
    entries [(2%positive, changed)] `prefix_of` entries l'.
Proof.
  assert (Hr : registry one_signal 1%positive MutexUnlocked [(2%positive, changed)])
    by solve_registry.
  assert (Hq : quiescent [(2%positive, changed)]) by (repeat constructor).
  assert (Hm : MutexUnlocked ≠ MutexUninit) by discriminate.
  split; [exact Hr|]. split; [exact Hq|].
  destruct (entries_append_only 18446744073709551615 one_signal 1%positive MutexUnlocked
              [(2%positive, changed)]
              [Connect "other" f 1; Signal "changed" P; Disconnect "changed" f 1]
              Hr Hm Hq) as [(s' & m' & l' & Hrun & Hr' & Hpre & _) _].
  exists s', m', l'. split; [exact Hrun|]. split; [exact Hr' | exact Hpre].
Defined.

(** The two threads after seven steps: the first is about to link its new
    node, the second waits at the lock. *)
Lemma concurrent_connect_one_entry_per_name_witness :
  let c := run_schedule 18446744073709551615 (Some 1%positive) (take 7 interleaving)
             (empty_registry, two_threads) in
  let c' := run_schedule 18446744073709551615 (Some 1%positive) (take 9 interleaving)
              (empty_registry, two_threads) in
  let t := mk_thread "changed" f 1 (at_link (Some 2%positive) NULL) in
  registry empty_registry 1%positive MutexUnlocked [] ∧
  Forall (fun t => th_pc t = at_lock) two_threads ∧
  rtc (sched_step 18446744073709551615 (Some 1%positive))
      (empty_registry, two_threads) (fst c, snd c) ∧
  snd c !! 0%nat = Some t ∧
  connect_step 18446744073709551615 (Some 1%positive) t (fst c) =
    Next (at_check (Some 2%positive)) (fst c') ∧
  handler_lock (fst c) 1%positive = Some MutexLocked ∧
  ∃ m l, registry (fst c) 1%positive m l ∧ NoDup (names l) ∧
    ∃ m' l', registry (fst c') 1%positive m' l' ∧
      heap (fst c) !! 2%positive = Some (OSignal (new_signal "changed")) ∧
      handler_lock (fst c') 1%positive = Some MutexLocked ∧
      ("changed"%string ∉ names l) ∧
      entries l' = entries l ++ [(2%positive, "changed"%string)].
Proof.
  intros c c' t.
  assert (Hr : registry empty_registry 1%positive MutexUnlocked []) by solve_registry.
  assert (Hall : Forall (fun t => th_pc t = at_lock) two_threads) by (repeat constructor).
  assert (Hrun : rtc (sched_step 18446744073709551615 (Some 1%positive))
                     (empty_registry, two_threads) (fst c, snd c)).
  { rewrite <- surjective_pairing. apply run_schedule_rtc. }
  assert (Hk : snd c !! 0%nat = Some t) by (vm_compute; reflexivity).
  assert (Hst : connect_step 18446744073709551615 (Some 1%positive) t (fst c) =
                Next (at_check (Some 2%positive)) (fst c')) by (vm_compute; reflexivity).
  split; [exact Hr|]. split; [exact Hall|]. split; [exact Hrun|]. split; [exact Hk|].
  split; [exact Hst|].
  destruct (concurrent_connect_one_entry_per_name 18446744073709551615 1%positive
              empty_registry [] two_threads (fst c) (snd c) Hr (NoDup_nil_2 (A:=string)) Hall Hrun)
    as (m & l & Hr' & Hnd & _ & Hcs & _ & Hstep).
  split; [exact (proj1 (Hcs 0%nat _ Hk eq_refl))|].
  exists m, l. split; [exact Hr'|]. split; [exact Hnd|].
  destruct (Hstep 0%nat t _ _ Hk Hst) as (m' & l' & Hr1 & _ & Hlink).
  destruct (Hlink 2%positive NULL eq_refl) as (Hb & _ & Hl' & Hn & _ & He).
  exists m', l'. split; [exact Hr1|]. split; [exact Hb|]. split; [exact Hl'|].
  split; [exact Hn | exact He].
Defined.

(** ** The further properties at work *)

Lemma signal_get_callback_idx_first_witness :
  heap one_signal !! 2%positive = Some (OSignal changed) ∧
  ∃ idx,
    signal_get_callback_idx 18446744073709551615 (Some 2%positive) f 2 one_signal
      = Ret idx one_signal ∧
    ((¬ connected f 2 (si_callbacks changed) ∧ idx = 18446744073709551615) ∨
     (∃ k, idx = Z.of_nat k ∧
           si_callbacks changed !! k = Some (mk_signal_callback f 2) ∧
           ∀ j, (j < k)%nat -> si_callbacks changed !! j ≠ Some (mk_signal_callback f 2))).
Proof.
  assert (Ha : heap one_signal !! 2%positive = Some (OSignal changed)) by reflexivity.
  split; [exact Ha|].
  exact (signal_get_callback_idx_first 18446744073709551615 one_signal 2%positive changed
           f 2 Ha).
Defined.

Lemma getsignal_first_witness :
  registry one_signal 1%positive MutexUnlocked [(2%positive, changed)] ∧
  ("other"%string ∉ names [(2%positive, changed)]) ∧
  getsignal (Some 1%positive) "other" one_signal = Ret (NULL, Some 2%positive) one_signal ∧
  getsignal (Some 1%positive) "changed" one_signal = Ret (Some 2%positive, NULL) one_signal.
Proof.
  assert (Hr : registry one_signal 1%positive MutexUnlocked [(2%positive, changed)])
    by solve_registry.
  assert (Hn : "other"%string ∉ names [(2%positive, changed)]) by compute_done.
  split; [exact Hr|]. split; [exact Hn|].
  destruct (getsignal_first one_signal 1%positive MutexUnlocked [(2%positive, changed)]
              "other" Hr) as [Habs _].
  destruct (getsignal_first one_signal 1%positive MutexUnlocked [(2%positive, changed)]
              "changed" Hr) as [_ Hfound].
  split; [exact (Habs Hn)|].
  exact (proj1 (Hfound [] 2%positive changed [] eq_refl (not_elem_of_nil _) eq_refl)).
Defined.

Lemma connect_effect_witness :
  registry one_signal 1%positive MutexUnlocked [(2%positive, changed)] ∧
  quiescent [(2%positive, changed)] ∧
  ("other"%string ∈ names [(2%positive, changed)] ∨ next_init_result one_signal = 0) ∧
  ∃ s' l',
    signal_handler_connect 18446744073709551615 (Some 1%positive) "other" f 1 one_signal
      = Ret tt s' ∧
    registry s' 1%positive MutexUnlocked l' ∧
    callbacks_of "changed" l' = si_callbacks changed.
Proof.
  assert (Hr : registry one_signal 1%positive MutexUnlocked [(2%positive, changed)])
    by solve_registry.
  assert (Hq : quiescent [(2%positive, changed)]) by (repeat constructor).
  assert (Hor : "other"%string ∈ names [(2%positive, changed)] ∨
                next_init_result one_signal = 0) by (right; reflexivity).
  split; [exact Hr|]. split; [exact Hq|]. split; [exact Hor|].
  destruct (connect_effect 18446744073709551615 one_signal 1%positive [(2%positive, changed)]
              "other" f 1 Hr Hq Hor) as (s' & l' & Hc & Hr' & _ & Harr & _).
  exists s', l'. split; [exact Hc|]. split; [exact Hr'|].
  exact (Harr "changed"%string).
Defined.

Lemma disconnect_effect_witness :
  registry one_signal 1%positive MutexUnlocked [(2%positive, changed)] ∧
  quiescent [(2%positive, changed)] ∧
  ∃ s' l',
    signal_handler_disconnect 18446744073709551615 (Some 1%positive) "changed" f 1 one_signal
      = Ret tt s' ∧
    registry s' 1%positive MutexUnlocked l' ∧
    entries l' = entries [(2%positive, changed)].
Proof.
  assert (Hr : registry one_signal 1%positive MutexUnlocked [(2%positive, changed)])
    by solve_registry.
  assert (Hq : quiescent [(2%positive, changed)]) by (repeat constructor).
  split; [exact Hr|]. split; [exact Hq|].
  destruct (disconnect_effect 18446744073709551615 one_signal 1%positive
              [(2%positive, changed)] "changed" f 1 Hr Hq)
    as (s' & l' & Hd & Hr' & _ & _ & He & _).
  exists s', l'. split; [exact Hd|]. split; [exact Hr' | exact He].
Defined.

Lemma connected_callback_is_invoked_witness :
  registry empty_registry 1%positive MutexUnlocked [] ∧
  quiescent [] ∧
  ("changed"%string ∈ names [] ∨ next_init_result empty_registry = 0) ∧
  ∃ s' new,
    (signal_handler_connect 18446744073709551615 (Some 1%positive) "changed" f 1 ;;
     signal_handler_signal (Some 1%positive) "changed" P) empty_registry = Ret tt s' ∧
    calls s' = calls empty_registry ++ new ∧
    mk_call f P 1 ∈ new.
Proof.
  assert (Hr : registry empty_registry 1%positive MutexUnlocked []) by solve_registry.
  assert (Hq : quiescent []) by constructor.
  assert (Hor : "changed"%string ∈ names [] ∨ next_init_result empty_registry = 0)
    by (right; reflexivity).
  split; [exact Hr|]. split; [exact Hq|]. split; [exact Hor|].
  exact (connected_callback_is_invoked 18446744073709551615 empty_registry 1%positive []
           "changed" f 1 P Hr Hq Hor).
Defined.

Lemma disconnected_callback_is_not_invoked_witness :
  registry one_signal 1%positive MutexUnlocked [(2%positive, changed)] ∧
  quiescent [(2%positive, changed)] ∧
  darray_ok 18446744073709551615 (callbacks_of "changed" [(2%positive, changed)]) ∧
  NoDup (callbacks_of "changed" [(2%positive, changed)]) ∧
  ∃ s' new,
    (signal_handler_disconnect 18446744073709551615 (Some 1%positive) "changed" f 1 ;;
     signal_handler_signal (Some 1%positive) "changed" P) one_signal = Ret tt s' ∧
    calls s' = calls one_signal ++ new ∧
    (mk_call f P 1 ∉ new) ∧
    mk_call f P 2 ∈ new.
Proof.
  assert (Hr : registry one_signal 1%positive MutexUnlocked [(2%positive, changed)])
    by solve_registry.
  assert (Hq : quiescent [(2%positive, changed)]) by (repeat constructor).
  assert (Hok : darray_ok 18446744073709551615
                  (callbacks_of "changed" [(2%positive, changed)]))
    by (unfold darray_ok; simpl; lia).
  assert (Hnd : NoDup (callbacks_of "changed" [(2%positive, changed)])) by compute_done.
  split; [exact Hr|]. split; [exact Hq|]. split; [exact Hok|]. split; [exact Hnd|].
  destruct (disconnected_callback_is_not_invoked 18446744073709551615 one_signal 1%positive
              [(2%positive, changed)] "changed" f 1 P Hr Hq Hok Hnd)
    as (s' & new & Hrun & Hcalls & Hgone & Hkept).
  exists s', new. split; [exact Hrun|]. split; [exact Hcalls|]. split; [exact Hgone|].
  apply (Hkept (mk_signal_callback f 2)); [simpl; right; left | discriminate].
Defined.

Lemma connect_disconnect_restores_witness :
  registry one_signal 1%positive MutexUnlocked ([] ++ (2%positive, changed) :: []) ∧
  ¬ connected f 3 (si_callbacks changed) ∧
  darray_ok 18446744073709551615 (si_callbacks changed ++ [mk_signal_callback f 3]) ∧
  (signal_handler_connect 18446744073709551615 (Some 1%positive) "changed" f 3 ;;
   signal_handler_disconnect 18446744073709551615 (Some 1%positive) "changed" f 3) one_signal
  = Ret tt one_signal.
Proof.
  assert (Hr : registry one_signal 1%positive MutexUnlocked ([] ++ (2%positive, changed) :: []))
    by solve_registry.
  assert (Hnc : ¬ connected f 3 (si_callbacks changed)) by (unfold connected; compute_done).
  assert (Hok : darray_ok 18446744073709551615
                  (si_callbacks changed ++ [mk_signal_callback f 3]))
    by (unfold darray_ok; simpl; lia).
  split; [exact Hr|]. split; [exact Hnc|]. split; [exact Hok|].
  exact (connect_disconnect_restores 18446744073709551615 one_signal 1%positive [] []
           2%positive changed "changed" f 3 Hr (not_elem_of_nil _) eq_refl eq_refl Hnc Hok).
Defined.

Lemma reconnect_moves_to_end_witness :
  registry one_signal 1%positive MutexUnlocked ([] ++ (2%positive, changed) :: []) ∧
  si_callbacks changed = [] ++ mk_signal_callback f 1 :: [mk_signal_callback f 2] ∧
  ¬ connected f 1 ([] ++ [mk_signal_callback f 2]) ∧
  darray_ok 18446744073709551615 (si_callbacks changed) ∧
  (signal_handler_disconnect 18446744073709551615 (Some 1%positive) "changed" f 1 ;;
   signal_handler_connect 18446744073709551615 (Some 1%positive) "changed" f 1) one_signal
  = Ret tt (set_heap (insert 2%positive (OSignal (with_callbacks changed
              ([] ++ [mk_signal_callback f 2] ++ [mk_signal_callback f 1])))) one_signal).
Proof.
  assert (Hr : registry one_signal 1%positive MutexUnlocked ([] ++ (2%positive, changed) :: []))
    by solve_registry.
  assert (Harr : si_callbacks changed = [] ++ mk_signal_callback f 1 :: [mk_signal_callback f 2])
    by reflexivity.
  assert (Hnc : ¬ connected f 1 ([] ++ [mk_signal_callback f 2]))
    by (unfold connected; compute_done).
  assert (Hok : darray_ok 18446744073709551615 (si_callbacks changed))
    by (unfold darray_ok; simpl; lia).
  split; [exact Hr|]. split; [exact Harr|]. split; [exact Hnc|]. split; [exact Hok|].
  exact (reconnect_moves_to_end 18446744073709551615 one_signal 1%positive [] []
           2%positive changed "changed" f 1 [] [mk_signal_callback f 2]
           Hr (not_elem_of_nil _) eq_refl eq_refl Harr Hnc Hok).
Defined.

Lemma held_signal_lock_blocks_witness :
  registry one_signal_held 1%positive MutexUnlocked ([] ++ (2%positive, changed_held) :: []) ∧
  si_mutex changed_held = MutexLocked ∧
  signal_handler_connect 18446744073709551615 (Some 1%positive) "changed" f 3 one_signal_held
    = Blocks one_signal_held ∧
  signal_handler_signal (Some 1%positive) "changed" P one_signal_held
    = Blocks one_signal_held.
Proof.
  assert (Hr : registry one_signal_held 1%positive MutexUnlocked
                 ([] ++ (2%positive, changed_held) :: [])) by solve_registry.
  split; [exact Hr|]. split; [reflexivity|].
  destruct (held_signal_lock_blocks 18446744073709551615 one_signal_held 1%positive [] []
              2%positive changed_held "changed" f 3 P Hr (not_elem_of_nil _) eq_refl eq_refl)
    as (Hc & _ & Hs & _).
  split; [exact Hc | exact Hs].
Defined.

Lemma destroy_frees_registry_witness :
  registry one_signal 1%positive MutexUnlocked [(2%positive, changed)] ∧
  quiescent [(2%positive, changed)] ∧
  ∃ s',
    signal_handler_destroy (Some 1%positive) one_signal = Ret tt s' ∧
    heap s' !! 1%positive = None ∧ heap s' !! 2%positive = None.
Proof.
  assert (Hr : registry one_signal 1%positive MutexUnlocked [(2%positive, changed)])
    by solve_registry.
  assert (Hq : quiescent [(2%positive, changed)]) by (repeat constructor).
  split; [exact Hr|]. split; [exact Hq|].
  destruct (destroy_frees_registry one_signal 1%positive [(2%positive, changed)] Hr Hq)
    as (s' & Hd & Hfree & _).
  exists s'. split; [exact Hd|].
  split; apply Hfree; simpl; [left | right; left].
Defined.

Lemma use_after_destroy_witness :
  registry one_signal 1%positive MutexUnlocked [(2%positive, changed)] ∧
  quiescent [(2%positive, changed)] ∧
  ∃ s',
    signal_handler_destroy (Some 1%positive) one_signal = Ret tt s' ∧
    signal_handler_signal (Some 1%positive) "changed" P s' = Fault ∧
    signal_handler_destroy (Some 1%positive) s' = Fault.
Proof.
  assert (Hr : registry one_signal 1%positive MutexUnlocked [(2%positive, changed)])
    by solve_registry.
  assert (Hq : quiescent [(2%positive, changed)]) by (repeat constructor).
  split; [exact Hr|]. split; [exact Hq|].
  destruct (use_after_destroy 18446744073709551615 one_signal 1%positive
              [(2%positive, changed)] "changed" f 1 P Hr Hq)
    as (s' & Hd & _ & _ & Hs & Hdd).
  exists s'. split; [exact Hd|]. split; [exact Hs | exact Hdd].
Defined.

Lemma registry_stays_well_formed_witness :
  registry one_signal 1%positive MutexUnlocked [(2%positive, changed)] ∧
  quiescent [(2%positive, changed)] ∧
  NoDup (names [(2%positive, changed)]) ∧
  arrays_nodup [(2%positive, changed)] ∧
  room 18446744073709551615 3 [(2%positive, changed)] ∧
  ∃ s' m' l',
    (run_operations 18446744073709551615 (Some 1%positive)
       [Connect "changed" f 1; Connect "other" f 1; Disconnect "changed" f 2] one_signal
       = Ret tt s' ∨
     run_operations 18446744073709551615 (Some 1%positive)
       [Connect "changed" f 1; Connect "other" f 1; Disconnect "changed" f 2] one_signal
       = Blocks s') ∧
    registry s' 1%positive m' l' ∧ NoDup (names l') ∧ arrays_nodup l'.
Proof.
  assert (Hr : registry one_signal 1%positive MutexUnlocked [(2%positive, changed)])
    by solve_registry.
  assert (Hq : quiescent [(2%positive, changed)]) by (repeat constructor).
  assert (Hm : MutexUnlocked ≠ MutexUninit) by discriminate.
  assert (Hnd : NoDup (names [(2%positive, changed)])) by compute_done.
  assert (Harr : arrays_nodup [(2%positive, changed)]).
  { constructor; [|constructor]. simpl. compute_done. }
  assert (Hroom : room 18446744073709551615 3 [(2%positive, changed)]).
  { split; [lia|]. constructor; [simpl; lia | constructor]. }
  split; [exact Hr|]. split; [exact Hq|]. split; [exact Hnd|]. split; [exact Harr|].
  split; [exact Hroom|].
  exact (registry_stays_well_formed 18446744073709551615 one_signal 1%positive MutexUnlocked
           [(2%positive, changed)]
           [Connect "changed" f 1; Connect "other" f 1; Disconnect "changed" f 2]
           Hr Hm Hq Hnd Harr Hroom).
Defined.

Lemma lifetime_frees_every_struct_witness :
  inits_succeed one_signal ∧
  ∃ s',
    lifetime 18446744073709551615
      [Connect "a" f 1; Connect "b" f 2; Signal "a" P; Disconnect "a" f 1] one_signal
      = Ret tt s' ∧
    (∀ a, heap one_signal !! a = None -> heap s' !! a = None) ∧
    (∀ a o, heap one_signal !! a = Some o -> heap s' !! a = Some o) ∧
    log s' = log one_signal.
Proof.
  assert (Hrcs : inits_succeed one_signal) by constructor.
  split; [exact Hrcs|].
  exact (lifetime_frees_every_struct 18446744073709551615 one_signal
           [Connect "a" f 1; Connect "b" f 2; Signal "a" P; Disconnect "a" f 1] Hrcs).
Defined.

Lemma concurrent_connect_is_defined_witness :
  let c := run_schedule 18446744073709551615 (Some 1%positive) (take 15 interleaving)
             (empty_registry, two_threads) in
  registry empty_registry 1%positive MutexUnlocked [] ∧
  initialised [] ∧
  Forall (fun t => th_pc t = at_lock) two_threads ∧
  rtc (sched_step 18446744073709551615 (Some 1%positive))
      (empty_registry, two_threads) (fst c, snd c) ∧
  snd c !! 0%nat = Some (mk_thread "changed" f 1 (at_register (Some 2%positive))) ∧
  (∃ i, heap (fst c) !! 2%positive = Some (OSignal i) ∧ si_mutex i = MutexLocked) ∧
  connect_step 18446744073709551615 (Some 1%positive)
    (mk_thread "changed" f 1 (at_register (Some 2%positive))) (fst c) ≠ Crash.
Proof.
  intros c.
  assert (Hr : registry empty_registry 1%positive MutexUnlocked []) by solve_registry.
  assert (Hinit : initialised []) by constructor.
  assert (Hall : Forall (fun t => th_pc t = at_lock) two_threads) by (repeat constructor).
  assert (Hrun : rtc (sched_step 18446744073709551615 (Some 1%positive))
                     (empty_registry, two_threads) (fst c, snd c)).
  { rewrite <- surjective_pairing. apply run_schedule_rtc. }
  assert (Hk : snd c !! 0%nat = Some (mk_thread "changed" f 1 (at_register (Some 2%positive))))
    by (vm_compute; reflexivity).
  split; [exact Hr|]. split; [exact Hinit|]. split; [exact Hall|]. split; [exact Hrun|].
  split; [exact Hk|].
  destruct (concurrent_connect_is_defined 18446744073709551615 1%positive
              empty_registry [] two_threads (fst c) (snd c) Hr (NoDup_nil_2 (A:=string))
              Hinit Hall Hrun) as [Hdef Hheld].
  split; [exact (proj1 (Hheld 0%nat _ 2%positive Hk eq_refl)) | exact (Hdef 0%nat _ Hk)].
Defined.

Lemma concurrent_registration_is_kept_witness :
  let c := run_schedule 18446744073709551615 (Some 1%positive) (take 17 interleaving)
             (empty_registry, two_threads) in
  let c' := run_schedule 18446744073709551615 (Some 1%positive) (drop 17 interleaving) c in
  registry empty_registry 1%positive MutexUnlocked [] ∧
  Forall (fun t => th_pc t = at_lock) two_threads ∧
  rtc (sched_step 18446744073709551615 (Some 1%positive))
      (empty_registry, two_threads) (fst c, snd c) ∧
  snd c !! 0%nat = Some (mk_thread "changed" f 1 (at_unlock_sig (Some 2%positive))) ∧
  rtc (sched_step 18446744073709551615 (Some 1%positive)) (fst c, snd c) (fst c', snd c') ∧
  ∃ m l, registry (fst c') 1%positive m l ∧ NoDup (names l) ∧
         connected f 1 (callbacks_of "changed" l).
Proof.
  intros c c'.
  assert (Hr : registry empty_registry 1%positive MutexUnlocked []) by solve_registry.
  assert (Hall : Forall (fun t => th_pc t = at_lock) two_threads) by (repeat constructor).
  assert (Hrun : rtc (sched_step 18446744073709551615 (Some 1%positive))
                     (empty_registry, two_threads) (fst c, snd c)).
  { rewrite <- surjective_pairing. apply run_schedule_rtc. }
  assert (Hk : snd c !! 0%nat = Some (mk_thread "changed" f 1 (at_unlock_sig (Some 2%positive))))
    by (vm_compute; reflexivity).
  assert (Hrun' : rtc (sched_step 18446744073709551615 (Some 1%positive))
                      (fst c, snd c) (fst c', snd c')).
  { rewrite <- !surjective_pairing. apply run_schedule_rtc. }
  split; [exact Hr|]. split; [exact Hall|]. split; [exact Hrun|].
  split; [exact Hk|]. split; [exact Hrun'|].
  exact (concurrent_registration_is_kept 18446744073709551615 1%positive
           empty_registry [] two_threads (fst c) (snd c) 0%nat _ (Some 2%positive)
           (fst c') (snd c') Hr (NoDup_nil_2 (A:=string)) Hall Hrun Hk eq_refl Hrun').
Defined.

Lemma concurrent_connect_no_deadlock_witness :
  let c := run_schedule 18446744073709551615 (Some 1%positive) (take 21 interleaving)
             (empty_registry, two_threads) in
  registry empty_registry 1%positive MutexUnlocked [] ∧
  quiescent [] ∧
  inits_succeed empty_registry ∧
  Forall (fun t => th_pc t = at_lock) two_threads ∧
  rtc (sched_step 18446744073709551615 (Some 1%positive))
      (empty_registry, two_threads) (fst c, snd c) ∧
  snd c !! 1%nat = Some (mk_thread "changed" f 2 (at_lock_sig (Some 2%positive))) ∧
  ∃ k' t' pc' s', snd c !! k' = Some t' ∧
    connect_step 18446744073709551615 (Some 1%positive) t' (fst c) = Next pc' s'.
Proof.
  intros c.
  assert (Hr : registry empty_registry 1%positive MutexUnlocked []) by solve_registry.
  assert (Hq : quiescent []) by constructor.
  assert (Hin : inits_succeed empty_registry) by constructor.
  assert (Hall : Forall (fun t => th_pc t = at_lock) two_threads) by (repeat constructor).
  assert (Hrun : rtc (sched_step 18446744073709551615 (Some 1%positive))
                     (empty_registry, two_threads) (fst c, snd c)).
  { rewrite <- surjective_pairing. apply run_schedule_rtc. }
  assert (Hk : snd c !! 1%nat = Some (mk_thread "changed" f 2 (at_lock_sig (Some 2%positive))))
    by (vm_compute; reflexivity).
  split; [exact Hr|]. split; [exact Hq|]. split; [exact Hin|]. split; [exact Hall|].
  split; [exact Hrun|]. split; [exact Hk|].
  apply (concurrent_connect_no_deadlock 18446744073709551615 1%positive
           empty_registry [] two_threads (fst c) (snd c) 1%nat _
           Hr (NoDup_nil_2 (A:=string)) Hq Hin Hall Hrun Hk).
  discriminate.
Defined.

Lemma concurrent_connect_terminates_witness :
  let c := run_schedule 18446744073709551615 (Some 1%positive) interleaving
             (empty_registry, two_threads) in
  registry empty_registry 1%positive MutexUnlocked [] ∧
  Forall (fun t => th_pc t = at_lock) two_threads ∧
  nsteps (sched_step 18446744073709551615 (Some 1%positive)) 17
         (empty_registry, two_threads) (fst c, snd c) ∧
  (17 <= length two_threads * (0 + length two_threads + 12))%nat.
Proof.
  intros c.
  assert (Hr : registry empty_registry 1%positive MutexUnlocked []) by solve_registry.
  assert (Hall : Forall (fun t => th_pc t = at_lock) two_threads) by (repeat constructor).
  assert (Hrun : nsteps (sched_step 18446744073709551615 (Some 1%positive)) 17
                        (empty_registry, two_threads) (fst c, snd c)).
  { rewrite <- surjective_pairing.
    exact (run_length_nsteps 18446744073709551615 (Some 1%positive) interleaving
             (empty_registry, two_threads)). }
  split; [exact Hr|]. split; [exact Hall|]. split; [exact Hrun|].
  exact (concurrent_connect_terminates 18446744073709551615 1%positive
           empty_registry [] two_threads 17 (fst c) (snd c)
           Hr (NoDup_nil_2 (A:=string)) Hall Hrun).
Defined.
